(** * The atom selection engine of ProDy: [prody/atomic/select.py]

    A shallow embedding of the selection evaluator ([Select]), of the keyword
    catalogue ([KEYWORD_RESNAMES], [KEYWORD_MAP], ...) and of the macro table
    ([MACROS]), followed by the properties established about them.

    Conventions of the embedding.
    - Python [str] is [string]; Python [int] is [Z]; a Python [float] is an
      exact rational [Q] (rounding, [inf] and [nan] are not represented: where
      the code would produce or consume them the model stops with
      [OutsideModel]).
    - a one-dimensional [numpy.ndarray] is an [ndarray]: a list tagged with its
      dtype.  Index arrays ([nonzero()[0]], [evalonly], [_indices]) are
      [list nat].
    - a Python exception is [Raise e]; a function that can return [None] returns
      an [option].
    - evaluation runs in a state-and-exception monad over the atom group,
      because [np.invert(torf, torf)] works in place and the arrays handed out
      by the private accessors of the group are the stored ones.
    - [pyparsing] is an external library: the selector is modelled from the
      parse actions ([_and], [_or], [_unary], [_comp], ...) that
      [operatorPrecedence] calls bottom-up on the token groups, which are given
      as a parse tree ([expr]). *)

From Stdlib Require Import ZArith QArith Qround String Ascii List Bool Lia Sorted.
From stdpp Require Import base option list gmap strings.
Import ListNotations.

Close Scope Q_scope.
Local Open Scope string_scope.
Local Open Scope list_scope.

(* ------------------------------------------------------------------------- *)
(** ** Python strings *)

Module Py.

Definition is_space (c : ascii) : bool :=
  let n := nat_of_ascii c in
  (Nat.eqb n 32 || (Nat.leb 9 n && Nat.leb n 13))%bool.

Definition is_lower (c : ascii) : bool :=
  let n := nat_of_ascii c in (Nat.leb 97 n && Nat.leb n 122)%bool.

Definition is_upper (c : ascii) : bool :=
  let n := nat_of_ascii c in (Nat.leb 65 n && Nat.leb n 90)%bool.

Definition digit_of (c : ascii) : option Z :=
  let n := nat_of_ascii c in
  if (Nat.leb 48 n && Nat.leb n 57)%bool then Some (Z.of_nat (n - 48)) else None.

Definition to_lower (c : ascii) : ascii :=
  if is_upper c then ascii_of_nat (nat_of_ascii c + 32) else c.

Fixpoint all_chars (p : ascii -> bool) (s : string) : bool :=
  match s with
  | EmptyString => true
  | String c s' => (p c && all_chars p s')%bool
  end.

Definition is_empty (s : string) : bool :=
  match s with EmptyString => true | _ => false end.

(** [name.isalpha() and name.islower()] on an ASCII [str]: the string is not
    empty and every character is one of [a..z]. *)
Definition isalpha_and_islower (s : string) : bool :=
  (negb (is_empty s) && all_chars is_lower s)%bool.

(** [s.startswith(p)] *)
Definition startswith (p s : string) : bool := String.prefix p s.

(** [sub in s] *)
Fixpoint contains (sub s : string) : bool :=
  match s with
  | EmptyString => String.prefix sub EmptyString
  | String _ s' => (String.prefix sub s || contains sub s')%bool
  end.

(** [s.replace(old, new)] for a non-empty [old]: occurrences are replaced
    from left to right and do not overlap.  [skip] counts the characters of
    an occurrence that remain to be dropped. *)
Fixpoint replace_from (old new : string) (skip : nat) (s : string) : string :=
  match s with
  | EmptyString => EmptyString
  | String c s' =>
      match skip with
      | S k => replace_from old new k s'
      | O =>
          if String.prefix old s
          then new ++ replace_from old new (String.length old - 1) s'
          else String c (replace_from old new 0 s')
      end
  end.

Definition replace (old new s : string) : string := replace_from old new 0 s.

(** [while old in s: s = s.replace(old, new)]; every round of the loops of
    the source shortens the string, so its length bounds the rounds. *)
Fixpoint replace_while (fuel : nat) (old new s : string) : string :=
  match fuel with
  | O => s
  | S f => if contains old s then replace_while f old new (replace old new s) else s
  end.

(** [s.split(sep)] for a non-empty [sep]. *)
Fixpoint split_from (sep : string) (skip : nat) (cur s : string) : list string :=
  match s with
  | EmptyString => [cur]
  | String c s' =>
      match skip with
      | S k => split_from sep k cur s'
      | O =>
          if String.prefix sep s
          then cur :: split_from sep (String.length sep - 1) EmptyString s'
          else split_from sep 0 (cur ++ String c EmptyString) s'
      end
  end.

Definition split_on (sep s : string) : list string := split_from sep 0 EmptyString s.

(** [s.split()]: the maximal runs of characters that are not whitespace. *)
Fixpoint split_ws (cur s : string) : list string :=
  match s with
  | EmptyString => if is_empty cur then [] else [cur]
  | String c s' =>
      if is_space c
      then (if is_empty cur then split_ws EmptyString s' else cur :: split_ws EmptyString s')
      else split_ws (cur ++ String c EmptyString) s'
  end.

Definition split (s : string) : list string := split_ws EmptyString s.

(** [sep.join(l)] *)
Definition join (sep : string) (l : list string) : string := String.concat sep l.

Fixpoint lstrip (s : string) : string :=
  match s with
  | String c s' => if is_space c then lstrip s' else s
  | EmptyString => EmptyString
  end.

Fixpoint rstrip (s : string) : string :=
  match s with
  | EmptyString => EmptyString
  | String c s' =>
      let r := rstrip s' in
      if (is_empty r && is_space c)%bool then EmptyString else String c r
  end.

Definition strip (s : string) : string := rstrip (lstrip s).

(** [s[-1]] and [s[:-1]] *)
Fixpoint last_char (s : string) : option ascii :=
  match s with
  | EmptyString => None
  | String c EmptyString => Some c
  | String _ s' => last_char s'
  end.

Fixpoint but_last (s : string) : string :=
  match s with
  | EmptyString => EmptyString
  | String _ EmptyString => EmptyString
  | String c s' => String c (but_last s')
  end.

(** Decimal digits: the value read so far and the digits still to read. *)
Fixpoint digits_from (acc : Z) (s : string) : option Z :=
  match s with
  | EmptyString => Some acc
  | String c s' =>
      match digit_of c with
      | Some d => digits_from (10 * acc + d)%Z s'
      | None => None
      end
  end.

Definition unsigned_digits (s : string) : option Z :=
  if is_empty s then None else digits_from 0%Z s.

Definition split_sign (s : string) : bool * string :=
  match s with
  | String "-" s' => (true, s')
  | String "+" s' => (false, s')
  | _ => (false, s)
  end.

(** [int(s)] in base ten; [None] is [ValueError]. *)
Definition int (s : string) : option Z :=
  let '(neg, body) := split_sign (strip s) in
  match unsigned_digits body with
  | Some z => Some (if neg then (- z)%Z else z)
  | None => None
  end.

Inductive float_result :=
| FloatValue (q : Q)
| FloatNonFinite          (* "inf", "infinity", "nan": not represented *)
| FloatValueError.

Definition lower (s : string) : string :=
  string_of_list_ascii (List.map to_lower (list_ascii_of_string s)).

(** The mantissa [i.f]: at least one digit on one side of the point. *)
Definition mantissa (s : string) : option (Z * nat) :=
  match split_on "." s with
  | [i] => match unsigned_digits i with Some z => Some (z, 0) | None => None end
  | [i; f] =>
      if (is_empty i && is_empty f)%bool then None
      else
        match digits_from 0%Z i, digits_from 0%Z f with
        | Some zi, Some zf => Some ((zi * 10 ^ Z.of_nat (String.length f) + zf)%Z, String.length f)
        | _, _ => None
        end
  | _ => None
  end.

Definition exponent (s : string) : option Z :=
  let '(neg, body) := split_sign s in
  match unsigned_digits body with
  | Some z => Some (if neg then (- z)%Z else z)
  | None => None
  end.

Definition scale (m : Z) (e : Z) : Q :=
  if (0 <=? e)%Z then inject_Z (m * 10 ^ e) else Qmake m (Z.to_pos (10 ^ (- e))).

(** [float(s)] on decimal literals, with an optional exponent. *)
Definition float (s : string) : float_result :=
  let '(neg, body) := split_sign (strip s) in
  let low := lower body in
  if (String.eqb low "inf" || String.eqb low "infinity" || String.eqb low "nan")%bool
  then FloatNonFinite
  else
    let parts := split_on "e" low in
    let sgn (m : Z) := if neg then (- m)%Z else m in
    match parts with
    | [m] =>
        match mantissa m with
        | Some (z, k) => FloatValue (scale (sgn z) (- Z.of_nat k))
        | None => FloatValueError
        end
    | [m; e] =>
        match mantissa m, exponent e with
        | Some (z, k), Some x => FloatValue (scale (sgn z) (x - Z.of_nat k))
        | _, _ => FloatValueError
        end
    | _ => FloatValueError
    end.

(** [l.sort()] on a list of [str]: the order compares the strings
    character by character, and a string comes before the strings it is a
    proper prefix of.  Equal strings cannot be told apart, so the sorted
    list does not depend on how the sort proceeds. *)
Fixpoint sort_insert (s : string) (l : list string) : list string :=
  match l with
  | [] => [s]
  | x :: l' => if String.leb s x then s :: l else x :: sort_insert s l'
  end.

Definition sorted (l : list string) : list string := fold_right sort_insert [] l.

(** The order of that sort. *)
Definition in_order (a b : string) : Prop := String.leb a b = true.

End Py.

(* ------------------------------------------------------------------------- *)
(** ** Exceptions and results *)

Inductive exn :=
| SelectionError
| ZeroDivisionError
| ValueError
| TypeError
| IndexError
| KeyError
| AttributeError
| RecursionLimit      (* the recursion budget of the model is used up *)
| OutsideModel.       (* the code goes on, the model does not follow it *)

Inductive res (A : Type) :=
| Ok (a : A)
| Raise (e : exn).
Arguments Ok {A} a.
Arguments Raise {A} e.

Definition res_bind {A B} (r : res A) (k : A -> res B) : res B :=
  match r with
  | Ok a => k a
  | Raise e => Raise e
  end.

Definition is_ok {A} (r : res A) : bool :=
  match r with Ok _ => true | Raise _ => false end.

(* ------------------------------------------------------------------------- *)
(** ** numpy arrays *)

Inductive ndarray :=
| BoolArr (l : list bool)
| IntArr (l : list Z)
| FloatArr (l : list Q)
| StrArr (l : list string).

Module Np.

Definition len (a : ndarray) : nat :=
  match a with
  | BoolArr l => length l
  | IntArr l => length l
  | FloatArr l => length l
  | StrArr l => length l
  end.

Definition zeros (n : nat) : list bool := repeat false n.
Definition ones (n : nat) : list bool := repeat true n.
Definition arange (n : nat) : list nat := seq 0 n.

(** [m.nonzero()[0]]: the positions holding [True], in increasing order. *)
Fixpoint nonzero_from (i : nat) (m : list bool) : list nat :=
  match m with
  | [] => []
  | b :: m' => if b then i :: nonzero_from (S i) m' else nonzero_from (S i) m'
  end.

Definition nonzero (m : list bool) : list nat := nonzero_from 0 m.

Definition invert (m : list bool) : list bool := List.map negb m.

(** [a[idx]] for an array of indices: [IndexError] out of range. *)
Fixpoint take {A} (a : list A) (idx : list nat) : res (list A) :=
  match idx with
  | [] => Ok []
  | i :: idx' =>
      match a !! i with
      | Some x => res_bind (take a idx') (fun r => Ok (x :: r))
      | None => Raise IndexError
      end
  end.

Definition take_arr (a : ndarray) (idx : list nat) : res ndarray :=
  match a with
  | BoolArr l => res_bind (take l idx) (fun r => Ok (BoolArr r))
  | IntArr l => res_bind (take l idx) (fun r => Ok (IntArr r))
  | FloatArr l => res_bind (take l idx) (fun r => Ok (FloatArr r))
  | StrArr l => res_bind (take l idx) (fun r => Ok (StrArr r))
  end.

(** [a[mask]] for a boolean mask of the length of [a].  What numpy does
    with a mask of another length depends on its version. *)
Fixpoint compress {A} (a : list A) (mask : list bool) : res (list A) :=
  match a, mask with
  | [], [] => Ok []
  | x :: a', b :: mask' =>
      res_bind (compress a' mask') (fun r => Ok (if b then x :: r else r))
  | _, _ => Raise OutsideModel
  end.

(** [a[idx] = v] for one value [v]. *)
Fixpoint put_const {A} (a : list A) (idx : list nat) (v : A) : res (list A) :=
  match idx with
  | [] => Ok a
  | i :: idx' =>
      if decide (i < length a)
      then put_const (<[i := v]> a) idx' v
      else Raise IndexError
  end.

(** [a[idx] = vals]: one value for each index; a single value is broadcast
    to all of them. *)
Fixpoint put_each {A} (a : list A) (idx : list nat) (vals : list A) : res (list A) :=
  match idx, vals with
  | [], [] => Ok a
  | i :: idx', v :: vals' =>
      if decide (i < length a)
      then put_each (<[i := v]> a) idx' vals'
      else Raise IndexError
  | _, _ => Raise ValueError
  end.

Definition put {A} (a : list A) (idx : list nat) (vals : list A) : res (list A) :=
  match vals with
  | [v] => put_const a idx v
  | _ => put_each a idx vals
  end.

(** [torf[cond] = True] for a boolean array [cond] of the length of
    [torf]. *)
Fixpoint set_where (torf cond : list bool) : res (list bool) :=
  match torf, cond with
  | [], [] => Ok []
  | t :: torf', c :: cond' =>
      res_bind (set_where torf' cond') (fun r => Ok ((t || c)%bool :: r))
  | _, _ => Raise OutsideModel
  end.

(** Element-wise combination of two arrays with broadcasting of an array
    of length one. *)
Fixpoint zip_same {A B C} (f : A -> B -> C) (a : list A) (b : list B) : res (list C) :=
  match a, b with
  | [], [] => Ok []
  | x :: a', y :: b' => res_bind (zip_same f a' b') (fun r => Ok (f x y :: r))
  | _, _ => Raise ValueError
  end.

Definition broadcast {A B C} (f : A -> B -> C) (a : list A) (b : list B) : res (list C) :=
  match a, b with
  | [x], _ => Ok (List.map (f x) b)
  | _, [y] => Ok (List.map (fun x => f x y) a)
  | _, _ => zip_same f a b
  end.

(** [np.unique] of an integer array: sorted, without repetitions. *)
Fixpoint insert_sorted (z : Z) (l : list Z) : list Z :=
  match l with
  | [] => [z]
  | y :: l' =>
      if (z <? y)%Z then z :: l
      else if (z =? y)%Z then l
      else y :: insert_sorted z l'
  end.

Definition unique (l : list Z) : list Z := fold_right insert_sorted [] l.

(** Python slice [a[start:stop:step]] positions for a positive step, with
    negative bounds counted from the end and both bounds clipped. *)
Definition clip (n : nat) (i : Z) : nat :=
  let i' := if (i <? 0)%Z then (i + Z.of_nat n)%Z else i in
  Z.to_nat (Z.min (Z.max i' 0) (Z.of_nat n)).

Fixpoint steps (fuel : nat) (i stop step : nat) : list nat :=
  match fuel with
  | O => []
  | S f => if decide (i < stop) then i :: steps f (i + step) stop step else []
  end.

Definition slice_positions (n : nat) (start stop : Z) (step : nat) : list nat :=
  steps n (clip n start) (clip n stop) step.

(** [range(a, b, c)] of Python for a step that is not zero. *)
Fixpoint range_up (fuel : nat) (i stop step : Z) : list Z :=
  match fuel with
  | O => []
  | S f => if (i <? stop)%Z then i :: range_up f (i + step)%Z stop step else []
  end.

Fixpoint range_down (fuel : nat) (i stop step : Z) : list Z :=
  match fuel with
  | O => []
  | S f => if (stop <? i)%Z then i :: range_down f (i + step)%Z stop step else []
  end.

Definition range (a b c : Z) : res (list Z) :=
  if (c =? 0)%Z then Raise ValueError
  else if (0 <? c)%Z then Ok (range_up (Z.to_nat (b - a)) a b c)
  else Ok (range_down (Z.to_nat (a - b)) a b c).

End Np.

(* ------------------------------------------------------------------------- *)
(** ** Tokens and values *)

(** A compiled regular expression ([re] is an external library): its pattern
    and the outcome of [regex.match(s) is not None]. *)
Record regex := { pattern : string; re_match : string -> bool }.

(** The key of an array stored by the atom group. *)
Inductive loc :=
| LField (keyword : string)      (* a column of a data field: resnum, name... *)
| LData (label : string).        (* a column of user data *)

(** What a numeric or boolean sub-expression evaluates to.  [VRef] is an
    array that is not a copy: the very array the atom group stores under the
    location, or ([VIndices]) the index array of the selector. *)
Inductive value :=
| VArr (a : ndarray)
| VRef (l : loc)
| VIndices
| VFloat (q : Q)
| VPyBool (b : bool).

(** A token handed to a parse action: a word, a compiled regular expression,
    or the value a parse action returned for a sub-expression. *)
Inductive item :=
| IStr (s : string)
| IRegex (r : regex)
| IVal (v : value).

Definition AND : string := "&&&".
Definition NOT : string := "!!!".
Definition OR : string := "||".

(* ------------------------------------------------------------------------- *)
(** ** The keyword catalogue (module-level tables of [select.py]) *)

Definition KEYWORDS_STRING : list string :=
  ["name"; "type"; "resname"; "chain"; "element"; "segment"; "altloc";
   "secondary"; "icode"; "chid"; "secstr"; "segname"].

Definition KEYWORDS_INTEGER : list string :=
  ["serial"; "index"; "resnum"; "resid"; "segindex"; "chindex"; "resindex"].

Definition KEYWORDS_FLOAT : list string :=
  ["x"; "y"; "z"; "beta"; "mass"; "occupancy"; "mass"; "radius"; "charge"].

Definition KEYWORDS_NUMERIC : list string := KEYWORDS_FLOAT ++ KEYWORDS_INTEGER.

Definition KEYWORDS_VALUE_PAIRED : list string := KEYWORDS_NUMERIC ++ KEYWORDS_STRING.

(** Modelled from the spec: [fields.py] ([ATOMIC_DATA_FIELDS]) is not part of
    the sources at hand.  The synonyms are those the specification names
    ([chid], [resid], [secstr]) and [segname], which the keyword table of the
    module documents as "same as segment". *)
Definition KEYWORDS_SYNONYMS : list (string * string) :=
  [("chid", "chain"); ("resid", "resnum"); ("secstr", "secondary");
   ("segname", "segment")].

(** Modelled from the spec: the names of the data fields of [fields.py], one
    for each attribute column of the specification and each value-paired
    keyword that is neither a synonym, nor a coordinate, nor [index]. *)
Definition ATOMIC_DATA_FIELDS : list string :=
  ["name"; "altloc"; "chain"; "element"; "occupancy"; "resname"; "resnum";
   "secondary"; "segment"; "serial"; "beta"; "icode"; "type"; "charge";
   "mass"; "radius"; "resindex"; "chindex"; "segindex"].

Definition synonym (keyword : string) : string :=
  match List.find (fun p => String.eqb (fst p) keyword) KEYWORDS_SYNONYMS with
  | Some p => snd p
  | None => keyword
  end.

Definition KEYWORD_RESNAMES_literal : list (string * list string) :=
  [("protein", ["ALA"; "ARG"; "ASN"; "ASP"; "CYS"; "GLN"; "GLU"; "GLY"; "HIS";
                "ILE"; "LEU"; "LYS"; "MET"; "PHE"; "PRO"; "SER"; "THR"; "TRP";
                "TYR"; "VAL"; "HSD"; "HSE"; "HSP"; "GLX"; "ASX"; "SEC"; "PYL";
                "XLE"; "CSO"]);
   ("nucleic", ["GUA"; "ADE"; "CYT"; "THY"; "URA"; "DA"; "DC"; "DG"; "DT";
                "A"; "C"; "G"; "T"; "U"]);
   ("acidic", ["ASP"; "GLU"]);
   ("aliphatic", ["ALA"; "GLY"; "ILE"; "LEU"; "VAL"; "XLE"]);
   ("aromatic", ["HIS"; "PHE"; "TRP"; "TYR"; "HSD"; "HSE"; "HSP"]);
   ("basic", ["LYS"; "ARG"; "HIS"; "HSP"; "HSD"]);
   ("buried", ["ALA"; "LEU"; "VAL"; "ILE"; "XLE"; "PHE"; "CYS"; "MET"; "TRP"]);
   ("cyclic", ["HIS"; "PHE"; "PRO"; "TRP"; "TYR"; "HSD"; "HSE"; "HSP"]);
   ("hydrophobic", ["ALA"; "ILE"; "LEU"; "MET"; "PHE"; "PRO"; "TRP"; "VAL"; "XLE"]);
   ("small", ["ALA"; "GLY"; "SER"]);
   ("medium", ["VAL"; "THR"; "ASP"; "ASN"; "ASX"; "PRO"; "CYS"; "SEC"]);
   ("water", ["HOH"; "WAT"; "TIP3"; "H2O"; "HH0"; "OHH"; "OH2"; "SOL"; "TIP";
              "TIP2"; "TIP4"]);
   ("lipid", ["DLPE"; "DMPC"; "DPPC"; "GPC"; "LPPC"; "PALM"; "PC"; "PGCL";
              "POPC"; "POPE"]);
   ("heme", ["HEM"; "HEME"]);
   ("ion", ["AL"; "BA"; "CA"; "CAL"; "CD"; "CES"; "CLA"; "CL"; "CO"; "CS";
            "CU"; "CU1"; "CUA"; "HG"; "IN"; "IOD"; "K"; "MG"; "MN3"; "MO3";
            "MO4"; "MO5"; "MO6"; "NA"; "NAW"; "OC7"; "PB"; "POT"; "PT"; "RB";
            "SOD"; "TB"; "TL"; "WO4"; "YB"; "ZN"; "ZN1"; "ZN2"]);
   ("sugar", ["AGLC"]);
   ("at", ["ADE"; "A"; "THY"; "T"]);
   ("cg", ["CYT"; "C"; "GUA"; "G"]);
   ("purine", ["ADE"; "A"; "GUA"; "G"]);
   ("pyrimidine", ["CYT"; "C"; "THY"; "T"; "URA"; "U"])].

Definition KEYWORD_RESNAMES_READONLY : list (string * string) :=
  [("acyclic", "protein and not cyclic");
   ("charged", "acidic or basic");
   ("large", "not (small or medium)");
   ("neutral", "protein and not charged");
   ("polar", "protein and not hydrophobic");
   ("surface", "protein and not buried")].

Definition is_readonly (keyword : string) : bool :=
  bool_decide (keyword ∈ List.map fst KEYWORD_RESNAMES_READONLY).

Definition SECSTR_MAP : list (string * string) :=
  [("extended", "E"); ("helix", "H"); ("helix_pi", "G"); ("helix_3_10", "I");
   ("turn", "T"); ("bridge", "B"); ("bend", "S"); ("coil", "C")].

(** The compiled patterns of [KEYWORD_NAME_REGEX]; [regex.match] anchors at
    the start of the name only. *)
Definition starts_with_letter (c : string) : regex :=
  {| pattern := c +:+ ".*"; re_match := Py.startswith c |}.

Definition hydrogen_regex : regex :=
  {| pattern := "[0-9]?H.*";
     re_match := fun s =>
       match s with
       | String c s' =>
           (Py.startswith "H" s ||
            (match Py.digit_of c with Some _ => true | None => false end
             && Py.startswith "H" s'))%bool
       | EmptyString => false
       end |}.

Definition KEYWORD_NAME_REGEX_literal : list (string * regex) :=
  [("carbon", starts_with_letter "C"); ("hydrogen", hydrogen_regex);
   ("nitrogen", starts_with_letter "N"); ("oxygen", starts_with_letter "O");
   ("sulfur", starts_with_letter "S")].

(** One entry of [KEYWORD_MAP]:
    [(residue_names, invert, atom_names, atom_names_not)]. *)
Record kwdef := {
  residue_names : option (list string);
  rn_invert : bool;
  atom_names : option (list item);
  an_invert : bool
}.

(** The module-level state.  A Python [set] is a list; the order in which a
    set is listed is not specified by Python and no result depends on it. *)
Record Catalog := {
  KEYWORD_RESNAMES : gmap string (list string);
  KEYWORD_NAME_REGEX : gmap string regex;
  BACKBONE_ATOM_NAMES : list string;
  BACKBONE_FULL_ATOM_NAMES : list string;
  KEYWORD_MAP : gmap string kwdef;
  MACROS : gmap string string
}.

Definition with_resnames (c : Catalog) (m : gmap string (list string)) : Catalog :=
  {| KEYWORD_RESNAMES := m;
     KEYWORD_NAME_REGEX := KEYWORD_NAME_REGEX c;
     BACKBONE_ATOM_NAMES := BACKBONE_ATOM_NAMES c;
     BACKBONE_FULL_ATOM_NAMES := BACKBONE_FULL_ATOM_NAMES c;
     KEYWORD_MAP := KEYWORD_MAP c;
     MACROS := MACROS c |}.

Definition with_keyword_map (c : Catalog) (m : gmap string kwdef) : Catalog :=
  {| KEYWORD_RESNAMES := KEYWORD_RESNAMES c;
     KEYWORD_NAME_REGEX := KEYWORD_NAME_REGEX c;
     BACKBONE_ATOM_NAMES := BACKBONE_ATOM_NAMES c;
     BACKBONE_FULL_ATOM_NAMES := BACKBONE_FULL_ATOM_NAMES c;
     KEYWORD_MAP := m;
     MACROS := MACROS c |}.

Definition with_backbone (c : Catalog) (full : bool) (names : list string) : Catalog :=
  {| KEYWORD_RESNAMES := KEYWORD_RESNAMES c;
     KEYWORD_NAME_REGEX := KEYWORD_NAME_REGEX c;
     BACKBONE_ATOM_NAMES := if full then BACKBONE_ATOM_NAMES c else names;
     BACKBONE_FULL_ATOM_NAMES := if full then names else BACKBONE_FULL_ATOM_NAMES c;
     KEYWORD_MAP := KEYWORD_MAP c;
     MACROS := MACROS c |}.

Definition with_macros (c : Catalog) (m : gmap string string) : Catalog :=
  {| KEYWORD_RESNAMES := KEYWORD_RESNAMES c;
     KEYWORD_NAME_REGEX := KEYWORD_NAME_REGEX c;
     BACKBONE_ATOM_NAMES := BACKBONE_ATOM_NAMES c;
     BACKBONE_FULL_ATOM_NAMES := BACKBONE_FULL_ATOM_NAMES c;
     KEYWORD_MAP := KEYWORD_MAP c;
     MACROS := m |}.

(** [KEYWORD_RESNAMES[key]]; the keys of the table are never removed. *)
Definition resnames_of (m : gmap string (list string)) (key : string) : list string :=
  default [] (m !! key).

(** [list(set(l))] and [list(a.difference(set(b)))] *)
Definition list_of_set (l : list string) : list string := remove_dups l.
Definition set_difference (a b : list string) : list string :=
  list_difference (remove_dups a) b.

Definition _setReadonlyResidueNames (m0 : gmap string (list string))
  : gmap string (list string) :=
  let protein := resnames_of m0 "protein" in
  let m1 := <["acyclic" := set_difference protein (resnames_of m0 "cyclic")]> m0 in
  let m2 := <["charged" := list_of_set (resnames_of m1 "acidic" ++ resnames_of m1 "basic")]> m1 in
  let m3 := <["large" := set_difference protein
                           (resnames_of m2 "small" ++ resnames_of m2 "medium")]> m2 in
  let m4 := <["neutral" := set_difference protein (resnames_of m3 "charged")]> m3 in
  let m5 := <["polar" := set_difference protein (resnames_of m4 "hydrophobic")]> m4 in
  <["surface" := set_difference protein (resnames_of m5 "buried")]> m5.

(** What the derived keywords stand for in a table of residue names:
    "acyclic" is "protein and not cyclic", "charged" is "acidic or basic",
    and so on for the entries of [KEYWORD_RESNAMES_READONLY]. *)
Definition derived_consistent (m : gmap string (list string)) : Prop :=
  let has (key x : string) := x ∈ resnames_of m key in
  (∀ x, has "acyclic" x ↔ has "protein" x ∧ ¬ has "cyclic" x)
  ∧ (∀ x, has "charged" x ↔ has "acidic" x ∨ has "basic" x)
  ∧ (∀ x, has "large" x ↔ has "protein" x ∧ ¬ (has "small" x ∨ has "medium" x))
  ∧ (∀ x, has "neutral" x ↔ has "protein" x ∧ ¬ has "charged" x)
  ∧ (∀ x, has "polar" x ↔ has "protein" x ∧ ¬ has "hydrophobic" x)
  ∧ (∀ x, has "surface" x ↔ has "protein" x ∧ ¬ has "buried" x).

Definition plain_resnames (resnames : list string) : kwdef :=
  {| residue_names := Some resnames; rn_invert := false;
     atom_names := None; an_invert := false |}.

Definition protein_atoms (protein : list string) (names : list item) (inv : bool) : kwdef :=
  {| residue_names := Some protein; rn_invert := false;
     atom_names := Some names; an_invert := inv |}.

Definition regex_of (c : Catalog) (name : string) : list item :=
  match KEYWORD_NAME_REGEX c !! name with
  | Some r => [IRegex r]
  | None => []
  end.

(** [_buildKeywordMap()]: every entry is written from the tables as they are
    at the time of the call.  The entries hold the list objects found in
    [KEYWORD_RESNAMES] then; a later assignment to a key of
    [KEYWORD_RESNAMES] binds a new list and leaves [KEYWORD_MAP] as it is. *)
Definition _buildKeywordMap (c : Catalog) : Catalog :=
  let protein := resnames_of (KEYWORD_RESNAMES c) "protein" in
  let bb := List.map IStr (BACKBONE_ATOM_NAMES c) in
  let bbfull := List.map IStr (BACKBONE_FULL_ATOM_NAMES c) in
  let m0 := map_fold (fun keyword resnames m => <[keyword := plain_resnames resnames]> m)
              (KEYWORD_MAP c) (KEYWORD_RESNAMES c) in
  let m1 := <["alpha" := protein_atoms protein [IStr "CA"] false]> m0 in
  let m2 := <["calpha" := protein_atoms protein [IStr "CA"] false]> m1 in
  let m3 := <["ca" := protein_atoms protein [IStr "CA"] false]> m2 in
  let m4 := <["backbone" := protein_atoms protein bb false]> m3 in
  let m5 := <["bb" := protein_atoms protein bb false]> m4 in
  let m6 := <["backbonefull" := protein_atoms protein bbfull false]> m5 in
  let m7 := <["bbfull" := protein_atoms protein bbfull false]> m6 in
  let m8 := <["sidechain" := protein_atoms protein bbfull true]> m7 in
  let m9 := <["sc" := protein_atoms protein bbfull true]> m8 in
  let m10 := <["hetero" := {| residue_names :=
                                Some (protein ++ resnames_of (KEYWORD_RESNAMES c) "nucleic");
                              rn_invert := true; atom_names := None;
                              an_invert := false |}]> m9 in
  let m11 := map_fold (fun name r m =>
                         <[name := {| residue_names := None; rn_invert := false;
                                      atom_names := Some [IRegex r];
                                      an_invert := false |}]> m)
               m10 (KEYWORD_NAME_REGEX c) in
  let m12 := <["carbon" := {| residue_names := Some (resnames_of (KEYWORD_RESNAMES c) "ion");
                              rn_invert := true;
                              atom_names := Some (regex_of c "carbon");
                              an_invert := false |}]> m11 in
  let m13 := <["noh" := {| residue_names := None; rn_invert := false;
                           atom_names := Some (regex_of c "hydrogen");
                           an_invert := true |}]> m12 in
  with_keyword_map c m13.

(** The tables once the module is imported: the literal tables, then
    [_setReadonlyResidueNames()], then [_buildKeywordMap()]; no macro is
    defined. *)
Definition initial_catalog : Catalog :=
  _buildKeywordMap
    {| KEYWORD_RESNAMES := _setReadonlyResidueNames (list_to_map KEYWORD_RESNAMES_literal);
       KEYWORD_NAME_REGEX := list_to_map KEYWORD_NAME_REGEX_literal;
       BACKBONE_ATOM_NAMES := ["CA"; "N"; "C"; "O"];
       BACKBONE_FULL_ATOM_NAMES := ["CA"; "N"; "C"; "O"; "H"; "H1"; "H2"; "H3"; "OXT"];
       KEYWORD_MAP := ∅;
       MACROS := ∅ |}.

(** [KEYWORDS_BOOLEAN] is computed once, when the module is imported. *)
Definition KEYWORDS_BOOLEAN : list string :=
  ["all"; "none"] ++ List.map fst (map_to_list (KEYWORD_MAP initial_catalog))
                  ++ List.map fst SECSTR_MAP.

Definition FUNCTION_MAP_keys : list string :=
  ["sqrt"; "sq"; "abs"; "floor"; "ceil"; "sin"; "cos"; "tan"; "asin"; "acos";
   "atan"; "sinh"; "cosh"; "tahn"; "exp"; "log"; "log10"].

Definition isFloatKeyword (k : string) : bool := bool_decide (k ∈ KEYWORDS_FLOAT).
Definition isIntKeyword (k : string) : bool := bool_decide (k ∈ KEYWORDS_INTEGER).
Definition isNumericKeyword (k : string) : bool := bool_decide (k ∈ KEYWORDS_NUMERIC).
Definition isAlnumKeyword (k : string) : bool := bool_decide (k ∈ KEYWORDS_STRING).
Definition isValuePairedKeyword (k : string) : bool := bool_decide (k ∈ KEYWORDS_VALUE_PAIRED).
Definition isBooleanKeyword (k : string) : bool := bool_decide (k ∈ KEYWORDS_BOOLEAN).
Definition isKeyword (k : string) : bool := (isBooleanKeyword k || isValuePairedKeyword k)%bool.

(** [RESERVED]: the keys of [ATOMIC_DATA_FIELDS] and of the synonyms, the
    operator words and the internal names listed in the source.  (The keys
    of [ATOMIC_ATTRIBUTES], from [fields.py], would add to the set; they are
    not in the sources at hand.) *)
Definition RESERVED : list string :=
  ATOMIC_DATA_FIELDS
  ++ ["and"; "or"; "not"; "within"; "of"; "exwithin"; "same"; "as"]
  ++ List.map fst KEYWORDS_SYNONYMS
  ++ ["n_atoms"; "n_csets"; "cslabels"; "title"; "coordinates"; "bonds"; "bmap";
      "numbonds"].

Definition isReserved (word : string) : bool :=
  (bool_decide (word ∈ RESERVED) || isKeyword word
   || bool_decide (word ∈ FUNCTION_MAP_keys))%bool.

Definition isMacro (c : Catalog) (word : string) : bool :=
  bool_decide (is_Some (MACROS c !! word)).

(* ------------------------------------------------------------------------- *)
(** ** Changing the catalogue and the macro table *)

Inductive level := INFO | WARNING.

(** What a call leaves behind: the tables, the records handed to [LOGGER],
    and how the call ended. *)
Record outcome := {
  tables : Catalog;
  logged : list (level * string);
  result : res unit
}.

Definition dq : string := String (ascii_of_nat 34) EmptyString.
Definition quoted (s : string) : string := dq +:+ s +:+ dq.

Definition readonly_definition (keyword : string) : string :=
  match List.find (fun p => String.eqb (fst p) keyword) KEYWORD_RESNAMES_READONLY with
  | Some p => snd p
  | None => EmptyString
  end.

(** [setKeywordResnames(keyword, resnames)] for a string and a list of
    strings (the checks of the argument types are settled by the types). *)
Definition setKeywordResnames (c : Catalog) (keyword : string) (resnames : list string)
  : outcome :=
  if is_readonly keyword then
    {| tables := c;
       logged := [(WARNING, quoted keyword +:+ " is defined as "
                            +:+ quoted (readonly_definition keyword)
                            +:+ " and cannot be changed directly")];
       result := Ok tt |}
  else if bool_decide (is_Some (KEYWORD_RESNAMES c !! keyword)) then
    {| tables := with_resnames c
                   (_setReadonlyResidueNames
                      (<[keyword := list_of_set resnames]> (KEYWORD_RESNAMES c)));
       logged := [];
       result := Ok tt |}
  else
    {| tables := c; logged := []; result := Raise ValueError |}.

(** [setBackboneAtomNames(backbone_atom_names, full)] *)
Definition setBackboneAtomNames (c : Catalog) (names : list string) (full : bool)
  : outcome :=
  {| tables := _buildKeywordMap (with_backbone c full (list_of_set names));
     logged := [];
     result := Ok tt |}.

(** [defSelectionMacro(name, selstr)].  [ATOMGROUP_select selstr] is how
    [ATOMGROUP.select(selstr)] ends on the reference atom group of the
    module. *)
Definition defSelectionMacro (ATOMGROUP_select : string -> res unit)
    (c : Catalog) (name selstr : string) : outcome :=
  if isKeyword name then
    {| tables := c; logged := []; result := Raise ValueError |}
  else if negb (Py.isalpha_and_islower name) then
    {| tables := c; logged := []; result := Raise ValueError |}
  else
    let testing := (INFO, "Testing validity of selection string:") in
    match ATOMGROUP_select selstr with
    | Raise SelectionError =>
        {| tables := c;
           logged := [testing;
                      (WARNING, quoted selstr +:+ " is not a valid selection string, macro "
                                +:+ quoted name +:+ " is not defined.")];
           result := Ok tt |}
    | Raise e =>
        {| tables := c; logged := [testing]; result := Raise e |}
    | Ok _ =>
        {| tables := with_macros c (<[name := selstr]> (MACROS c));
           logged := [testing;
                      (INFO, "Macro " +:+ quoted name +:+ " is defined as "
                             +:+ quoted selstr +:+ ".")];
           result := Ok tt |}
    end.

(** [delSelectionMacro(name)]: [MACROS.pop(name)] under a bare [except]. *)
Definition delSelectionMacro (c : Catalog) (name : string) : outcome :=
  match MACROS c !! name with
  | None =>
      {| tables := c;
         logged := [(WARNING, "Macro " +:+ quoted name +:+ " is not found.")];
         result := Ok tt |}
  | Some _ =>
      {| tables := with_macros c (delete name (MACROS c));
         logged := [(INFO, "Macro " +:+ quoted name +:+ " is deleted.")];
         result := Ok tt |}
  end.

(** [getSelectionMacro(name)]: the definition of the macro, or [None] after
    a record at level INFO; without a name, a copy of the table. *)
Inductive macro_answer :=
| AllMacros (m : gmap string string)
| TheMacro (definition : string)
| NoAnswer.

Definition getSelectionMacro (c : Catalog) (name : option string)
  : list (level * string) * macro_answer :=
  match name with
  | None => ([], AllMacros (MACROS c))
  | Some n =>
      match MACROS c !! n with
      | Some s => ([], TheMacro s)
      | None => ([(INFO, quoted n +:+ " is not a user defined macro name.")], NoAnswer)
      end
  end.

Definition with_name_regex (c : Catalog) (m : gmap string regex) : Catalog :=
  {| KEYWORD_RESNAMES := KEYWORD_RESNAMES c;
     KEYWORD_NAME_REGEX := m;
     BACKBONE_ATOM_NAMES := BACKBONE_ATOM_NAMES c;
     BACKBONE_FULL_ATOM_NAMES := BACKBONE_FULL_ATOM_NAMES c;
     KEYWORD_MAP := KEYWORD_MAP c;
     MACROS := MACROS c |}.

(** [getAtomNameRegex(name)]: the pattern, or [None] after a warning. *)
Definition getAtomNameRegex (c : Catalog) (name : string)
  : list (level * string) * option string :=
  match KEYWORD_NAME_REGEX c !! name with
  | Some r => ([], Some (pattern r))
  | None => ([(WARNING, name +:+ " is not a valid element")], None)
  end.

(** [setAtomNameRegex(name, regex)] for two strings.  [RE_compile] is
    [re.compile] of the external library ([None]: it raises). *)
Definition setAtomNameRegex (RE_compile : string -> option regex)
    (c : Catalog) (name regex : string) : outcome :=
  if bool_decide (is_Some (KEYWORD_NAME_REGEX c !! name)) then
    match RE_compile regex with
    | Some r =>
        {| tables := with_name_regex c (<[name := r]> (KEYWORD_NAME_REGEX c));
           logged := [];
           result := Ok tt |}
    | None => {| tables := c; logged := []; result := Raise ValueError |}
    end
  else {| tables := c; logged := []; result := Raise ValueError |}.

(** [getBackboneAtomNames(full)] *)
Definition getBackboneAtomNames (c : Catalog) (full : bool) : list string :=
  Py.sorted (if full then BACKBONE_FULL_ATOM_NAMES c else BACKBONE_ATOM_NAMES c).

(** [getReservedWords()] *)
Definition getReservedWords : list string :=
  Py.sorted (list_of_set (RESERVED ++ FUNCTION_MAP_keys ++ KEYWORDS_BOOLEAN
                          ++ KEYWORDS_VALUE_PAIRED)).

(** [expandBoolean(keyword)]; [None] stands for the keyword handed back as
    it is, which does not happen for a keyword of [KEYWORDS_BOOLEAN]. *)
Definition expandBoolean (c : Catalog) (keyword : string) : option (list item) :=
  match KEYWORD_MAP c !! keyword with
  | Some d =>
      let names :=
        match atom_names d with
        | Some an =>
            (if an_invert d then [IStr NOT] else [])
            ++ [IStr "name"] ++ an
            ++ (match residue_names d with Some _ => [IStr AND] | None => [] end)
        | None => []
        end in
      let residues :=
        match residue_names d with
        | Some rn =>
            (if rn_invert d then [IStr NOT] else [])
            ++ [IStr "resname"] ++ List.map IStr rn
        | None => []
        end in
      Some (names ++ residues)
  | None =>
      match List.find (fun p => String.eqb (fst p) keyword) SECSTR_MAP with
      | Some p => Some [IStr "secondary"; IStr (snd p)]
      | None => None
      end
  end.

(* ------------------------------------------------------------------------- *)
(** ** The atom group and the selector *)

Definition point : Type := (Q * Q * Q)%type.

(** The part of an [AtomGroup] the selector reads: the number of atoms, the
    columns of the data fields (by keyword), the user data (by label), and
    the active coordinate set. *)
Record AtomGroup := {
  numAtoms : nat;
  _fields : gmap string ndarray;
  _data : gmap string ndarray;
  _coords : option (list point)
}.

Definition with_fields (ag : AtomGroup) (m : gmap string ndarray) : AtomGroup :=
  {| numAtoms := numAtoms ag; _fields := m; _data := _data ag; _coords := _coords ag |}.

Definition with_data (ag : AtomGroup) (m : gmap string ndarray) : AtomGroup :=
  {| numAtoms := numAtoms ag; _fields := _fields ag; _data := m; _coords := _coords ag |}.

(** Every stored column holds one entry for each atom. *)
Definition well_formed (ag : AtomGroup) : Prop :=
  (∀ k a, _fields ag !! k = Some a → Np.len a = numAtoms ag) ∧
  (∀ k a, _data ag !! k = Some a → Np.len a = numAtoms ag) ∧
  (∀ c, _coords ag = Some c → length c = numAtoms ag).

(** The fields of a [Select] instance that [getBoolArray] sets: [_indices]
    is [None] for an atom group and the indices of the atoms for an atom, a
    selection or another subset; [_n_atoms] is the number of atoms selected
    from; [_kwargs] binds names to coordinate arrays. *)
Record Select := {
  _indices : option (list nat);
  _n_atoms : nat;
  _kwargs : gmap string (list point)
}.

(** Evaluation reads and updates the atom group and can raise. *)
Definition M (A : Type) : Type := AtomGroup → AtomGroup * res A.

Definition ret {A} (a : A) : M A := fun ag => (ag, Ok a).
Definition raise {A} (e : exn) : M A := fun ag => (ag, Raise e).
Definition lift {A} (r : res A) : M A := fun ag => (ag, r).
Definition bind {A B} (m : M A) (k : A → M B) : M B :=
  fun ag =>
    match m ag with
    | (ag', Ok a) => k a ag'
    | (ag', Raise e) => (ag', Raise e)
    end.
Definition get_group : M AtomGroup := fun ag => (ag, Ok ag).
Definition set_group (ag' : AtomGroup) : M unit := fun _ => (ag', Ok tt).

Declare Scope sel_scope.
Delimit Scope sel_scope with sel.
Notation "x <- m ;; k" := (bind m (fun x => k))
  (at level 100, m at level 99, right associativity) : sel_scope.
Notation "x <~ r ;; k" := (res_bind r (fun x => k))
  (at level 100, r at level 99, right associativity) : sel_scope.
Local Open Scope sel_scope.

(** *** The spatial index *)

Definition sq (q : Q) : Q := (q * q)%Q.

Definition dist2 (p q : point) : Q :=
  let '(px, py, pz) := p in
  let '(qx, qy, qz) := q in
  (sq (px - qx) + sq (py - qy) + sq (pz - qz))%Q.

(** Modelled from the spec: the k-d tree ([getKDTree], [_getKDTree],
    [search], [get_indices]) is not part of the sources at hand.  "A
    spatial-index provider exposing build(coords) -> Index and
    Index.query(point, radius) -> indices"; "Radius comparisons are inclusive
    (<=)".  The tree is the list of its points; a search answers the
    positions of the points at a distance of at most the radius. *)
Definition KDTree_search (tree : list point) (center : point) (radius : Q) : list nat :=
  Np.nonzero (List.map (fun p => Qle_bool (dist2 p center) (sq radius)) tree).

(** *** Numbers *)

Definition Qlt_bool (a b : Q) : bool := negb (Qle_bool b a).

Definition Qmod (a b : Q) : Q := (a - b * inject_Z (Qfloor (a / b)))%Q.

Inductive operand :=
| OScalar (q : Q)
| OFloats (l : list Q)
| OInts (l : list Z).

Definition floats_of (o : operand) : list Q :=
  match o with
  | OScalar q => [q]
  | OFloats l => l
  | OInts l => List.map inject_Z l
  end.

Fixpoint sequence {A} (l : list (res A)) : res (list A) :=
  match l with
  | [] => Ok []
  | r :: l' => x <~ r ;; xs <~ sequence l' ;; Ok (x :: xs)
  end.

Definition COMPARISONS : list (string * (Q → Q → bool)) :=
  [("<", Qlt_bool); (">", fun a b => Qlt_bool b a);
   (">=", fun a b => Qle_bool b a); ("<=", Qle_bool);
   ("=", Qeq_bool); ("==", Qeq_bool); ("!=", fun a b => negb (Qeq_bool a b))].

(** The arithmetic of [BINOP_MAP] on two integers (numpy integer arrays
    under Python 2: [/] is the floor division) and on two floats.  A zero
    divisor raises for two Python floats; inside an array numpy answers
    [inf], [nan] or a warning, which the model does not represent. *)
Definition arith_Z (op : string) : option (Z → Z → res Z) :=
  if String.eqb op "+" then Some (fun a b => Ok (a + b)%Z)
  else if String.eqb op "-" then Some (fun a b => Ok (a - b)%Z)
  else if String.eqb op "*" then Some (fun a b => Ok (a * b)%Z)
  else if String.eqb op "/" then
    Some (fun a b => if (b =? 0)%Z then Raise OutsideModel else Ok (a / b)%Z)
  else if String.eqb op "%" then
    Some (fun a b => if (b =? 0)%Z then Raise OutsideModel else Ok (a mod b)%Z)
  else None.

Definition arith_Q (op : string) (on_zero : exn) : option (Q → Q → res Q) :=
  if String.eqb op "+" then Some (fun a b => Ok (a + b)%Q)
  else if String.eqb op "-" then Some (fun a b => Ok (a - b)%Q)
  else if String.eqb op "*" then Some (fun a b => Ok (a * b)%Q)
  else if String.eqb op "/" then
    Some (fun a b => if Qeq_bool b 0 then Raise on_zero else Ok (a / b)%Q)
  else if String.eqb op "%" then
    Some (fun a b => if Qeq_bool b 0 then Raise on_zero else Ok (Qmod a b))
  else None.

Definition lookup_op {A} (table : list (string * A)) (op : string) : option A :=
  option_map snd (List.find (fun p => String.eqb (fst p) op) table).

(** [BINOP_MAP[op](left, right)] on two numeric operands. *)
Definition BINOP (op : string) (left right : operand) : res value :=
  match lookup_op COMPARISONS op with
  | Some cmp =>
      match left, right with
      | OScalar a, OScalar b => Ok (VPyBool (cmp a b))
      | _, _ =>
          r <~ Np.broadcast cmp (floats_of left) (floats_of right) ;;
          Ok (VArr (BoolArr r))
      end
  | None =>
      match left, right with
      | OInts a, OInts b =>
          match arith_Z op with
          | Some f =>
              r <~ Np.broadcast f a b ;; l <~ sequence r ;; Ok (VArr (IntArr l))
          | None => Raise KeyError
          end
      | OScalar a, OScalar b =>
          match arith_Q op ZeroDivisionError with
          | Some f => q <~ f a b ;; Ok (VFloat q)
          | None => Raise KeyError
          end
      | _, _ =>
          match arith_Q op OutsideModel with
          | Some f =>
              r <~ Np.broadcast f (floats_of left) (floats_of right) ;;
              l <~ sequence r ;; Ok (VArr (FloatArr l))
          | None => Raise KeyError
          end
      end
  end.

(** *** Numeric ranges *)

(** The items [_getNumRange] returns: an [int], a [float], a list
    [[a, b]] ("a to b"), a tuple [(a, b)] or [(a, b, c)] ("a:b", "a:b:c"),
    or a string left as it is. *)
Inductive numitem :=
| NInt (z : Z)
| NFloat (q : Q)
| NTo (a b : Q)
| NSlice2 (a b : Z)
| NSlice3 (a b c : Z)
| NStr (s : string).

Fixpoint strs_of (token : list item) : res (list string) :=
  match token with
  | [] => Ok []
  | IStr s :: rest => l <~ strs_of rest ;; Ok (s :: l)
  | _ :: _ => Raise TypeError
  end.

Definition float_or (e : exn) (s : string) : res Q :=
  match Py.float s with
  | Py.FloatValue q => Ok q
  | Py.FloatNonFinite => Raise OutsideModel
  | Py.FloatValueError => Raise e
  end.

Definition int_or (e : exn) (s : string) : res Z :=
  match Py.int s with
  | Some z => Ok z
  | None => Raise e
  end.

(** One item of [tknstr.split()]; [Ok None] is the [return None] of the
    source. *)
Definition num_item (item : string) (intfloat : bool) : res (option numitem) :=
  if Py.contains "to" item then
    match Py.split_on "to" item with
    | [a; b] =>
        x <~ float_or SelectionError a ;; y <~ float_or SelectionError b ;;
        Ok (Some (NTo x y))
    | _ => Raise SelectionError
    end
  else if Py.contains ":" item then
    match Py.split_on ":" item with
    | [a; b] =>
        x <~ int_or SelectionError a ;; y <~ int_or SelectionError b ;;
        Ok (Some (NSlice2 x y))
    | [a; b; c] =>
        x <~ int_or SelectionError a ;; y <~ int_or SelectionError b ;;
        z <~ int_or SelectionError c ;;
        Ok (Some (NSlice3 x y z))
    | _ => Raise SelectionError
    end
  else
    match Py.int item with
    | Some z => Ok (Some (NInt z))
    | None =>
        match Py.float item with
        | Py.FloatValue q => Ok (Some (NFloat q))
        | Py.FloatNonFinite => Raise OutsideModel
        | Py.FloatValueError => if intfloat then Ok None else Ok (Some (NStr item))
        end
    end.

Fixpoint num_items (items : list string) (intfloat : bool) : res (option (list numitem)) :=
  match items with
  | [] => Ok (Some [])
  | item :: rest =>
      r <~ num_item item intfloat ;;
      match r with
      | None => Ok None
      | Some n =>
          rs <~ num_items rest intfloat ;;
          Ok (option_map (cons n) rs)
      end
  end.

(** [_getNumRange(token, intfloat)] for a list of tokens. *)
Definition _getNumRange (token : list item) (intfloat : bool)
  : res (option (list numitem)) :=
  strs <~ strs_of token ;;
  let s0 := Py.join " " strs in
  let s1 := Py.replace_while (String.length s0) "  " " " s0 in
  let s2 := Py.replace " to" "to" (Py.replace "to " "to" (Py.replace " to " "to" s1)) in
  let s3 := Py.replace " :" ":" (Py.replace ": " ":" (Py.replace " : " ":" s2)) in
  num_items (Py.split s3) intfloat.

(* ------------------------------------------------------------------------- *)
(** ** The evaluator: the methods of [Select] *)

Definition is_array (v : value) : bool :=
  match v with
  | VArr _ | VRef _ | VIndices => true
  | VFloat _ | VPyBool _ => false
  end.

Definition numbers_of (a : ndarray) : res (list Q) :=
  match a with
  | IntArr l => Ok (List.map inject_Z l)
  | FloatArr l => Ok l
  | _ => Raise OutsideModel
  end.

Definition strings_of (a : ndarray) : res (list string) :=
  match a with
  | StrArr l => Ok l
  | _ => Raise OutsideModel
  end.

(** [data[evalonly]] when [evalonly] is not [None]. *)
Definition restrict {A} (evalonly : option (list nat)) (data : list A) : res (list A) :=
  match evalonly with
  | None => Ok data
  | Some eo => Np.take data eo
  end.

(** The values of [_evalFloat]: the tokens that follow the keyword, or the
    array of integers [_sameas] passes. *)
Inductive values :=
| Tokens (l : list item)
| Numbers (l : list Z).

(** What [previous] holds in the loops of [_and] and [_or]: [None], one
    token, or the list of the tokens gathered since the last operator. *)
Inductive prev :=
| PNone
| POne (i : item)
| PList (l : list item).

Definition is_word (w : string) (i : item) : bool :=
  match i with
  | IStr s => String.eqb s w
  | _ => false
  end.

(** [previous = [previous, current]] for a string, [previous.append(current)]
    otherwise. *)
Definition gather (previous : prev) (current : item) : res prev :=
  match previous with
  | PNone => Ok (POne current)
  | POne (IStr s) => Ok (PList [IStr s; current])
  | POne _ => Raise AttributeError
  | PList l => Ok (PList (l ++ [current]))
  end.

(** The items of [_resnum], [_serial], [_evalFloat] and [_index]. *)

Definition in_closed (a b : Q) (d : Q) : bool := (Qle_bool a d && Qle_bool d b)%bool.
Definition in_half_open (a b : Z) (d : Q) : bool :=
  (Qle_bool (inject_Z a) d && Qlt_bool d (inject_Z b))%bool.

Fixpoint float_items (data : list Q) (numbers : list numitem) (torf : list bool)
  : res (option (list bool)) :=
  match numbers with
  | [] => Ok (Some torf)
  | NStr _ :: rest => float_items data rest torf
  | NTo a b :: rest =>
      t <~ Np.set_where torf (List.map (in_closed a b) data) ;; float_items data rest t
  | NSlice2 a b :: rest =>
      t <~ Np.set_where torf (List.map (in_half_open a b) data) ;; float_items data rest t
  | NSlice3 _ _ _ :: _ => Ok None
  | NInt z :: rest =>
      t <~ Np.set_where torf (List.map (Qeq_bool (inject_Z z)) data) ;; float_items data rest t
  | NFloat q :: rest =>
      t <~ Np.set_where torf (List.map (Qeq_bool q) data) ;; float_items data rest t
  end.

Fixpoint set_each (data : list Q) (numbers : list Z) (torf : list bool) : res (list bool) :=
  match numbers with
  | [] => Ok torf
  | i :: rest =>
      t <~ Np.set_where torf (List.map (Qeq_bool (inject_Z i)) data) ;; set_each data rest t
  end.

Fixpoint serial_items (serials : list Q) (numbers : list numitem) (torf : list bool)
  : res (list bool) :=
  match numbers with
  | [] => Ok torf
  | NTo a b :: rest =>
      t <~ Np.set_where torf (List.map (in_closed a b) serials) ;; serial_items serials rest t
  | NSlice2 a b :: rest =>
      t <~ Np.set_where torf (List.map (in_half_open a b) serials) ;;
      serial_items serials rest t
  | NSlice3 a b c :: rest =>
      r <~ Np.range a b c ;; t <~ set_each serials r torf ;; serial_items serials rest t
  | NInt z :: rest =>
      t <~ Np.set_where torf (List.map (Qeq_bool (inject_Z z)) serials) ;;
      serial_items serials rest t
  | NFloat q :: rest =>
      t <~ Np.set_where torf (List.map (Qeq_bool q) serials) ;; serial_items serials rest t
  | NStr _ :: rest => serial_items serials rest torf
  end.

(** [torf[i] = True] for a Python integer: a negative index counts from the
    end, and [IndexError] is passed over. *)
Definition set_index (torf : list bool) (i : Z) : list bool :=
  let n := Z.of_nat (length torf) in
  if ((0 <=? i)%Z && (i <? n)%Z)%bool then <[Z.to_nat i := true]> torf
  else if ((- n <=? i)%Z && (i <? 0)%Z)%bool then <[Z.to_nat (i + n) := true]> torf
  else torf.

Definition set_positions (torf : list bool) (positions : list nat) : list bool :=
  fold_left (fun t i => <[i := true]> t) positions torf.

Fixpoint index_items (numbers : list numitem) (torf : list bool) : res (list bool) :=
  match numbers with
  | [] => Ok torf
  | NSlice2 a b :: rest =>
      index_items rest (set_positions torf (Np.slice_positions (length torf) a b 1))
  | NSlice3 a b c :: rest =>
      if (c =? 0)%Z then Raise ValueError
      else if (c <? 0)%Z then Raise OutsideModel
      else index_items rest
             (set_positions torf (Np.slice_positions (length torf) a b (Z.to_nat c)))
  | NTo a b :: rest =>
      index_items rest
        (set_positions torf
           (Np.slice_positions (length torf) (Qceiling a) (Qfloor b + 1) 1))
  | NInt z :: rest => index_items rest (set_index torf z)
  | NFloat _ :: _ => Raise OutsideModel
  | NStr _ :: _ => Raise OutsideModel
  end.

(** Whether a number answers one item of a numeric range, as [_resnum]
    and [_serial] read the items. *)
Definition answers (n : numitem) (r : Q) : bool :=
  match n with
  | NInt z => Qeq_bool (inject_Z z) r
  | NFloat q => Qeq_bool q r
  | NTo a b => in_closed a b r
  | NSlice2 a b => in_half_open a b r
  | NSlice3 a b c =>
      match Np.range a b c with
      | Ok l => existsb (fun i => Qeq_bool (inject_Z i) r) l
      | Raise _ => false
      end
  | NStr _ => false
  end.

(** The items that are numbers or ranges, with a step that is not zero. *)
Definition plain_number (n : numitem) : Prop :=
  match n with
  | NStr _ => False
  | NSlice3 _ _ c => c ≠ 0%Z
  | _ => True
  end.

Definition special_keyword (keyword : string) : bool :=
  bool_decide (keyword ∈ ["secondary"; "chain"; "altloc"; "segment"; "icode"]).

(** In [_evalAlnum]: the first value ["_"] becomes [" "] and [""] is added
    at the end. *)
Fixpoint blank_underscore (vals : list item) : option (list item) :=
  match vals with
  | [] => None
  | v :: rest =>
      if is_word "_" v then Some (IStr " " :: rest)
      else option_map (cons v) (blank_underscore rest)
  end.

Definition special_values (vals : list item) : list item :=
  match blank_underscore vals with
  | Some l => l ++ [IStr EmptyString]
  | None => vals
  end.

Fixpoint the_strings (vals : list item) : list string :=
  match vals with
  | [] => []
  | IStr s :: rest => s :: the_strings rest
  | _ :: rest => the_strings rest
  end.

Fixpoint the_others (vals : list item) : list item :=
  match vals with
  | [] => []
  | IStr _ :: rest => the_others rest
  | v :: rest => v :: the_others rest
  end.

(** [for value in regexps: for i in xrange(n_atoms): torf[i] = ...]: each
    regular expression writes every entry of [torf]. *)
Fixpoint match_regexps (data : list string) (regexps : list item) (torf : list bool)
  : res (list bool) :=
  match regexps with
  | [] => Ok torf
  | IRegex r :: rest =>
      match_regexps data rest
        (match data with [] => torf | _ => List.map (re_match r) data end)
  | _ :: rest =>
      match data with
      | [] => match_regexps data rest torf
      | _ => Raise AttributeError
      end
  end.

Definition match_strings (data : list string) (strings : list string) : list bool :=
  match strings with
  | [s] => List.map (fun d => String.eqb d s) data
  | [] => Np.zeros (length data)
  | _ =>
      if Nat.ltb 4 (length strings)
      then List.map (fun d => bool_decide (d ∈ strings)) data
      else List.map (fun d => existsb (String.eqb d) strings) data
  end.

Section Evaluator.

Variable cat : Catalog.
Variable self : Select.

Definition read (l : loc) : M ndarray :=
  fun ag =>
    match l with
    | LField k =>
        match _fields ag !! k with
        | Some a => (ag, Ok a)
        | None => (ag, Raise KeyError)
        end
    | LData k =>
        match _data ag !! k with
        | Some a => (ag, Ok a)
        | None => (ag, Raise KeyError)
        end
    end.

Definition write (l : loc) (a : ndarray) : M unit :=
  fun ag =>
    match l with
    | LField k => (with_fields ag (<[k := a]> (_fields ag)), Ok tt)
    | LData k => (with_data ag (<[k := a]> (_data ag)), Ok tt)
    end.

Definition indices_array : list Z :=
  match _indices self with
  | Some idx => List.map Z.of_nat idx
  | None => []
  end.

(** The array a value stands for. *)
Definition deref (v : value) : M ndarray :=
  match v with
  | VArr a => ret a
  | VRef l => read l
  | VIndices => ret (IntArr indices_array)
  | VFloat _ | VPyBool _ => raise TypeError
  end.

Definition operand_of (v : value) : M operand :=
  match v with
  | VFloat q => ret (OScalar q)
  | VPyBool _ => raise OutsideModel
  | _ =>
      a <- deref v ;;
      match a with
      | IntArr l => ret (OInts l)
      | FloatArr l => ret (OFloats l)
      | _ => raise OutsideModel
      end
  end.

(** Modelled from the spec: [atomgroup.py] and [pointer.py] are not part
    of the sources at hand.  "An Attribute Store exposing
    getColumn(name) -> array|None, hasColumn(name) -> bool": [isData] says
    whether user data is stored under a label, [getDataType(label) == bool]
    whether that data is boolean. *)
Definition isData (label : string) : M bool :=
  fun ag => (ag, Ok (bool_decide (is_Some (_data ag !! label)))).

Definition dataIsBool (label : string) : M bool :=
  fun ag =>
    (ag, Ok (match _data ag !! label with Some (BoolArr _) => true | _ => false end)).

(** [self._atoms.getData(label)]: the public accessor gives a copy, for a
    subset the entries at its indices ([subset.py]). *)
Definition getData (label : string) : M (option ndarray) :=
  fun ag =>
    match _data ag !! label with
    | None => (ag, Ok None)
    | Some a =>
        match _indices self with
        | None => (ag, Ok (Some a))
        | Some idx => (ag, res_bind (Np.take_arr a idx) (fun r => Ok (Some r)))
        end
    end.

(** [_getData(keyword)].  The array comes from the private accessor of
    the group ([_get...()], [_getData()]); [self._data] only remembers that
    same array.  Without indices the array is returned as it is, with
    indices [data[indices]] is a new array.

    Modelled from the spec: the accessors of [AtomGroup] ([atomgroup.py])
    are not part of the sources at hand.  "AttributeStore: owns named
    arrays"; "getColumn(name) -> array|None": the private accessor hands
    out the array the group owns, as [_getIndices] and [_getCoords] do in
    [subset.py] and [atom.py], where only the public accessors are said to
    "return a copy" (and as the earlier selector did when it read
    [self._ag.__dict__] directly). *)
Definition _getData (keyword : string) : M value :=
  fun ag =>
    let l := if bool_decide (keyword ∈ ATOMIC_DATA_FIELDS)
             then LField keyword else LData keyword in
    let stored := match l with
                  | LField k => _fields ag !! k
                  | LData k => _data ag !! k
                  end in
    match stored with
    | None => (ag, Raise SelectionError)
    | Some data =>
        match _indices self with
        | None => (ag, Ok (VRef l))
        | Some idx => (ag, res_bind (Np.take_arr data idx) (fun r => Ok (VArr r)))
        end
    end.

(** [_getCoords()]: the coordinates of the atoms selected from. *)
Definition _getCoords : M (list point) :=
  fun ag =>
    match _coords ag with
    | None => (ag, Raise AttributeError)
    | Some c =>
        match _indices self with
        | None => (ag, Ok c)
        | Some idx => (ag, Np.take c idx)
        end
    end.

Definition _evalAlnum (keyword : string) (vals : list item)
    (evalonly : option (list nat)) : M (option value) :=
  let keyword := synonym keyword in
  v <- _getData keyword ;;
  a <- deref v ;;
  all <- lift (strings_of a) ;;
  let vals := if special_keyword keyword then special_values vals else vals in
  data <- lift (restrict evalonly all) ;;
  torf <- lift (match_regexps data (the_others vals)
                  (match_strings data (the_strings vals))) ;;
  ret (Some (VArr (BoolArr torf))).

Definition coordinate (keyword : string) (p : point) : Q :=
  let '(px, py, pz) := p in
  if String.eqb keyword "x" then px
  else if String.eqb keyword "y" then py else pz.

Definition _evalFloat (keyword : string) (vals : option values)
    (evalonly : option (list nat)) : M (option value) :=
  data <- (if bool_decide (keyword ∈ ["x"; "y"; "z"])
           then c <- _getCoords ;; ret (VArr (FloatArr (List.map (coordinate keyword) c)))
           else _getData keyword) ;;
  match vals with
  | None => ret (Some data)
  | Some vs =>
      a <- deref data ;;
      all <- lift (numbers_of a) ;;
      d <- lift (restrict evalonly all) ;;
      let torf := Np.zeros (length d) in
      numbers <- lift (match vs with
                       | Tokens t => _getNumRange t true
                       | Numbers l => Ok (Some (List.map NInt l))
                       end) ;;
      match numbers with
      | None => ret None
      | Some ns =>
          r <- lift (float_items d ns torf) ;;
          ret (option_map (fun t => VArr (BoolArr t)) r)
      end
  end.

Fixpoint resnum_items (resids : list Q) (evalonly : option (list nat))
    (items : list numitem) (icodes : option (list string)) (torf : list bool)
  : M (option (list bool)) :=
  match items with
  | [] => ret (Some torf)
  | NStr item :: rest =>
      ic <- match icodes with
            | Some ic => ret ic
            | None =>
                v <- _getData "icode" ;;
                a <- deref v ;;
                all <- lift (strings_of a) ;;
                lift (restrict evalonly all)
            end ;;
      match Py.last_char item with
      | None => raise IndexError
      | Some c =>
          let icode := if Ascii.eqb c "_" then EmptyString else String c EmptyString in
          match Py.int (Py.but_last item) with
          | None => ret None
          | Some number =>
              both <- lift (Np.broadcast andb
                              (List.map (Qeq_bool (inject_Z number)) resids)
                              (List.map (fun i => String.eqb i icode) ic)) ;;
              t <- lift (Np.set_where torf both) ;;
              resnum_items resids evalonly rest (Some ic) t
          end
      end
  | NTo a b :: rest =>
      t <- lift (Np.set_where torf (List.map (in_closed a b) resids)) ;;
      resnum_items resids evalonly rest icodes t
  | NSlice2 a b :: rest =>
      t <- lift (Np.set_where torf (List.map (in_half_open a b) resids)) ;;
      resnum_items resids evalonly rest icodes t
  | NSlice3 a b c :: rest =>
      r <- lift (Np.range a b c) ;;
      t <- lift (set_each resids r torf) ;;
      resnum_items resids evalonly rest icodes t
  | NInt z :: rest =>
      t <- lift (Np.set_where torf (List.map (Qeq_bool (inject_Z z)) resids)) ;;
      resnum_items resids evalonly rest icodes t
  | NFloat q :: rest =>
      t <- lift (Np.set_where torf (List.map (Qeq_bool q) resids)) ;;
      resnum_items resids evalonly rest icodes t
  end.

Definition n_selected (evalonly : option (list nat)) : nat :=
  match evalonly with
  | None => _n_atoms self
  | Some eo => length eo
  end.

Definition _resnum (token : option (list item)) (evalonly : option (list nat))
  : M (option value) :=
  match token with
  | None => v <- _getData "resnum" ;; ret (Some v)
  | Some tok =>
      v <- _getData "resnum" ;;
      a <- deref v ;;
      all <- lift (numbers_of a) ;;
      resids <- lift (restrict evalonly all) ;;
      let torf := Np.zeros (n_selected evalonly) in
      numbers <- lift (_getNumRange tok false) ;;
      match numbers with
      | None => ret None
      | Some ns =>
          r <- resnum_items resids evalonly ns None torf ;;
          ret (option_map (fun t => VArr (BoolArr t)) r)
      end
  end.

Definition _serial (token : option (list item)) (evalonly : option (list nat))
  : M (option value) :=
  match token with
  | None => v <- _getData "serial" ;; ret (Some v)
  | Some tok =>
      v <- _getData "serial" ;;
      a <- deref v ;;
      all <- lift (numbers_of a) ;;
      serials <- lift (restrict evalonly all) ;;
      let torf := Np.zeros (n_selected evalonly) in
      numbers <- lift (_getNumRange tok true) ;;
      match numbers with
      | None => ret None
      | Some ns =>
          t <- lift (serial_items serials ns torf) ;;
          ret (Some (VArr (BoolArr t)))
      end
  end.

(** [_index(token, evalonly)].  Without a token the source returns
    [self._indices or np.arange(self._ag._n_atoms)]: the truth value of an
    index array is that of its only entry, [False] for an empty array,
    and a [ValueError] for two entries or more. *)
Definition _index (token : option (list item)) (evalonly : option (list nat))
  : M (option value) :=
  ag <- get_group ;;
  match token with
  | None =>
      let arange := VArr (IntArr (List.map Z.of_nat (Np.arange (numAtoms ag)))) in
      match _indices self with
      | None => ret (Some arange)
      | Some [] => ret (Some arange)
      | Some [i] => if Nat.eqb i 0 then ret (Some arange) else ret (Some VIndices)
      | Some _ => raise ValueError
      end
  | Some tok =>
      let torf := Np.zeros (numAtoms ag) in
      numbers <- lift (_getNumRange tok true) ;;
      match numbers with
      | None => ret None
      | Some ns =>
          t <- lift (index_items ns torf) ;;
          t1 <- lift (match _indices self with
                      | None => Ok t
                      | Some idx => Np.take t idx
                      end) ;;
          t2 <- lift (restrict evalonly t1) ;;
          ret (Some (VArr (BoolArr t2)))
      end
  end.

Definition float_token (s : string) : M (option value) :=
  match Py.float s with
  | Py.FloatValue q => ret (Some (VFloat q))
  | Py.FloatNonFinite => raise OutsideModel
  | Py.FloatValueError => ret None
  end.

Definition _evalNumeric (token : item) : M (option value) :=
  match token with
  | IVal (VPyBool b) => ret (Some (VFloat (if b then 1 else 0)%Q))
  | IVal v => ret (Some v)
  | IRegex _ => raise TypeError
  | IStr s =>
      if isFloatKeyword s then _evalFloat s None None
      else if bool_decide (s ∈ ["resnum"; "resid"]) then _resnum None None
      else if String.eqb s "index" then _index None None
      else if String.eqb s "serial" then _serial None None
      else if isNumericKeyword s then v <- _getData s ;; ret (Some v)
      else
        d <- isData s ;;
        if d : bool then
          v <- _getData s ;;
          a <- deref v ;;
          match a with
          | IntArr _ | FloatArr _ => ret (Some v)
          | _ => ret None
          end
        else float_token s
  end.

Definition _evalUserdata (keyword : string) (vals : option (list item))
    (evalonly : option (list nat)) : M (option value) :=
  data <- getData keyword ;;
  match data with
  | None => raise AttributeError
  | Some a =>
      match vals with
      | None =>
          match a with
          | BoolArr m => r <- lift (restrict evalonly m) ;; ret (Some (VArr (BoolArr r)))
          | _ => ret None
          end
      | Some vs =>
          match a with
          | IntArr _ | FloatArr _ => _evalFloat keyword (Some (Tokens vs)) evalonly
          | StrArr _ => _evalAlnum keyword vs evalonly
          | BoolArr _ => ret None
          end
      end
  end.

(** [_isValid(token)] *)
Definition _isValid (token : prev) : M bool :=
  match token with
  | POne (IStr s) =>
      if isBooleanKeyword s then ret true else dataIsBool s
  | PList (IStr tkn :: _) =>
      if (isValuePairedKeyword tkn
          || bool_decide (is_Some (_kwargs self !! tkn)))%bool then ret true
      else d <- isData tkn ;; ret (d || String.eqb tkn NOT)%bool
  | _ => ret false
  end.

End Evaluator.

(** *** The boolean combinators and [_evaluate] *)

Section Combinators.

Variable cat : Catalog.
Variable self : Select.

(** The operand of [_and] and [_or] that [previous] holds, restricted to
    [evalonly]: an array is indexed, tokens are checked with [_isValid]
    and evaluated with [ev].  The model follows boolean arrays. *)
Definition operand_mask (ev : prev → option (list nat) → M (option value))
    (previous : prev) (evalonly : option (list nat)) : M (list bool) :=
  match previous with
  | POne (IVal (VArr (BoolArr m))) => lift (restrict evalonly m)
  | POne (IVal (VArr _)) | POne (IVal (VRef _)) | POne (IVal VIndices) =>
      raise OutsideModel
  | _ =>
      ok <- _isValid self previous ;;
      if ok : bool then
        r <- ev previous evalonly ;;
        match r with
        | None => raise SelectionError
        | Some (VArr (BoolArr m)) => ret m
        | Some _ => raise OutsideModel
        end
      else raise SelectionError
  end.

(** The loop of [_and] over [tokens[0]] and what follows it. *)
Fixpoint and_loop (ev : prev → option (list nat) → M (option value))
    (tokens : list item) (previous : prev) (evalonly : option (list nat))
    (selection : option (list bool)) : M (list bool) :=
  match tokens with
  | [] =>
      torf <- operand_mask ev previous evalonly ;;
      match selection with
      | None => ret torf
      | Some sel =>
          match evalonly with
          | Some eo => lift (Np.put sel eo torf)
          | None => raise TypeError
          end
      end
  | current :: rest =>
      match previous with
      | PNone => and_loop ev rest (POne current) evalonly selection
      | _ =>
          if is_word AND current then
            torf <- operand_mask ev previous evalonly ;;
            let sel := match selection with None => torf | Some s => s end in
            match evalonly with
            | None => and_loop ev rest PNone (Some (Np.nonzero sel)) (Some sel)
            | Some eo =>
                sel' <- lift (Np.put sel eo torf) ;;
                eo' <- lift (Np.compress eo torf) ;;
                and_loop ev rest PNone (Some eo') (Some sel')
            end
          else
            p <- lift (gather previous current) ;;
            and_loop ev rest p evalonly selection
      end
  end.

(** The loop of [_or] over [tokens[0]] and what follows it. *)
Fixpoint or_loop (ev : prev → option (list nat) → M (option value))
    (tokens : list item) (previous : prev) (evalonly : option (list nat))
    (selection : option (list bool)) : M (list bool) :=
  match tokens with
  | [] =>
      torf <- operand_mask ev previous evalonly ;;
      match selection, evalonly with
      | Some sel, Some eo =>
          idx <- lift (Np.compress eo torf) ;;
          lift (Np.put_const sel idx true)
      | _, _ => raise TypeError
      end
  | current :: rest =>
      match previous with
      | PNone => or_loop ev rest (POne current) evalonly selection
      | _ =>
          if is_word OR current then
            torf <- operand_mask ev previous evalonly ;;
            match selection, evalonly with
            | Some sel, Some eo =>
                idx <- lift (Np.compress eo torf) ;;
                sel' <- lift (Np.put_const sel idx true) ;;
                eo' <- lift (Np.take eo (Np.nonzero torf)) ;;
                or_loop ev rest PNone (Some eo') (Some sel')
            | _, _ =>
                or_loop ev rest PNone (Some (Np.nonzero (Np.invert torf))) (Some torf)
            end
          else
            p <- lift (gather previous current) ;;
            or_loop ev rest p evalonly selection
      end
  end.

(** [np.invert(torf, torf); return torf]: the array is negated in place,
    logically for booleans and bit by bit for integers.  For an array of
    the atom group the stored array changes. *)
Definition invert_array (a : ndarray) : res ndarray :=
  match a with
  | BoolArr m => Ok (BoolArr (Np.invert m))
  | IntArr l => Ok (IntArr (List.map Z.lnot l))
  | FloatArr _ | StrArr _ => Raise TypeError
  end.

Definition invert_in_place (torf : value) : M value :=
  match torf with
  | VArr a => r <- lift (invert_array a) ;; ret (VArr r)
  | VRef l =>
      a <- read l ;;
      r <- lift (invert_array a) ;;
      _ <- write l r ;;
      ret (VRef l)
  | VIndices => raise OutsideModel
  | VFloat _ | VPyBool _ => raise TypeError
  end.

(** [_evalBoolean(keyword, evalonly)]; [ev] is [_evaluate], which the
    [_and] of the expanded keyword calls. *)
Definition evalBoolean_with (ev : prev → option (list nat) → M (option value))
    (keyword : string) (evalonly : option (list nat)) : M (option value) :=
  let n_atoms := n_selected self evalonly in
  if String.eqb keyword "all" then ret (Some (VArr (BoolArr (Np.ones n_atoms))))
  else if String.eqb keyword "none" then ret (Some (VArr (BoolArr (Np.zeros n_atoms))))
  else
    match expandBoolean cat keyword with
    | None => raise OutsideModel
    | Some expanded =>
        torf <- and_loop ev expanded PNone None None ;;
        r <- lift (restrict evalonly torf) ;;
        ret (Some (VArr (BoolArr r)))
    end.

(** [_not(tokens, evalonly)]; [ev] is [_evaluate]. *)
Definition not_with (ev : prev → option (list nat) → M (option value))
    (tokens : list item) (evalonly : option (list nat)) : M (option value) :=
  match tokens with
  | _ :: IVal v :: rest =>
      if is_array v then r <- invert_in_place v ;; ret (Some r)
      else
        t <- ev (PList (IVal v :: rest)) evalonly ;;
        match t with
        | None => ret None
        | Some torf => r <- invert_in_place torf ;; ret (Some r)
        end
  | _ :: tkn :: rest =>
      t <- ev (PList (tkn :: rest)) evalonly ;;
      match t with
      | None => ret None
      | Some torf => r <- invert_in_place torf ;; ret (Some r)
      end
  | _ => raise IndexError
  end.

(** [_evaluate(tokens, evalonly)].  [fuel] bounds the depth of the calls
    that come back to it through [_not] and [_evalBoolean]. *)
Fixpoint _evaluate (fuel : nat) (tokens : prev) (evalonly : option (list nat))
  : M (option value) :=
  match fuel with
  | O => raise RecursionLimit
  | S fuel' =>
      match tokens with
      | PNone => raise TypeError
      | POne (IStr s) =>
          if isBooleanKeyword s then evalBoolean_with (_evaluate fuel') s evalonly
          else
            d <- isData s ;;
            if d : bool then _evalUserdata self s None evalonly else ret None
      | POne (IVal v) => ret (Some v)
      | POne (IRegex _) => raise TypeError
      | PList [] => raise IndexError
      | PList [IStr keyword] =>
          if isBooleanKeyword keyword
          then evalBoolean_with (_evaluate fuel') keyword evalonly
          else if isNumericKeyword keyword then _evalNumeric self (IStr keyword)
          else
            d <- isData keyword ;;
            if d : bool then _evalUserdata self keyword None evalonly
            else float_token keyword
      | PList (IStr keyword :: rest) =>
          if isAlnumKeyword keyword then _evalAlnum self keyword rest evalonly
          else if bool_decide (keyword ∈ ["resnum"; "resid"])
          then _resnum self (Some rest) evalonly
          else if String.eqb keyword "index" then _index self (Some rest) evalonly
          else if String.eqb keyword "serial" then _serial self (Some rest) evalonly
          else if (isFloatKeyword keyword || isIntKeyword keyword)%bool
          then _evalFloat self keyword (Some (Tokens rest)) evalonly
          else if String.eqb keyword NOT
          then not_with (_evaluate fuel') (IStr keyword :: rest) evalonly
          else
            d <- isData keyword ;;
            if d : bool then _evalUserdata self keyword (Some rest) evalonly
            else ret None
      | PList [IVal (VFloat q)] => ret (Some (VFloat q))
      | PList [IVal (VPyBool b)] => ret (Some (VFloat (if b then 1 else 0)%Q))
      | PList (IVal (VFloat _) :: _) | PList (IVal (VPyBool _) :: _) => ret None
      | PList (IVal _ :: _) => raise TypeError
      | PList [IRegex _] => raise TypeError
      | PList (IRegex _ :: _) => ret None
      end
  end.

(** The depth the model allows to the calls of [_evaluate]. *)
Definition recursion_limit : nat := 1000.

Definition evaluate (tokens : prev) (evalonly : option (list nat)) : M (option value) :=
  _evaluate recursion_limit tokens evalonly.

Definition _evalBoolean (keyword : string) (evalonly : option (list nat))
  : M (option value) :=
  evalBoolean_with evaluate keyword evalonly.

(** The parse actions [_and] and [_or] on the group [tokens[0]]. *)
Definition _and (tokens : list item) : M value :=
  m <- and_loop evaluate tokens PNone None None ;; ret (VArr (BoolArr m)).

Definition _or (tokens : list item) : M value :=
  m <- or_loop evaluate tokens PNone None None ;; ret (VArr (BoolArr m)).

Definition _not (tokens : list item) (evalonly : option (list nat)) : M (option value) :=
  not_with evaluate tokens evalonly.

End Combinators.

(** *** Distance based selection *)

(** Whether two points are at a distance of at most the radius, and
    whether a point is that near to one of the reference atoms. *)
Definition near (radius : Q) (p q : point) : bool := Qle_bool (dist2 p q) (sq radius).

Definition near_any (radius : Q) (coords : list point) (which : list nat) (c : point) : bool :=
  existsb (fun w => match coords !! w with
                    | Some cw => near radius cw c
                    | None => false
                    end) which.

(** The mask of a distance based selection, atom by atom: a reference atom
    is selected unless the reference atoms are excluded, another atom is
    selected when it is near to a reference atom. *)
Definition within_mask (coords : list point) (which : list nat) (radius : Q)
    (exclude : bool) : list bool :=
  imap (fun k c => if bool_decide (k ∈ which) then negb exclude
                   else near_any radius coords which c) coords.

(** Whether the search around atom [w] finds point [j] of the tree. *)
Definition hit (radius : Q) (tree coords : list point) (j w : nat) : bool :=
  match coords !! w, tree !! j with
  | Some c, Some p => near radius p c
  | _, _ => false
  end.



(** The sparse branch of [_within]: the tree of the atoms is searched once
    around each reference atom and the hits are marked. *)
Fixpoint sparse_hits (tree coords : list point) (radius : Q) (which : list nat)
    (torf : list bool) : res (list bool) :=
  match which with
  | [] => Ok torf
  | index :: rest =>
      match coords !! index with
      | None => Raise IndexError
      | Some center =>
          t <~ Np.put_const torf (KDTree_search tree center radius) true ;;
          sparse_hits tree coords radius rest t
      end
  end.

Definition within_sparse (n_ag : nat) (tree : list point) (indices : option (list nat))
    (coords : list point) (which : list nat) (radius : Q) (exclude : bool)
  : res (list bool) :=
  t <~ sparse_hits tree coords radius which (Np.zeros n_ag) ;;
  t1 <~ match indices with
        | None => Ok t
        | Some idx => Np.take t idx
        end ;;
  if exclude then Np.put_const t1 which false else Ok t1.

(** The dense branch: a tree of the reference atoms is searched around each
    of the other atoms. *)
Definition has_hit (tree : list point) (radius : Q) (xyz : point) : bool :=
  negb (Nat.eqb (length (KDTree_search tree xyz radius)) 0).

Definition within_dense (n_atoms : nat) (coords : list point) (which : list nat)
    (radius : Q) (exclude : bool) : res (list bool) :=
  t0 <~ Np.put_const (Np.ones n_atoms) which false ;;
  let check := Np.nonzero t0 in
  cxyz <~ Np.take coords check ;;
  reference <~ Np.take coords which ;;
  let select := Np.nonzero (List.map (has_hit reference radius) cxyz) in
  hits <~ Np.take check select ;;
  t1 <~ Np.put_const (Np.zeros n_atoms) hits true ;;
  if exclude then Ok t1 else Np.put_const t1 which true.

(** [float(tokens[0].split()[1])] under [try: ... except: return None]. *)
Definition within_radius (op : string) : res (option Q) :=
  match Py.split op with
  | _ :: r :: _ =>
      match Py.float r with
      | Py.FloatValue q => Ok (Some q)
      | Py.FloatNonFinite => Raise OutsideModel
      | Py.FloatValueError => Ok None
      end
  | _ => Ok None
  end.

Section Actions.

Variable cat : Catalog.
Variable self : Select.

(** [_within(tokens, exclude)].  [self._atoms._getKDTree()] is the tree of
    the coordinates of the atom group: the source marks its hits in an
    array of [self._ag.numAtoms()] entries and takes [torf[self._indices]]
    afterwards. *)
Definition _within (tokens : list item) (exclude : bool) : M (option value) :=
  match tokens with
  | IStr op :: operands =>
      r <- lift (within_radius op) ;;
      match r, operands with
      | None, _ => ret None
      | Some _, [] => raise IndexError
      | Some within, tkn :: rest =>
          which <- match tkn with
                   | IVal v =>
                       if is_array v then ret (Some v)
                       else evaluate cat self (PList (tkn :: rest)) None
                   | _ => evaluate cat self (PList (tkn :: rest)) None
                   end ;;
          ag <- get_group ;;
          match which with
          | None =>
              match tkn with
              | IStr name =>
                  match _kwargs self !! name with
                  | None => ret None
                  | Some coords =>
                      match _coords ag with
                      | None => raise AttributeError
                      | Some tree =>
                          t <- lift (within_sparse (numAtoms ag) tree (_indices self)
                                       coords (Np.arange (length coords)) within false) ;;
                          ret (Some (VArr (BoolArr t)))
                      end
                  end
              | _ => ret None
              end
          | Some (VArr (BoolArr m)) =>
              let which := Np.nonzero m in
              coords <- _getCoords self ;;
              if Nat.ltb (length which) 20 then
                match _coords ag with
                | None => raise AttributeError
                | Some tree =>
                    t <- lift (within_sparse (numAtoms ag) tree (_indices self)
                                 coords which within exclude) ;;
                    ret (Some (VArr (BoolArr t)))
                end
              else
                t <- lift (within_dense (_n_atoms self) coords which within exclude) ;;
                ret (Some (VArr (BoolArr t)))
          | Some _ => ret None
          end
      end
  | _ => ret None
  end.

(** [_sameas(token)].  [getHierView()] belongs to the hierarchical view
    builder; the columns [resindex], [chindex] and [segindex] it fills are
    read from the atom group. *)
Definition _sameas (tokens : list item) : M (option value) :=
  match tokens with
  | IStr op :: operands =>
      match Py.split op, operands with
      | _ :: what :: _, tkn :: rest =>
          which <- match tkn with
                   | IVal v =>
                       if is_array v then ret (Some v)
                       else evaluate cat self (PList (tkn :: rest)) None
                   | _ => evaluate cat self (PList (tkn :: rest)) None
                   end ;;
          match which with
          | Some w =>
              if is_array w then
                let key := if String.eqb what "residue" then Some "resindex"
                           else if String.eqb what "chain" then Some "chindex"
                           else if String.eqb what "segment" then Some "segindex"
                           else None in
                match key with
                | None => raise SelectionError
                | Some k =>
                    v <- _getData self k ;;
                    a <- deref self v ;;
                    match a, w with
                    | IntArr l, VArr (BoolArr m) =>
                        picked <- lift (Np.compress l m) ;;
                        _evalFloat self k (Some (Numbers (Np.unique picked))) None
                    | _, _ => raise OutsideModel
                    end
                end
              else ret None
          | None => ret None
          end
      | _, _ => raise IndexError
      end
  | [] => raise IndexError
  | _ => raise AttributeError
  end.

(** [_unary(selstr, location, tokens)] *)
Definition _unary (tokens : list item) : M value :=
  match tokens with
  | IStr op :: _ =>
      r <- (if String.eqb op NOT then _not cat self tokens None
            else if Py.startswith "same" op then _sameas tokens
            else _within tokens (Py.startswith "exwithin" op)) ;;
      match r with
      | None => raise SelectionError
      | Some v => ret v
      end
  | [] => raise IndexError
  | _ => raise AttributeError
  end.

Definition in_BINOP_MAP (op : string) : bool :=
  bool_decide (op ∈ ["+"; "-"; "*"; "/"; "%"; ">"; "<"; ">="; "<="; "="; "=="; "!="]).

(** [BINOP_MAP[op](left, right)] for a token [op]. *)
Definition apply_BINOP (op : item) (left right : value) : M value :=
  match op with
  | IStr o =>
      if in_BINOP_MAP o then
        l <- operand_of self left ;;
        r <- operand_of self right ;;
        lift (BINOP o l r)
      else raise KeyError
  | IRegex _ => raise KeyError
  | IVal v => if is_array v then raise TypeError else raise KeyError
  end.

(** [result *= ...] on the outcomes of two comparisons. *)
Definition times (result c : value) : res value :=
  match result, c with
  | VArr (BoolArr a), VArr (BoolArr b) =>
      match b with
      | [y] => Ok (VArr (BoolArr (List.map (fun x => x && y)%bool a)))
      | _ => r <~ Np.zip_same andb a b ;; Ok (VArr (BoolArr r))
      end
  | VArr (BoolArr a), VPyBool y => Ok (VArr (BoolArr (List.map (fun x => x && y)%bool a)))
  | VPyBool x, VArr (BoolArr b) => Ok (VArr (BoolArr (List.map (andb x) b)))
  | VPyBool x, VPyBool y => Ok (VPyBool (x && y))
  | _, _ => Raise OutsideModel
  end.

Definition numeric (token : item) : M value :=
  r <- _evalNumeric self token ;;
  match r with
  | None => raise SelectionError
  | Some v => ret v
  end.

Fixpoint comp_loop (rest : list item) (left : value) (result : option value)
  : M (option value) :=
  match rest with
  | [] => ret result
  | [_] => raise IndexError
  | comp :: tkn :: rest' =>
      right <- numeric tkn ;;
      c <- apply_BINOP comp left right ;;
      r <- match result with
           | None => ret c
           | Some r0 => lift (times r0 c)
           end ;;
      comp_loop rest' right (Some r)
  end.

(** [_comp(selstr, location, tokens)] *)
Definition _comp (tokens : list item) : M (option value) :=
  let n := length tokens in
  if (Nat.leb 3 n && negb (Nat.eqb (n mod 2) 1))%bool then raise SelectionError
  else
    match tokens with
    | [] => raise IndexError
    | tkn :: rest => left <- numeric tkn ;; comp_loop rest left None
    end.

(** [right == 0.0] where an [if] takes its truth value. *)
Definition equals_zero (right : value) : M bool :=
  match right with
  | VFloat q => ret (Qeq_bool q 0)
  | _ =>
      o <- operand_of self right ;;
      match floats_of o with
      | [] => ret false
      | [x] => ret (Qeq_bool x 0)
      | _ => raise ValueError
      end
  end.

Fixpoint mul_loop (rest : list item) (left : value) : M value :=
  match rest with
  | [] => ret left
  | [_] => raise IndexError
  | op :: tkn :: rest' =>
      right <- numeric tkn ;;
      zero <- (if is_word "/" op then equals_zero right else ret false) ;;
      if zero : bool then raise SelectionError
      else
        l <- apply_BINOP op left right ;;
        mul_loop rest' l
  end.

(** [_mul(selstr, location, tokens)] *)
Definition _mul (tokens : list item) : M value :=
  match tokens with
  | [] => raise IndexError
  | tkn :: rest => left <- numeric tkn ;; mul_loop rest left
  end.

Fixpoint add_loop (rest : list item) (left : value) : M value :=
  match rest with
  | [] => ret left
  | [_] => raise IndexError
  | op :: tkn :: rest' =>
      right <- numeric tkn ;;
      l <- apply_BINOP op left right ;;
      add_loop rest' l
  end.

(** [_add(selstr, location, tokens)] *)
Definition _add (tokens : list item) : M value :=
  match tokens with
  | [] => raise IndexError
  | tkn :: rest => left <- numeric tkn ;; add_loop rest left
  end.

(** [_sign(selstr, location, tokens)] *)
Definition _sign (tokens : list item) : M value :=
  match tokens with
  | op :: tkn :: _ =>
      token <- numeric tkn ;;
      if is_word "-" op then
        o <- operand_of self token ;;
        match o with
        | OScalar q => ret (VFloat (- q)%Q)
        | OFloats l => ret (VArr (FloatArr (List.map Qopp l)))
        | OInts l => ret (VArr (IntArr (List.map Z.opp l)))
        end
      else ret token
  | _ => raise IndexError
  end.

(** [_defaultAction(tokens)] *)
Definition _defaultAction (tokens : list item) : M value :=
  match tokens with
  | [] => raise IndexError
  | IVal v :: _ =>
      if is_array v then ret v
      else
        r <- evaluate cat self (PList tokens) None ;;
        match r with
        | None => raise SelectionError
        | Some torf => ret torf
        end
  | _ =>
      r <- evaluate cat self (PList tokens) None ;;
      match r with
      | None => raise SelectionError
      | Some torf => ret torf
      end
  end.

End Actions.

(** *** Parse trees and [getBoolArray] *)

(** The tree [operatorPrecedence] builds for a selection string, without
    the function and power levels (numpy functions and real powers are not
    represented over the rationals).  The operands of one level are parsed
    from left to right; the tokens of an operand that is a run of words
    stay in the group of the operator, an operand with an operator of its
    own is replaced by the value its parse action returned. *)
#[warnings="-register-all"]
Inductive expr :=
| Words (ws : list item)
| Paren (e : expr)
| Sign (op : string) (e : expr)
| Mul (e : expr) (op : string) (e' : expr) (more : list (string * expr))
| Add (e : expr) (op : string) (e' : expr) (more : list (string * expr))
| Comp (e : expr) (op : string) (e' : expr) (more : list (string * expr))
| Unary (op : string) (e : expr)
| And (e e' : expr) (more : list expr)
| Or (e e' : expr) (more : list expr).

(** A selection string and the tree parsed from the string
    [_prepareSelstr] makes of it ([None]: [pyparsing] raises
    [ParseException]). *)
Record query := {
  selstr : string;
  parsed : option expr
}.

Section Parsing.

Variable cat : Catalog.
Variable self : Select.

Definition one (v : M value) : M (list item) := x <- v ;; ret [IVal x].

Fixpoint parse_actions (e : expr) : M (list item) :=
  let operands :=
    fix operands (l : list (string * expr)) : M (list item) :=
      match l with
      | [] => ret []
      | (op, e') :: l' =>
          t <- parse_actions e' ;;
          r <- operands l' ;;
          ret (IStr op :: t ++ r)
      end in
  let conjuncts :=
    fix conjuncts (op : string) (l : list expr) : M (list item) :=
      match l with
      | [] => ret []
      | e' :: l' =>
          t <- parse_actions e' ;;
          r <- conjuncts op l' ;;
          ret (IStr op :: t ++ r)
      end in
  match e with
  | Words ws => ret ws
  | Paren e1 => t <- parse_actions e1 ;; one (_defaultAction cat self t)
  | Sign op e1 => t <- parse_actions e1 ;; one (_sign self (IStr op :: t))
  | Mul e1 op e2 more =>
      t1 <- parse_actions e1 ;;
      t2 <- parse_actions e2 ;;
      r <- operands more ;;
      one (_mul self (t1 ++ IStr op :: t2 ++ r))
  | Add e1 op e2 more =>
      t1 <- parse_actions e1 ;;
      t2 <- parse_actions e2 ;;
      r <- operands more ;;
      one (_add self (t1 ++ IStr op :: t2 ++ r))
  | Comp e1 op e2 more =>
      t1 <- parse_actions e1 ;;
      t2 <- parse_actions e2 ;;
      r <- operands more ;;
      v <- _comp self (t1 ++ IStr op :: t2 ++ r) ;;
      match v with
      | Some x => ret [IVal x]
      | None => raise OutsideModel
      end
  | Unary op e1 => t <- parse_actions e1 ;; one (_unary cat self (IStr op :: t))
  | And e1 e2 more =>
      t1 <- parse_actions e1 ;;
      t2 <- parse_actions e2 ;;
      r <- conjuncts AND more ;;
      one (_and cat self (t1 ++ IStr AND :: t2 ++ r))
  | Or e1 e2 more =>
      t1 <- parse_actions e1 ;;
      t2 <- parse_actions e2 ;;
      r <- conjuncts OR more ;;
      one (_or cat self (t1 ++ IStr OR :: t2 ++ r))
  end.

(** [_evalSelstr()] *)
Definition _evalSelstr (q : query) : M (option value) :=
  let s := Py.strip (selstr q) in
  if (Nat.eqb (length (Py.split s)) 1 && negb (Py.contains "(" s)
      && negb (Py.contains ")" s) && negb (isMacro cat s))%bool
  then
    if isBooleanKeyword s then _evalBoolean cat self s None
    else
      d <- isData s ;;
      if d : bool then _evalUserdata self s None None
      else raise SelectionError
  else
    match parsed q with
    | None => raise SelectionError
    | Some e =>
        t <- parse_actions e ;;
        v <- _defaultAction cat self t ;;
        ret (Some v)
    end.

End Parsing.

(** How [getBoolArray] sets the fields of the selector: [atoms] is [None]
    for an [AtomGroup] and the indices of the atoms otherwise. *)
Definition selector (ag : AtomGroup) (atoms : option (list nat))
    (kwargs : gmap string (list point)) : Select :=
  {| _indices := atoms;
     _n_atoms := match atoms with
                 | None => numAtoms ag
                 | Some idx => length idx
                 end;
     _kwargs := kwargs |}.

(** [getBoolArray(atoms, selstr, **kwargs)] *)
Definition getBoolArray (cat : Catalog) (atoms : option (list nat))
    (kwargs : gmap string (list point)) (q : query) : M (list bool) :=
  ag <- get_group ;;
  torf <- _evalSelstr cat (selector ag atoms kwargs) q ;;
  match torf with
  | Some (VArr (BoolArr m)) => ret m
  | _ => raise SelectionError
  end.

(** [getIndices(atoms, selstr, **kwargs)] *)
Definition getIndices (cat : Catalog) (atoms : option (list nat))
    (kwargs : gmap string (list point)) (q : query) : M (list nat) :=
  torf <- getBoolArray cat atoms kwargs q ;;
  ret (Np.nonzero torf).

(** [select(atoms, selstr, **kwargs)]: the indices of the [Selection] it
    returns ([unique=True]: the constructor keeps them as they are), [None]
    when no atom matches.  The selection string it gives the [Selection]
    and the case of an [AtomMap] are left out. *)
Definition select (cat : Catalog) (atoms : option (list nat))
    (kwargs : gmap string (list point)) (q : query) : M (option (list nat)) :=
  found <- getIndices cat atoms kwargs q ;;
  indices <- lift (match atoms with
                   | None => Ok found
                   | Some idx => Np.take idx found
                   end) ;;
  ret (if Nat.eqb (length indices) 0 then None else Some indices).

(** The number of atoms of the collection selected from. *)
Definition atomCount (ag : AtomGroup) (atoms : option (list nat)) : nat :=
  match atoms with
  | None => numAtoms ag
  | Some idx => length idx
  end.

(* ------------------------------------------------------------------------- *)
(** ** The earlier selector, [prody/select.py] *)

Module Legacy.

Section Mul.

(** [_getnum(token)]: the number or the array a token stands for. *)
Variable _getnum : item → res operand.

(** [right == 0.0] where an [if] takes its truth value. *)
Definition equals_zero (right : operand) : res bool :=
  match right with
  | OScalar q => Ok (Qeq_bool q 0)
  | _ =>
      match floats_of right with
      | [] => Ok false
      | [x] => Ok (Qeq_bool x 0)
      | _ => Raise ValueError
      end
  end.

(** [_mul(token)] of the earlier module: the first operator of the
    group and its two operands. *)
Definition _mul (items : list item) : res value :=
  match items with
  | [] => Raise IndexError
  | t0 :: rest =>
      left <~ _getnum t0 ;;
      match rest with
      | op :: t2 :: _ =>
          right <~ _getnum t2 ;;
          if is_word "*" op then BINOP "*" left right
          else if is_word "/" op then
            zero <~ equals_zero right ;;
            if zero : bool then Raise ZeroDivisionError else BINOP "/" left right
          else BINOP "%" left right
      | _ => Raise IndexError
      end
  end.

End Mul.

Section Or.

(** [self._evaluate(token)] for a token that is not an array: it reads
    [self._evalonly], and a nested [_and] or [_or] sets it to [None] again;
    the function answers the mask and the [_evalonly] it leaves. *)
Variable _evaluate : list item → option (list nat)
                     → res (list bool * option (list nat)).
Variable _n_atoms : nat.

(** The [while temp:] loop: the tokens between two separators. *)
Fixpoint tokenlist_of (sep : string) (temp token : list item) : list (list item) :=
  match temp with
  | [] => [token]
  | tkn :: temp' =>
      if is_word sep tkn then token :: tokenlist_of sep temp' []
      else tokenlist_of sep temp' (token ++ [tkn])
  end.

(** One round of [for token in tokenlist:] in [_or]. *)
Definition or_step (evalonly : option (list nat)) (token : list item)
  : res (option (list nat)) :=
  match token with
  | [] => Raise IndexError
  | IVal (VArr (BoolArr zero)) :: _ =>
      match evalonly with
      | None => Ok (Some (Np.nonzero (Np.invert zero)))
      | Some eo =>
          z <~ Np.take zero eo ;;
          r <~ Np.take eo (Np.nonzero (Np.invert z)) ;;
          Ok (Some r)
      end
  | IVal _ :: _ => Raise OutsideModel
  | _ =>
      r <~ _evaluate token evalonly ;;
      let '(torf, evalonly') := r in
      match evalonly' with
      | None => Ok (Some (Np.nonzero (Np.invert torf)))
      | Some eo => r <~ Np.compress eo (Np.invert torf) ;; Ok (Some r)
      end
  end.

Fixpoint or_rounds (tokenlist : list (list item)) (evalonly : option (list nat))
  : res (option (list nat)) :=
  match tokenlist with
  | [] => Ok evalonly
  | token :: rest => eo <~ or_step evalonly token ;; or_rounds rest eo
  end.

(** [_or(tokens)] of the earlier module, entered with [self._evalonly]
    at [None]. *)
Definition _or (tokens : list item) : res (list bool) :=
  eo <~ or_rounds (tokenlist_of OR tokens []) None ;;
  match eo with
  | Some eo => Np.put_const (Np.ones _n_atoms) eo false
  | None => Raise TypeError
  end.

End Or.

End Legacy.

(* ------------------------------------------------------------------------- *)
(** ** Atom groups and selection strings used below *)

Module Examples.

Definition words (l : list string) : expr := Words (List.map IStr l).

(** Three atoms named A, B and C, in residues ASP 5, GLU 12 and LYS 15. *)
Definition three_atoms : AtomGroup :=
  {| numAtoms := 3;
     _fields := list_to_map
                  [("name", StrArr ["A"; "B"; "C"]);
                   ("resname", StrArr ["ASP"; "GLU"; "LYS"]);
                   ("resnum", IntArr [5; 12; 15]%Z)];
     _data := ∅;
     _coords := Some [(0, 0, 0)%Q; (3, 0, 0)%Q; (10, 0, 0)%Q] |}.

(** "index < 5" *)
Definition index_below_5 : query :=
  {| selstr := "index < 5";
     parsed := Some (Comp (words ["index"]) "<" (words ["5"]) []) |}.

Definition name_is (n : string) : query :=
  {| selstr := "name " +:+ n; parsed := Some (words ["name"; n]) |}.

(** "name A or name B or name C" *)
Definition A_or_B_or_C : query :=
  {| selstr := "name A or name B or name C";
     parsed := Some (Or (words ["name"; "A"]) (words ["name"; "B"])
                        [words ["name"; "C"]]) |}.

(** "name A or name C" and "name A B and resname ASP GLU and resnum 12" *)
Definition A_or_C : query :=
  {| selstr := "name A or name C";
     parsed := Some (Or (words ["name"; "A"]) (words ["name"; "C"]) []) |}.

Definition three_conjuncts : query :=
  {| selstr := "name A B and resname ASP GLU and resnum 12";
     parsed := Some (And (words ["name"; "A"; "B"]) (words ["resname"; "ASP"; "GLU"])
                       [words ["resnum"; "12"]]) |}.

(** "resnum 5 10 to 15", "resnum 10:15" and "resnum 1:10:2" *)
Definition resnum_5_10_to_15 : query :=
  {| selstr := "resnum 5 10 to 15";
     parsed := Some (words ["resnum"; "5"; "10"; "to"; "15"]) |}.

Definition resnum_10_15 : query :=
  {| selstr := "resnum 10:15"; parsed := Some (words ["resnum"; "10:15"]) |}.

Definition resnum_1_10_2 : query :=
  {| selstr := "resnum 1:10:2"; parsed := Some (words ["resnum"; "1:10:2"]) |}.

(** "resnum 10.5:15" *)
Definition resnum_10_5_15 : query :=
  {| selstr := "resnum 10.5:15"; parsed := Some (words ["resnum"; "10.5:15"]) |}.

(** "(not resnum) < 0" *)
Definition not_resnum_below_0 : query :=
  {| selstr := "(not resnum) < 0";
     parsed := Some (Comp (Paren (Unary NOT (words ["resnum"]))) "<" (words ["0"]) []) |}.

(** "within 5 of name A" and "exwithin 5 of name A" *)
Definition within_5_of_A : query :=
  {| selstr := "within 5 of name A";
     parsed := Some (Unary "within 5 of" (words ["name"; "A"])) |}.

Definition exwithin_5_of_A : query :=
  {| selstr := "exwithin 5 of name A";
     parsed := Some (Unary "exwithin 5 of" (words ["name"; "A"])) |}.

(** "charged" *)
Definition charged : query := {| selstr := "charged"; parsed := None |}.

(** "resnum / 0 < 1" *)
Definition resnum_by_zero : query :=
  {| selstr := "resnum / 0 < 1";
     parsed := Some (Comp (Mul (words ["resnum"]) "/" (words ["0"]) []) "<"
                       (words ["1"]) []) |}.

Definition whole_group : Select := selector three_atoms None ∅.

(** A reference atom group on which "name CB and protein" selects and
    "name" raises [SelectionError]. *)
Definition reference_select (selstr : string) : res unit :=
  if String.eqb selstr "name CB and protein" then Ok tt else Raise SelectionError.

End Examples.

(** ** Operands that are masks already *)

(** A nested expression reaches [_and] and [_or] as the mask its own parse
    action returned. *)
Definition mask_item (m : list bool) : item := IVal (VArr (BoolArr m)).

(** The tokens of [first op m1 op m2 ...] for such operands. *)
Fixpoint chain (op : string) (first : list bool) (others : list (list bool)) : list item :=
  match others with
  | [] => [mask_item first]
  | m :: others' => mask_item first :: IStr op :: chain op m others'
  end.

(** The entries of [m] at the positions where [sel] holds: [m[sel.nonzero()[0]]]. *)
Fixpoint pick {A} (sel : list bool) (m : list A) : list A :=
  match sel, m with
  | b :: sel', x :: m' => if b then x :: pick sel' m' else pick sel' m'
  | _, _ => []
  end.

(* ------------------------------------------------------------------------- *)
(** * Properties *)

(** ** Arrays *)

Section ArrayFacts.

Lemma nonzero_from_elem (m : list bool) (i j : nat) :
  j ∈ Np.nonzero_from i m ↔ ∃ k, j = i + k ∧ m !! k = Some true.
Proof.
  revert i. induction m as [|b m IH]; intros i; simpl.
  - split; [intros H; inversion H | intros (k & _ & H); discriminate].
  - destruct b.
    + rewrite elem_of_cons, IH. split.
      * intros [-> | (k & -> & Hk)].
        -- exists 0. split; [lia | done].
        -- exists (S k). split; [lia | done].
      * intros (k & -> & Hk). destruct k as [|k].
        -- left. lia.
        -- right. exists k. split; [lia | done].
    + rewrite IH. split.
      * intros (k & -> & Hk). exists (S k). split; [lia | done].
      * intros (k & -> & Hk). destruct k as [|k]; [discriminate |].
        exists k. split; [lia | done].
Qed.

Lemma nonzero_elem (m : list bool) (j : nat) :
  j ∈ Np.nonzero m ↔ m !! j = Some true.
Proof.
  unfold Np.nonzero. rewrite nonzero_from_elem. split.
  - intros (k & -> & Hk). done.
  - intros H. exists j. done.
Qed.

Lemma nonzero_from_sorted (m : list bool) (i : nat) :
  StronglySorted lt (Np.nonzero_from i m).
Proof.
  revert i. induction m as [|b m IH]; intros i; simpl; [constructor |].
  destruct b; [| apply IH].
  constructor; [apply IH |].
  apply Forall_forall. intros j Hj.
  apply nonzero_from_elem in Hj as (k & -> & _). lia.
Qed.

Lemma nonzero_sorted (m : list bool) : StronglySorted lt (Np.nonzero m).
Proof. apply nonzero_from_sorted. Qed.

Lemma sorted_lt_NoDup (l : list nat) : StronglySorted lt l → NoDup l.
Proof.
  induction 1 as [|x l Hl IH Hx]; constructor; [| done].
  intros Hin. rewrite Forall_forall in Hx. specialize (Hx x Hin). lia.
Qed.

Lemma nonzero_bound (m : list bool) (j : nat) : j ∈ Np.nonzero m → j < length m.
Proof. rewrite nonzero_elem. apply lookup_lt_Some. Qed.

End ArrayFacts.

Section MoreArrayFacts.
Context {A B : Type}.

Lemma lookup_map (f : A → B) (l : list A) (i : nat) :
  List.map f l !! i = f <$> l !! i.
Proof. revert i. induction l as [|x l IH]; intros [|i]; simpl; auto. Qed.

Lemma put_const_spec (idx : list nat) (v : A) :
  ∀ a : list A,
    Forall (fun i => i < length a)%nat idx →
    Np.put_const a idx v
    = Ok (imap (fun j x => if bool_decide (j ∈ idx) then v else x) a).
Proof.
  induction idx as [|i idx IH]; intros a Hidx.
  - cbn [Np.put_const]. f_equal. apply list_eq. intros j. rewrite list_lookup_imap.
    destruct (a !! j); [| done]. cbn [fmap option_fmap option_map].
    rewrite bool_decide_eq_false_2; [done | apply not_elem_of_nil].
  - inversion Hidx as [|? ? Hi Hrest]; subst. cbn [Np.put_const].
    rewrite decide_True by done.
    rewrite IH by (rewrite length_insert; done).
    f_equal. apply list_eq. intros j. rewrite !list_lookup_imap.
    destruct (decide (j = i)) as [-> | Hne].
    + rewrite list_lookup_insert_eq by done.
      destruct (a !! i) eqn:E; cbn [fmap option_fmap option_map].
      * rewrite (bool_decide_eq_true_2 (i ∈ i :: idx)) by left.
        by destruct (bool_decide (i ∈ idx)).
      * apply lookup_ge_None in E. lia.
    + rewrite list_lookup_insert_ne by done.
      destruct (a !! j); [| done]. cbn [fmap option_fmap option_map].
      f_equal. destruct (decide (j ∈ idx)) as [Hin | Hnin].
      * rewrite !bool_decide_eq_true_2; [done | by right | done].
      * rewrite !bool_decide_eq_false_2; [done | | done].
        rewrite elem_of_cons. tauto.
Qed.

Lemma take_spec (a : list A) (idx : list nat) :
  Forall (fun i => i < length a)%nat idx →
  ∃ r, Np.take a idx = Ok r ∧ length r = length idx
       ∧ ∀ k i, idx !! k = Some i → r !! k = a !! i.
Proof.
  induction idx as [|i idx IH]; intros Hidx.
  - exists []. repeat split. intros k i H. discriminate.
  - inversion Hidx as [|? ? Hi Hrest]; subst.
    destruct (IH Hrest) as (r & Hr & Hlen & Hlook).
    destruct (lookup_lt_is_Some_2 a i Hi) as [x Hx].
    exists (x :: r). simpl. rewrite Hx, Hr. simpl. repeat split.
    + by rewrite Hlen.
    + intros [|k] j H; simpl in *.
      * injection H as <-. done.
      * by apply Hlook.
Qed.

End MoreArrayFacts.

(** ** Extraction of the indices *)

(** C10.  Whenever [getBoolArray] returns a mask, [getIndices] returns the
    positions at which the mask holds [True], and only those; the positions
    are strictly increasing, hence without repetition, and there is none
    exactly when no atom matches. *)
Theorem getIndices_are_the_true_positions
    (cat : Catalog) (atoms : option (list nat)) (kwargs : gmap string (list point))
    (q : query) (ag ag' : AtomGroup) (m : list bool) :
  getBoolArray cat atoms kwargs q ag = (ag', Ok m) →
  ∃ idx : list nat,
    getIndices cat atoms kwargs q ag = (ag', Ok idx)
    ∧ (∀ i, i ∈ idx ↔ m !! i = Some true)
    ∧ StronglySorted lt idx
    ∧ NoDup idx
    ∧ (idx = [] ↔ ∀ i, m !! i ≠ Some true).
Proof.
  intros Hm. exists (Np.nonzero m). split; [| split; [| split; [| split]]].
  - unfold getIndices, bind. rewrite Hm. reflexivity.
  - intros i. apply nonzero_elem.
  - apply nonzero_sorted.
  - apply sorted_lt_NoDup, nonzero_sorted.
  - split.
    + intros He i Hi. apply nonzero_elem in Hi. rewrite He in Hi. inversion Hi.
    + intros Hnone. destruct (Np.nonzero m) as [|j l] eqn:E; [done |].
      exfalso. apply (Hnone j). apply nonzero_elem. rewrite E. left.
Qed.

Lemma getIndices_are_the_true_positions_witness :
  ∃ idx : list nat,
    getIndices initial_catalog None ∅ (Examples.name_is "B") Examples.three_atoms
      = (Examples.three_atoms, Ok idx)
    ∧ (∀ i, i ∈ idx ↔ [false; true; false] !! i = Some true)
    ∧ StronglySorted lt idx
    ∧ NoDup idx
    ∧ (idx = [] ↔ ∀ i, [false; true; false] !! i ≠ Some true).
Proof.
  apply (getIndices_are_the_true_positions initial_catalog None ∅
           (Examples.name_is "B") Examples.three_atoms Examples.three_atoms).
  vm_compute. reflexivity.
Defined.

(** ** The length of the mask *)

(** C1.  The atom at index 0 of a group of three atoms, selected from with
    "index < 5": [getBoolArray] returns a mask of three entries, while the
    collection it selects from holds one atom.  ([_index] answers
    [self._indices or np.arange(...)], and the index array [[0]] counts as
    false.) *)
Theorem mask_of_index_comparison_has_the_length_of_the_group :
  getBoolArray initial_catalog (Some [0]) ∅ Examples.index_below_5 Examples.three_atoms
    = (Examples.three_atoms, Ok [true; true; true])
  ∧ atomCount Examples.three_atoms (Some [0]) = 1
  ∧ length [true; true; true] ≠ atomCount Examples.three_atoms (Some [0]).
Proof. split; [vm_compute; reflexivity | split; [reflexivity | simpl; lia]]. Qed.

(** ** The boolean combinators *)

(** C2.  "name A or name B or name C" on atoms named A, B and C selects A
    and B only, although each of the three operands selects its atom: after
    the second operand [_or] keeps in [evalonly] the atoms that operand
    selected ([evalonly[torf.nonzero()[0]]]) and not the atoms still to be
    decided, so a third operand is only asked about atoms already taken. *)
Theorem or_of_three_operands_ignores_the_third :
  let mask q := snd (getBoolArray initial_catalog None ∅ q Examples.three_atoms) in
  mask (Examples.name_is "A") = Ok [true; false; false]
  ∧ mask (Examples.name_is "B") = Ok [false; true; false]
  ∧ mask (Examples.name_is "C") = Ok [false; false; true]
  ∧ mask Examples.A_or_B_or_C = Ok [true; true; false].
Proof. repeat split; vm_compute; reflexivity. Qed.

(** On the same atoms "or" of two operands and "and" of three give the
    element-wise combination of the masks of their operands. *)
Lemma two_disjuncts_and_three_conjuncts :
  let mask q := snd (getBoolArray initial_catalog None ∅ q Examples.three_atoms) in
  mask Examples.A_or_C = Ok [true; false; true]
  ∧ mask Examples.three_conjuncts = Ok [false; true; false].
Proof. split; vm_compute; reflexivity. Qed.

(** *** Operands that are masks *)

(** Indexing, writing back and narrowing with [sel.nonzero()[0]], as the
    loop of [_and] does for a mask operand [m]. *)
Lemma take_pick {A} (sel : list bool) :
  ∀ (pre m : list A), length sel = length m →
    Np.take (pre ++ m) (Np.nonzero_from (length pre) sel) = Ok (pick sel m).
Proof.
  induction sel as [|b sel IH]; intros pre [|x m] Hlen; try discriminate; [done |].
  injection Hlen as Hlen.
  assert (Hstep : Np.take (pre ++ x :: m) (Np.nonzero_from (S (length pre)) sel)
                  = Ok (pick sel m)).
  { replace (pre ++ x :: m) with ((pre ++ [x]) ++ m) by (by rewrite <- app_assoc).
    replace (S (length pre)) with (length (pre ++ [x])) by (rewrite length_app; simpl; lia).
    by apply IH. }
  destruct b; cbn [Np.nonzero_from pick Np.take]; [| done].
  rewrite list_lookup_middle by done. by rewrite Hstep.
Qed.

Lemma put_each_pick (sel : list bool) :
  ∀ (pre m : list bool), length sel = length m →
    Np.put_each (pre ++ sel) (Np.nonzero_from (length pre) sel) (pick sel m)
    = Ok (pre ++ zip_with andb sel m).
Proof.
  induction sel as [|b sel IH]; intros pre [|x m] Hlen; try discriminate; [done |].
  injection Hlen as Hlen.
  destruct b; cbn [Np.nonzero_from pick Np.put_each zip_with].
  - rewrite decide_True by (rewrite length_app; simpl; lia).
    replace (<[length pre := x]> (pre ++ true :: sel)) with ((pre ++ [x]) ++ sel).
    2:{ rewrite insert_app_r_alt by lia. rewrite Nat.sub_diag. simpl.
        by rewrite <- app_assoc. }
    replace (S (length pre)) with (length (pre ++ [x])) by (rewrite length_app; simpl; lia).
    rewrite IH by done. by rewrite <- app_assoc.
  - replace (pre ++ false :: sel) with ((pre ++ [false]) ++ sel) by (by rewrite <- app_assoc).
    replace (S (length pre)) with (length (pre ++ [false])) by (rewrite length_app; simpl; lia).
    rewrite IH by done. by rewrite <- app_assoc.
Qed.

Lemma compress_pick (sel : list bool) :
  ∀ (k : nat) (m : list bool), length sel = length m →
    Np.compress (Np.nonzero_from k sel) (pick sel m)
    = Ok (Np.nonzero_from k (zip_with andb sel m)).
Proof.
  induction sel as [|b sel IH]; intros k [|x m] Hlen; try discriminate; [done |].
  injection Hlen as Hlen.
  destruct b; cbn [Np.nonzero_from pick Np.compress zip_with andb].
  - rewrite IH by done. by destruct x.
  - by apply IH.
Qed.

Lemma length_pick {A} (sel : list bool) (m : list A) :
  length sel = length m → length (pick sel m) = length (Np.nonzero sel).
Proof.
  unfold Np.nonzero. generalize 0. revert m.
  induction sel as [|b sel IH]; intros [|x m] k Hlen; try discriminate; [done |].
  injection Hlen as Hlen. destruct b; simpl; auto.
Qed.

(** [a[idx] = vals] with as many values as indices. *)
Lemma put_matching {A} (a : list A) (idx : list nat) (vals : list A) :
  length idx = length vals → Np.put a idx vals = Np.put_each a idx vals.
Proof.
  unfold Np.put. destruct vals as [|v [|w vals]]; try done.
  destruct idx as [|i [|j idx]]; try discriminate. intros _. simpl.
  by destruct (decide (i < length a)).
Qed.

Lemma take_nonzero {A} (sel : list bool) (m : list A) :
  length sel = length m → Np.take m (Np.nonzero sel) = Ok (pick sel m).
Proof. apply (take_pick sel [] m). Qed.

Lemma put_nonzero (sel m : list bool) :
  length sel = length m →
  Np.put sel (Np.nonzero sel) (pick sel m) = Ok (zip_with andb sel m).
Proof.
  intros H. rewrite put_matching by (by rewrite length_pick).
  apply (put_each_pick sel [] m H).
Qed.

Lemma compress_nonzero (sel m : list bool) :
  length sel = length m →
  Np.compress (Np.nonzero sel) (pick sel m) = Ok (Np.nonzero (zip_with andb sel m)).
Proof. apply compress_pick. Qed.

Lemma length_zip_and (a b : list bool) :
  length a = length b → length (zip_with andb a b) = length a.
Proof. intros H. rewrite length_zip_with. lia. Qed.

(** The loop of [_and] once [selection] is set: with [evalonly] the positions
    still selected, each further mask is combined element by element. *)
Lemma and_loop_masks (self : Select) ev (others : list (list bool)) :
  ∀ (m sel : list bool) (ag : AtomGroup),
    length m = length sel →
    Forall (fun m' => length m' = length sel) others →
    and_loop self ev (chain AND m others) PNone (Some (Np.nonzero sel)) (Some sel) ag
    = (ag, Ok (fold_left (zip_with andb) others (zip_with andb sel m))).
Proof.
  induction others as [|m' others IH]; intros m sel ag Hm Hothers.
  - cbn [chain and_loop mask_item operand_mask restrict fold_left].
    unfold bind, lift.
    rewrite take_nonzero by done. by rewrite put_nonzero.
  - inversion Hothers as [|? ? Hm' Hrest]; subst.
    cbn [chain and_loop mask_item operand_mask restrict fold_left is_word].
    replace (String.eqb AND AND) with true by reflexivity.
    unfold bind, lift.
    rewrite take_nonzero by done. rewrite put_nonzero by done.
    rewrite compress_nonzero by done.
    apply IH; rewrite length_zip_and by done; done.
Qed.

(** X1.  [_and] on a chain of masks of one length, of any number of
    operands, returns their element-wise conjunction and leaves the group
    as it is. *)
Lemma and_of_masks (cat : Catalog) (self : Select) (m : list bool)
    (others : list (list bool)) (ag : AtomGroup) :
  Forall (fun m' => length m' = length m) others →
  _and cat self (chain AND m others) ag
  = (ag, Ok (VArr (BoolArr (fold_left (zip_with andb) others m)))).
Proof.
  intros Hothers. unfold _and. destruct others as [|m' others].
  - reflexivity.
  - inversion Hothers as [|? ? Hm' Hrest]; subst.
    cbn [chain and_loop mask_item operand_mask restrict fold_left is_word].
    replace (String.eqb AND AND) with true by reflexivity.
    unfold bind, lift, ret. rewrite and_loop_masks by done. reflexivity.
Qed.

(** Writing [v] where the array holds [v] already. *)
Lemma put_const_same {A} (v : A) (idx : list nat) (a : list A) :
  Forall (fun i => a !! i = Some v) idx → Np.put_const a idx v = Ok a.
Proof.
  induction idx as [|i idx IH]; intros Hidx; [done |].
  inversion Hidx as [|? ? Hi Hrest]; subst. cbn [Np.put_const].
  rewrite decide_True by (by eapply lookup_lt_Some).
  rewrite list_insert_id by done. by apply IH.
Qed.

Lemma compress_sub {A} (a : list A) :
  ∀ mask, length a = length mask →
    ∃ r, Np.compress a mask = Ok r ∧ ∀ x, x ∈ r → x ∈ a.
Proof.
  induction a as [|y a IH]; intros [|b mask] Hlen; try discriminate.
  - exists []. by split.
  - injection Hlen as Hlen. destruct (IH mask Hlen) as (r & Hr & Hsub).
    cbn [Np.compress]. rewrite Hr. cbn [res_bind]. destruct b; eexists; split; try done.
    + intros x Hx. apply elem_of_cons in Hx as [-> | Hx]; [left | right; auto].
    + intros x Hx. right. auto.
Qed.

Lemma take_elem_of {A} (a : list A) (idx : list nat) (r : list A) :
  length r = length idx →
  (∀ k i, idx !! k = Some i → r !! k = a !! i) →
  ∀ x, x ∈ r → ∃ i, i ∈ idx ∧ a !! i = Some x.
Proof.
  intros Hlen Hlook x Hx. apply list_elem_of_lookup in Hx as [k Hk].
  destruct (lookup_lt_is_Some_2 idx k) as [i Hi].
  { rewrite <- Hlen. by eapply lookup_lt_Some. }
  exists i. split; [by eapply list_elem_of_lookup_2 |]. by rewrite <- (Hlook k i Hi).
Qed.

(** The loop of [_or] when [evalonly] holds only positions that are selected
    already: whatever the remaining operands are, [selection] is returned
    unchanged. *)
Lemma or_loop_saturated (self : Select) ev (others : list (list bool)) :
  ∀ (m : list bool) (eo : list nat) (sel : list bool) (ag : AtomGroup),
    Forall (fun i => sel !! i = Some true) eo →
    length m = length sel →
    Forall (fun m' => length m' = length sel) others →
    or_loop self ev (chain OR m others) PNone (Some eo) (Some sel) ag = (ag, Ok sel).
Proof.
  induction others as [|m' others IH]; intros m eo sel ag Heo Hm Hothers.
  - cbn [chain or_loop mask_item operand_mask restrict].
    destruct (take_spec m eo) as (torf & Htorf & Hlen & _).
    { eapply Forall_impl; [exact Heo |]. intros i Hi. rewrite Hm. exact (lookup_lt_Some _ _ _ Hi). }
    destruct (compress_sub eo torf) as (idx & Hidx & Hsub); [done |].
    unfold bind, lift. rewrite Htorf, Hidx.
    rewrite put_const_same; [done |].
    apply Forall_forall. intros i Hi. rewrite Forall_forall in Heo. auto.
  - inversion Hothers as [|? ? Hm' Hrest]; subst.
    cbn [chain or_loop mask_item operand_mask restrict is_word].
    replace (String.eqb OR OR) with true by reflexivity.
    destruct (take_spec m eo) as (torf & Htorf & Hlen & _).
    { eapply Forall_impl; [exact Heo |]. intros i Hi. rewrite Hm. exact (lookup_lt_Some _ _ _ Hi). }
    destruct (compress_sub eo torf) as (idx & Hidx & Hsub); [done |].
    destruct (take_spec eo (Np.nonzero torf)) as (eo' & Heo' & Hlen' & Hlook').
    { apply Forall_forall. intros j Hj. apply nonzero_bound in Hj. lia. }
    unfold bind, lift. rewrite Htorf, Hidx.
    rewrite put_const_same.
    2:{ apply Forall_forall. intros i Hi. rewrite Forall_forall in Heo. auto. }
    rewrite Heo'. apply IH; [| done | done].
    apply Forall_forall. intros x Hx.
    destruct (take_elem_of eo (Np.nonzero torf) eo' Hlen' Hlook' x Hx) as (j & _ & Hj).
    rewrite Forall_forall in Heo. apply Heo. by eapply list_elem_of_lookup_2.
Qed.

Lemma length_invert (a : list bool) : length (Np.invert a) = length a.
Proof. unfold Np.invert. apply length_map. Qed.

(** [selection[evalonly[torf]] = True] for the second operand of [_or]. *)
Lemma put_const_or (a c : list bool) :
  length a = length c →
  Np.put_const a (Np.nonzero (zip_with andb (Np.invert a) c)) true
  = Ok (zip_with orb a c).
Proof.
  intros Hlen. rewrite put_const_spec.
  2:{ apply Forall_forall. intros j Hj. apply nonzero_bound in Hj.
      rewrite length_zip_with, length_invert in Hj. lia. }
  f_equal. apply list_eq. intros j.
  rewrite list_lookup_imap, lookup_zip_with.
  destruct (a !! j) as [x|] eqn:Ea; [| done].
  destruct (lookup_lt_is_Some_2 c j) as [y Ey].
  { rewrite <- Hlen. by eapply lookup_lt_Some. }
  rewrite Ey. cbn. f_equal.
  destruct (bool_decide_reflect (j ∈ Np.nonzero (zip_with andb (Np.invert a) c))) as [Hj | Hj];
    rewrite nonzero_elem, lookup_zip_with in Hj; unfold Np.invert in Hj;
    rewrite lookup_map, Ea, Ey in Hj; cbn in Hj.
  - destruct x, y; done.
  - destruct x, y; done.
Qed.

(** [_or] on a chain of masks of one length returns the element-wise
    disjunction of the first two operands, for two operands and for more:
    after the second operand [evalonly] is [evalonly[torf.nonzero()[0]]], the
    positions the second operand selected, and the operands that follow are
    not taken into account. *)
Lemma or_of_masks (cat : Catalog) (self : Select) (a b : list bool)
    (others : list (list bool)) (ag : AtomGroup) :
  length b = length a →
  Forall (fun m => length m = length a) others →
  _or cat self (chain OR a (b :: others)) ag
  = (ag, Ok (VArr (BoolArr (zip_with orb a b)))).
Proof.
  intros Hb Hothers. unfold _or.
  assert (Hinv : length (Np.invert a) = length b) by (by rewrite length_invert).
  assert (Hpick := take_nonzero (Np.invert a) b Hinv).
  assert (Hidx := compress_nonzero (Np.invert a) b Hinv).
  assert (Hput := put_const_or a b (eq_sym Hb)).
  destruct others as [|c others].
  - cbn [chain or_loop mask_item operand_mask restrict is_word].
    replace (String.eqb OR OR) with true by reflexivity.
    unfold bind, lift, ret. by rewrite Hpick, Hidx, Hput.
  - inversion Hothers as [|? ? Hc Hrest]; subst.
    cbn [chain or_loop mask_item operand_mask restrict is_word].
    replace (String.eqb OR OR) with true by reflexivity.
    destruct (take_spec b (Np.nonzero (Np.invert a))) as (torf & Htorf & Hlen & Hlook).
    { apply Forall_forall. intros j Hj. apply nonzero_bound in Hj. lia. }
    rewrite Hpick in Htorf. injection Htorf as <-.
    destruct (take_spec (Np.nonzero (Np.invert a)) (Np.nonzero (pick (Np.invert a) b)))
      as (eo' & Heo' & Hlen' & Hlook').
    { apply Forall_forall. intros j Hj. apply nonzero_bound in Hj. lia. }
    unfold bind, lift, ret. rewrite Hpick, Hidx, Hput, Heo'.
    assert (Hlen_or : length (zip_with orb a b) = length a).
    { rewrite length_zip_with. lia. }
    rewrite or_loop_saturated; [done | | by rewrite Hlen_or | by rewrite Hlen_or].
    apply Forall_forall. intros x Hx.
    destruct (take_elem_of _ _ eo' Hlen' Hlook' x Hx) as (j & Hj & Hx').
    apply nonzero_elem in Hj. rewrite (Hlook j x Hx') in Hj.
    assert (Hxa : x < length a).
    { apply list_elem_of_lookup_2, nonzero_bound in Hx'. by rewrite length_invert in Hx'. }
    destruct (lookup_lt_is_Some_2 a x Hxa) as [v Hv].
    rewrite lookup_zip_with, Hv, Hj. cbn. by rewrite orb_true_r.
Qed.

(** ** Selecting twice *)

(** C7.  "(not resnum) < 0" on a group whose residue numbers are 5, 12 and
    15: the call selects the three atoms and leaves the residue numbers
    -6, -13 and -16 in the group ([_not] negates in place the array
    [_getData] returned, which is the stored one); the same call on the
    group as it is then selects no atom. *)
Theorem negated_column_is_changed_in_the_group :
  let first := getBoolArray initial_catalog None ∅ Examples.not_resnum_below_0
                 Examples.three_atoms in
  let second := getBoolArray initial_catalog None ∅ Examples.not_resnum_below_0
                  (fst first) in
  _fields Examples.three_atoms !! "resnum" = Some (IntArr [5; 12; 15]%Z)
  ∧ snd first = Ok [true; true; true]
  ∧ _fields (fst first) !! "resnum" = Some (IntArr [-6; -13; -16]%Z)
  ∧ snd second = Ok [false; false; false].
Proof. repeat split; vm_compute; reflexivity. Qed.

(** ** The keyword catalogue *)

Ltac lookup_inserted :=
  repeat (rewrite lookup_insert_eq || (rewrite lookup_insert_ne by discriminate)).

Lemma not_readonly_names (keyword : string) :
  is_readonly keyword = false →
  keyword ≠ "acyclic" ∧ keyword ≠ "charged" ∧ keyword ≠ "large"
  ∧ keyword ≠ "neutral" ∧ keyword ≠ "polar" ∧ keyword ≠ "surface".
Proof.
  unfold is_readonly. intros H. apply bool_decide_eq_false in H. simpl in H.
  repeat split; intros ->; apply H; set_solver.
Qed.

Lemma elem_of_list_of_set (l : list string) (x : string) : x ∈ list_of_set l ↔ x ∈ l.
Proof. apply elem_of_remove_dups. Qed.

Lemma elem_of_set_difference (a b : list string) (x : string) :
  x ∈ set_difference a b ↔ x ∈ a ∧ x ∉ b.
Proof.
  unfold set_difference. rewrite list_elem_of_difference, elem_of_remove_dups. done.
Qed.

(** [_setReadonlyResidueNames()] leaves the other keys as they are. *)
Lemma setReadonly_other (m : gmap string (list string)) (key : string) :
  is_readonly key = false →
  _setReadonlyResidueNames m !! key = m !! key.
Proof.
  intros H. apply not_readonly_names in H as (H1 & H2 & H3 & H4 & H5 & H6).
  unfold _setReadonlyResidueNames. cbv zeta.
  rewrite !lookup_insert_ne by done. done.
Qed.

(** [_setReadonlyResidueNames()] makes every derived keyword what its
    definition says. *)
Lemma setReadonly_consistent (m : gmap string (list string)) :
  derived_consistent (_setReadonlyResidueNames m).
Proof.
  unfold derived_consistent, _setReadonlyResidueNames, resnames_of. cbv zeta.
  split_and!; intros x; lookup_inserted; simpl;
    rewrite ?elem_of_set_difference, ?elem_of_list_of_set, ?elem_of_app;
    lookup_inserted; simpl;
    rewrite ?elem_of_set_difference, ?elem_of_list_of_set, ?elem_of_app;
    lookup_inserted; tauto.
Qed.

(** C8 (as amended).  For a derived keyword [setKeywordResnames] does not
    raise: it logs one warning and returns, and every table is as before.
    For any other keyword of [KEYWORD_RESNAMES] it stores the given names,
    leaves the lists of the other keywords that are not derived, and
    computes the list of every derived keyword anew; after
    [setKeywordResnames("acidic", names)] the list of "charged" holds the
    given names and those of "basic". *)
Theorem setKeywordResnames_contract
    (c : Catalog) (keyword : string) (resnames : list string) :
  let after := setKeywordResnames c keyword resnames in
  let m := KEYWORD_RESNAMES (tables after) in
  (is_readonly keyword = true →
     tables after = c ∧ result after = Ok tt
     ∧ ∃ msg, logged after = [(WARNING, msg)])
  ∧ (is_readonly keyword = false → is_Some (KEYWORD_RESNAMES c !! keyword) →
     result after = Ok tt
     ∧ (∀ x, x ∈ resnames_of m keyword ↔ x ∈ resnames)
     ∧ (∀ key, key ≠ keyword → is_readonly key = false →
          m !! key = KEYWORD_RESNAMES c !! key)
     ∧ derived_consistent m
     ∧ (keyword = "acidic" →
          ∀ x, x ∈ resnames_of m "charged"
               ↔ x ∈ resnames ∨ x ∈ resnames_of (KEYWORD_RESNAMES c) "basic")).
Proof.
  cbv zeta. unfold setKeywordResnames. split.
  - intros ->. simpl. repeat split. eexists. reflexivity.
  - intros Hro Hin. rewrite Hro.
    rewrite (bool_decide_eq_true_2 _ Hin). simpl.
    assert (Hkey : ∀ x, x ∈ resnames_of
                     (_setReadonlyResidueNames
                        (<[keyword := list_of_set resnames]> (KEYWORD_RESNAMES c))) keyword
                   ↔ x ∈ resnames).
    { intros x. unfold resnames_of. rewrite setReadonly_other by done.
      rewrite lookup_insert_eq. simpl. apply elem_of_list_of_set. }
    assert (Hother : ∀ key, key ≠ keyword → is_readonly key = false →
                     _setReadonlyResidueNames
                       (<[keyword := list_of_set resnames]> (KEYWORD_RESNAMES c)) !! key
                     = KEYWORD_RESNAMES c !! key).
    { intros key Hne Hk. rewrite setReadonly_other by done.
      apply lookup_insert_ne. congruence. }
    split; [done |]. split; [done |]. split; [done |].
    split; [apply setReadonly_consistent |].
    intros -> x.
    destruct (setReadonly_consistent
                (<["acidic" := list_of_set resnames]> (KEYWORD_RESNAMES c)))
      as (_ & Hcharged & _).
    rewrite Hcharged, Hkey. unfold resnames_of at 1.
    rewrite Hother by done. done.
Qed.

Lemma setKeywordResnames_contract_witness :
  (tables (setKeywordResnames initial_catalog "charged" ["ASP"]) = initial_catalog
   ∧ result (setKeywordResnames initial_catalog "charged" ["ASP"]) = Ok tt
   ∧ ∃ msg, logged (setKeywordResnames initial_catalog "charged" ["ASP"])
            = [(WARNING, msg)])
  ∧ (∀ x, x ∈ resnames_of
              (KEYWORD_RESNAMES (tables (setKeywordResnames initial_catalog "acidic" ["ASP"])))
              "charged"
          ↔ x ∈ ["ASP"] ∨ x ∈ resnames_of (KEYWORD_RESNAMES initial_catalog) "basic").
Proof.
  split.
  - apply (setKeywordResnames_contract initial_catalog "charged" ["ASP"]).
    vm_compute. reflexivity.
  - apply (setKeywordResnames_contract initial_catalog "acidic" ["ASP"]).
    + vm_compute. reflexivity.
    + vm_compute. eexists. reflexivity.
    + reflexivity.
Defined.

(** The counterexample to C8 as stated: setting the derived keyword
    "charged" does not fail. *)
Lemma setting_a_derived_keyword_returns :
  is_readonly "charged" = true
  ∧ result (setKeywordResnames initial_catalog "charged" ["ASP"]) = Ok tt
  ∧ ¬ (∃ e, result (setKeywordResnames initial_catalog "charged" ["ASP"]) = Raise e).
Proof.
  split; [vm_compute; reflexivity |].
  split; [vm_compute; reflexivity |].
  intros (e & H). vm_compute in H. discriminate.
Qed.

(** The mask of "charged" after [setKeywordResnames("acidic", ["ASP"])]:
    [KEYWORD_MAP], from which [expandBoolean] reads, still holds the lists
    of the time [_buildKeywordMap()] ran, so the GLU residue stays
    selected although "charged" is now ASP and the basic residues.
    ([setBackboneAtomNames] calls [_buildKeywordMap()];
    [setKeywordResnames] does not.) *)
Lemma charged_mask_keeps_the_former_names :
  let after := tables (setKeywordResnames initial_catalog "acidic" ["ASP"]) in
  KEYWORD_RESNAMES after !! "charged" = Some ["ASP"; "LYS"; "ARG"; "HIS"; "HSP"; "HSD"]
  ∧ snd (getBoolArray after None ∅ Examples.charged Examples.three_atoms)
    = Ok [true; true; true]
  ∧ snd (getBoolArray (_buildKeywordMap after) None ∅ Examples.charged Examples.three_atoms)
    = Ok [true; false; true].
Proof. repeat split; vm_compute; reflexivity. Qed.

(** ** The macro table *)

(** C9 (as amended).  [defSelectionMacro] raises [ValueError] and changes
    no table when the name is a keyword or is not made of lower case
    letters only (a reserved word that is not a keyword is accepted); when
    the selection string raises [SelectionError] on the reference atom
    group it returns after a warning and leaves the macro table as it was;
    [delSelectionMacro] of a name that is not in the table returns after a
    warning and leaves the table as it was. *)
Theorem macro_table_contract
    (ATOMGROUP_select : string → res unit) (c : Catalog) (name body : string) :
  ((isKeyword name = true ∨ Py.isalpha_and_islower name = false) →
     result (defSelectionMacro ATOMGROUP_select c name body) = Raise ValueError
     ∧ tables (defSelectionMacro ATOMGROUP_select c name body) = c)
  ∧ (isKeyword name = false → Py.isalpha_and_islower name = true →
     ATOMGROUP_select body = Raise SelectionError →
     result (defSelectionMacro ATOMGROUP_select c name body) = Ok tt
     ∧ tables (defSelectionMacro ATOMGROUP_select c name body) = c
     ∧ ∃ msg, (WARNING, msg) ∈ logged (defSelectionMacro ATOMGROUP_select c name body))
  ∧ (MACROS c !! name = None →
     result (delSelectionMacro c name) = Ok tt
     ∧ tables (delSelectionMacro c name) = c
     ∧ ∃ msg, logged (delSelectionMacro c name) = [(WARNING, msg)]).
Proof.
  unfold defSelectionMacro, delSelectionMacro. repeat split.
  - destruct H as [-> | H]; [done |]. rewrite H. by destruct (isKeyword name).
  - destruct H as [-> | H]; [done |]. rewrite H. by destruct (isKeyword name).
  - rewrite H, H0, H1. done.
  - rewrite H, H0, H1. done.
  - rewrite H, H0, H1. simpl. eexists. right. left.
  - rewrite H. done.
  - rewrite H. done.
  - rewrite H. simpl. eexists. reflexivity.
Qed.

Lemma macro_table_contract_witness :
  (result (defSelectionMacro Examples.reference_select initial_catalog "protein" "name CB")
     = Raise ValueError
   ∧ tables (defSelectionMacro Examples.reference_select initial_catalog "protein" "name CB")
     = initial_catalog)
  ∧ (result (defSelectionMacro Examples.reference_select initial_catalog "cbeta" "name")
     = Ok tt
     ∧ tables (defSelectionMacro Examples.reference_select initial_catalog "cbeta" "name")
       = initial_catalog
     ∧ ∃ msg, (WARNING, msg)
              ∈ logged (defSelectionMacro Examples.reference_select initial_catalog
                          "cbeta" "name"))
  ∧ (result (delSelectionMacro initial_catalog "cbeta") = Ok tt
     ∧ tables (delSelectionMacro initial_catalog "cbeta") = initial_catalog
     ∧ ∃ msg, logged (delSelectionMacro initial_catalog "cbeta") = [(WARNING, msg)]).
Proof.
  split; [| split].
  - apply (macro_table_contract Examples.reference_select initial_catalog
             "protein" "name CB").
    left. vm_compute. reflexivity.
  - apply (macro_table_contract Examples.reference_select initial_catalog
             "cbeta" "name"); vm_compute; reflexivity.
  - apply (macro_table_contract Examples.reference_select initial_catalog
             "cbeta" "name"). vm_compute. reflexivity.
Defined.

(** The counterexample to C9 as stated: "of" is a reserved word, and
    [defSelectionMacro] defines a macro of that name. *)
Lemma reserved_word_becomes_a_macro :
  isReserved "of" = true
  ∧ result (defSelectionMacro Examples.reference_select initial_catalog
              "of" "name CB and protein") = Ok tt
  ∧ MACROS (tables (defSelectionMacro Examples.reference_select initial_catalog
                      "of" "name CB and protein")) !! "of"
    = Some "name CB and protein".
Proof. repeat split; vm_compute; reflexivity. Qed.

(** ** Division by zero *)

(** The loop of [_mul] goes through a first run of operators and operands
    and carries on from the value and the atom group that run left. *)
Lemma mul_loop_app (self : Select) (n : nat) :
  ∀ (before rest : list item) (left0 left : value) (ag0 ag1 : AtomGroup),
    (length before ≤ n)%nat →
    mul_loop self before left0 ag0 = (ag1, Ok left) →
    mul_loop self (before ++ rest) left0 ag0 = mul_loop self rest left ag1.
Proof.
  induction n as [|n IH]; intros before rest left0 left ag0 ag1 Hn H.
  - destruct before; [| simpl in Hn; lia]. simpl in H. injection H as -> ->. done.
  - destruct before as [|op [|tkn before]].
    + simpl in H. injection H as -> ->. done.
    + simpl in H. discriminate.
    + simpl in Hn. cbn [mul_loop app] in *. unfold bind in *.
      destruct (numeric self tkn ag0) as [ag' [right|e]]; [| discriminate].
      destruct ((if is_word "/" op then equals_zero self right else ret false) ag')
        as [ag'' [[|]|e]]; try discriminate.
      destruct (apply_BINOP self op left0 right ag'') as [ag3 [l|e]]; [| discriminate].
      apply IH; [lia | done].
Qed.

(** C6 (as amended).  In a group of [_mul], when the operands and
    operators before a division evaluate and the right operand of the
    division evaluates to a scalar equal to zero, [_mul] raises
    [SelectionError]: no value is returned, whatever follows. *)
Theorem division_by_scalar_zero_raises_SelectionError
    (self : Select) (first zero : item) (before after : list item) (q : Q)
    (left : value) (ag ag1 ag2 : AtomGroup) :
  _mul self (first :: before) ag = (ag1, Ok left) →
  _evalNumeric self zero ag1 = (ag2, Ok (Some (VFloat q))) →
  Qeq_bool q 0 = true →
  _mul self (first :: before ++ IStr "/" :: zero :: after) ag
    = (ag2, Raise SelectionError).
Proof.
  intros Hbefore Hzero Hq. unfold _mul, bind in *.
  destruct (numeric self first ag) as [ag0 [left0|e]]; [| discriminate].
  rewrite (mul_loop_app self (length before) before _ left0 left ag0 ag1); [| lia | done].
  cbn [mul_loop]. unfold bind, numeric, bind. rewrite Hzero.
  cbn. rewrite Hq. reflexivity.
Qed.

Lemma division_by_scalar_zero_raises_SelectionError_witness :
  _mul Examples.whole_group ([IStr "resnum"] ++ IStr "/" :: IStr "0" :: [])
    Examples.three_atoms
  = (Examples.three_atoms, Raise SelectionError).
Proof.
  apply (division_by_scalar_zero_raises_SelectionError Examples.whole_group
           (IStr "resnum") (IStr "0") [] [] 0%Q (VRef (LField "resnum"))
           Examples.three_atoms Examples.three_atoms Examples.three_atoms);
    vm_compute; reflexivity.
Defined.

(** The counterexample to C6 as stated: "resnum / 0 < 1" fails, and the
    exception is a [SelectionError], not a [ZeroDivisionError]. *)
Lemma zero_division_is_a_SelectionError :
  snd (getBoolArray initial_catalog None ∅ Examples.resnum_by_zero Examples.three_atoms)
    = Raise SelectionError
  ∧ snd (getBoolArray initial_catalog None ∅ Examples.resnum_by_zero Examples.three_atoms)
    ≠ Raise ZeroDivisionError.
Proof. split; [vm_compute; reflexivity | vm_compute; discriminate]. Qed.

(** The earlier module raises [ZeroDivisionError] at the first division of
    a group, and does not look at a second operator. *)
Lemma legacy_division_by_zero (_getnum : item → res operand)
    (t0 t2 : item) (more : list item) (left : operand) (q : Q) :
  _getnum t0 = Ok left → _getnum t2 = Ok (OScalar q) → Qeq_bool q 0 = true →
  Legacy._mul _getnum (t0 :: IStr "/" :: t2 :: more) = Raise ZeroDivisionError.
Proof.
  intros H0 H2 Hq. unfold Legacy._mul. rewrite H0. simpl. rewrite H2. simpl.
  rewrite Hq. reflexivity.
Qed.

Lemma legacy_mul_stops_after_one_operator (_getnum : item → res operand)
    (t0 op t2 : item) (more : list item) :
  Legacy._mul _getnum (t0 :: op :: t2 :: more) = Legacy._mul _getnum [t0; op; t2].
Proof. reflexivity. Qed.

(** ** Numeric ranges *)

Lemma set_where_map {A} (d : list A) (f g : A → bool) :
  Np.set_where (List.map f d) (List.map g d) = Ok (List.map (fun x => f x || g x)%bool d).
Proof. induction d as [|x d IH]; simpl; [done |]. rewrite IH. done. Qed.

Lemma zeros_map {A} (d : list A) : Np.zeros (length d) = List.map (fun _ => false) d.
Proof. unfold Np.zeros. induction d as [|x d IH]; simpl; [done |]. by rewrite IH. Qed.

Lemma set_each_map (d : list Q) (l : list Z) (h : Q → bool) :
  set_each d l (List.map h d)
  = Ok (List.map (fun r => h r || existsb (fun i => Qeq_bool (inject_Z i) r) l)%bool d).
Proof.
  revert h. induction l as [|i l IH]; intros h; simpl.
  - f_equal. apply map_ext. intros r. by rewrite orb_false_r.
  - rewrite (set_where_map d h). simpl. rewrite IH. f_equal.
    apply map_ext. intros r. by rewrite orb_assoc.
Qed.

Lemma resnum_items_plain (self : Select) (resids : list Q) (evalonly : option (list nat))
    (ns : list numitem) (icodes : option (list string)) (h : Q → bool) (ag : AtomGroup) :
  Forall plain_number ns →
  resnum_items self resids evalonly ns icodes (List.map h resids) ag
  = (ag, Ok (Some (List.map (fun r => h r || existsb (fun n => answers n r) ns)%bool resids))).
Proof.
  intros Hns. revert h. induction Hns as [|n ns Hn Hns IH]; intros h.
  - simpl. unfold ret. do 3 f_equal. apply map_ext. intros r. by rewrite orb_false_r.
  - assert (Hstep : ∀ g : Q → bool,
               (∀ r, g r = answers n r) →
               (t <- lift (Np.set_where (List.map h resids) (List.map g resids)) ;;
                resnum_items self resids evalonly ns icodes t) ag
               = (ag, Ok (Some (List.map
                    (fun r => h r || existsb (fun n => answers n r) (n :: ns))%bool resids)))).
    { intros g Hg. rewrite set_where_map. unfold bind, lift. rewrite IH.
      do 3 f_equal. apply map_ext. intros r. simpl. by rewrite Hg, orb_assoc. }
    destruct n as [z|q|a b|a b|a b c|s]; simpl in Hn; cbn [resnum_items].
    + apply Hstep. done.
    + apply Hstep. done.
    + apply Hstep. done.
    + apply Hstep. done.
    + unfold bind at 1. unfold lift at 1.
      destruct (Np.range a b c) as [l|e] eqn:E.
      * unfold bind at 1. rewrite set_each_map. unfold lift at 1. rewrite IH.
        do 3 f_equal. apply map_ext. intros r. simpl. rewrite E. by rewrite orb_assoc.
      * exfalso. unfold Np.range in E. apply Z.eqb_neq in Hn. rewrite Hn in E.
        destruct (0 <? c)%Z; discriminate.
    + done.
Qed.

Lemma getData_resnum (ag : AtomGroup) (kw : gmap string (list point)) (rs : list Z) :
  _fields ag !! "resnum" = Some (IntArr rs) →
  _getData (selector ag None kw) "resnum" ag = (ag, Ok (VRef (LField "resnum"))).
Proof.
  intros H. unfold _getData.
  replace (bool_decide ("resnum" ∈ ATOMIC_DATA_FIELDS)) with true by (vm_compute; reflexivity).
  cbv beta iota zeta. rewrite H. reflexivity.
Qed.

Lemma resnum_on_group (ag : AtomGroup) (kw : gmap string (list point)) (rs : list Z)
    (toks : list item) (ns : list numitem) :
  _fields ag !! "resnum" = Some (IntArr rs) →
  length rs = numAtoms ag →
  _getNumRange toks false = Ok (Some ns) →
  Forall plain_number ns →
  _resnum (selector ag None kw) (Some toks) None ag
  = (ag, Ok (Some (VArr (BoolArr
       (List.map (fun r => existsb (fun n => answers n (inject_Z r)) ns) rs))))).
Proof.
  intros Hrs Hlen Hns Hplain.
  unfold _resnum. unfold bind at 1. rewrite (getData_resnum ag kw rs Hrs).
  unfold bind at 1. cbn [deref read]. rewrite Hrs.
  unfold bind at 1. cbn [lift numbers_of].
  unfold bind at 1. cbn [lift restrict].
  unfold bind at 1. rewrite Hns. cbn [lift].
  unfold n_selected, selector. cbn [_indices _n_atoms].
  rewrite <- Hlen, <- (length_map inject_Z rs), zeros_map.
  unfold bind. rewrite resnum_items_plain by done.
  unfold ret. cbn [option_map]. rewrite map_map. reflexivity.
Qed.

Lemma evalSelstr_parsed (cat : Catalog) (self : Select) (q : query) (e : expr) :
  Nat.eqb (length (Py.split (Py.strip (selstr q)))) 1 = false →
  parsed q = Some e →
  _evalSelstr cat self q
  = (t <- parse_actions cat self e ;; v <- _defaultAction cat self t ;; ret (Some v)).
Proof. intros H1 H2. unfold _evalSelstr. rewrite H1, H2. reflexivity. Qed.

Lemma evaluate_resnum (cat : Catalog) (self : Select) (tkn : item) (rest : list item) :
  evaluate cat self (PList (IStr "resnum" :: tkn :: rest)) None
  = _resnum self (Some (tkn :: rest)) None.
Proof. reflexivity. Qed.

Lemma getBoolArray_resnum (cat : Catalog) (ag : AtomGroup) (rs : list Z) (q : query)
    (tkn : item) (rest : list item) (ns : list numitem) :
  _fields ag !! "resnum" = Some (IntArr rs) →
  length rs = numAtoms ag →
  Nat.eqb (length (Py.split (Py.strip (selstr q)))) 1 = false →
  parsed q = Some (Words (IStr "resnum" :: tkn :: rest)) →
  _getNumRange (tkn :: rest) false = Ok (Some ns) →
  Forall plain_number ns →
  getBoolArray cat None ∅ q ag
  = (ag, Ok (List.map (fun r => existsb (fun n => answers n (inject_Z r)) ns) rs)).
Proof.
  intros Hrs Hlen Hsplit Hparsed Hns Hplain.
  unfold getBoolArray. unfold bind at 1. unfold get_group.
  rewrite (evalSelstr_parsed _ _ _ _ Hsplit Hparsed).
  cbn [parse_actions]. unfold bind at 2. unfold ret at 1.
  cbn [_defaultAction]. rewrite evaluate_resnum.
  unfold bind. rewrite (resnum_on_group ag ∅ rs (tkn :: rest) ns) by done.
  reflexivity.
Qed.

Lemma bool_is_decide (b : bool) (P : Prop) `{Decision P} : (b = true ↔ P) → b = bool_decide P.
Proof.
  intros Hb. destruct b; symmetry.
  - apply bool_decide_eq_true. by apply Hb.
  - apply bool_decide_eq_false. intros HP. apply Hb in HP. discriminate.
Qed.

Lemma Qeq_bool_inject (a b : Z) : Qeq_bool (inject_Z a) (inject_Z b) = true ↔ a = b.
Proof. rewrite Qeq_bool_iff. apply inject_Z_injective. Qed.

Lemma Qle_bool_inject (a b : Z) : Qle_bool (inject_Z a) (inject_Z b) = true ↔ (a ≤ b)%Z.
Proof. rewrite Qle_bool_iff, <- Zle_Qle. reflexivity. Qed.

Lemma Qlt_bool_inject (a b : Z) : Qlt_bool (inject_Z a) (inject_Z b) = true ↔ (a < b)%Z.
Proof.
  unfold Qlt_bool. rewrite negb_true_iff, <- not_true_iff_false, Qle_bool_inject. lia.
Qed.

Lemma resnum_range_error (cat : Catalog) (ag : AtomGroup) (rs : list Z) (q : query)
    (tkn : item) (rest : list item) (e : exn) :
  _fields ag !! "resnum" = Some (IntArr rs) →
  Nat.eqb (length (Py.split (Py.strip (selstr q)))) 1 = false →
  parsed q = Some (Words (IStr "resnum" :: tkn :: rest)) →
  _getNumRange (tkn :: rest) false = Raise e →
  getBoolArray cat None ∅ q ag = (ag, Raise e).
Proof.
  intros Hrs Hsplit Hparsed Hns.
  unfold getBoolArray. unfold bind at 1. unfold get_group.
  rewrite (evalSelstr_parsed _ _ _ _ Hsplit Hparsed).
  cbn [parse_actions]. unfold bind at 2. unfold ret at 1.
  cbn [_defaultAction]. rewrite evaluate_resnum.
  unfold _resnum. unfold bind. rewrite (getData_resnum ag ∅ rs Hrs).
  cbn [deref read]. rewrite Hrs. cbn [lift numbers_of restrict]. rewrite Hns.
  reflexivity.
Qed.

(** C5.  On an atom group with a column of residue numbers,
    "resnum 5 10 to 15" selects the atoms whose residue number is one of
    5, 10, 11, 12, 13, 14, 15, "resnum 10:15" those with one of 10, 11, 12,
    13, 14, and "resnum 1:10:2" those with one of 1, 3, 5, 7, 9; a bound of
    the colon form that is not an integer ("resnum 10.5:15") is a
    [SelectionError]. *)
Theorem numeric_ranges_on_resnum (cat : Catalog) (ag : AtomGroup) (rs : list Z) :
  _fields ag !! "resnum" = Some (IntArr rs) →
  length rs = numAtoms ag →
  getBoolArray cat None ∅ Examples.resnum_5_10_to_15 ag
    = (ag, Ok (List.map (fun r => bool_decide (r ∈ [5; 10; 11; 12; 13; 14; 15]%Z)) rs))
  ∧ getBoolArray cat None ∅ Examples.resnum_10_15 ag
    = (ag, Ok (List.map (fun r => bool_decide (r ∈ [10; 11; 12; 13; 14]%Z)) rs))
  ∧ getBoolArray cat None ∅ Examples.resnum_1_10_2 ag
    = (ag, Ok (List.map (fun r => bool_decide (r ∈ [1; 3; 5; 7; 9]%Z)) rs))
  ∧ getBoolArray cat None ∅ Examples.resnum_10_5_15 ag = (ag, Raise SelectionError).
Proof.
  intros Hrs Hlen. split_and!.
  - rewrite (getBoolArray_resnum cat ag rs _ (IStr "5") (List.map IStr ["10"; "to"; "15"])
               [NInt 5; NTo (inject_Z 10) (inject_Z 15)] Hrs Hlen);
      [| vm_compute; reflexivity | reflexivity | vm_compute; reflexivity
       | repeat constructor].
    do 2 f_equal. apply map_ext. intros r. apply bool_is_decide.
    cbn [existsb answers]. unfold in_closed.
    rewrite !orb_true_iff, andb_true_iff, Qeq_bool_inject, !Qle_bool_inject.
    rewrite !elem_of_cons, elem_of_nil. lia.
  - rewrite (getBoolArray_resnum cat ag rs _ (IStr "10:15") []
               [NSlice2 10 15] Hrs Hlen);
      [| vm_compute; reflexivity | reflexivity | vm_compute; reflexivity
       | repeat constructor].
    do 2 f_equal. apply map_ext. intros r. apply bool_is_decide.
    cbn [existsb answers]. unfold in_half_open.
    rewrite !orb_true_iff, andb_true_iff, Qlt_bool_inject, !Qle_bool_inject.
    rewrite !elem_of_cons, elem_of_nil. lia.
  - rewrite (getBoolArray_resnum cat ag rs _ (IStr "1:10:2") []
               [NSlice3 1 10 2] Hrs Hlen);
      [| vm_compute; reflexivity | reflexivity | vm_compute; reflexivity
       | repeat constructor; done].
    do 2 f_equal. apply map_ext. intros r. apply bool_is_decide.
    cbn [existsb answers].
    replace (Np.range 1 10 2) with (Ok (A:=list Z) [1; 3; 5; 7; 9]%Z)
      by (vm_compute; reflexivity).
    cbn [existsb].
    rewrite !orb_true_iff, !Qeq_bool_inject.
    rewrite !elem_of_cons, elem_of_nil. lia.
  - apply (resnum_range_error cat ag rs _ (IStr "10.5:15") [] SelectionError Hrs);
      [vm_compute; reflexivity | reflexivity | vm_compute; reflexivity].
Qed.

Lemma numeric_ranges_on_resnum_witness :
  getBoolArray initial_catalog None ∅ Examples.resnum_5_10_to_15 Examples.three_atoms
    = (Examples.three_atoms,
       Ok (List.map (fun r => bool_decide (r ∈ [5; 10; 11; 12; 13; 14; 15]%Z))
             [5; 12; 15]%Z))
  ∧ getBoolArray initial_catalog None ∅ Examples.resnum_10_15 Examples.three_atoms
    = (Examples.three_atoms,
       Ok (List.map (fun r => bool_decide (r ∈ [10; 11; 12; 13; 14]%Z)) [5; 12; 15]%Z))
  ∧ getBoolArray initial_catalog None ∅ Examples.resnum_1_10_2 Examples.three_atoms
    = (Examples.three_atoms,
       Ok (List.map (fun r => bool_decide (r ∈ [1; 3; 5; 7; 9]%Z)) [5; 12; 15]%Z))
  ∧ getBoolArray initial_catalog None ∅ Examples.resnum_10_5_15 Examples.three_atoms
    = (Examples.three_atoms, Raise SelectionError).
Proof.
  apply (numeric_ranges_on_resnum initial_catalog Examples.three_atoms [5; 12; 15]%Z).
  - vm_compute. reflexivity.
  - reflexivity.
Defined.

(** ** Distance based selection *)

Lemma dist2_sym (p q : point) : (dist2 p q == dist2 q p)%Q.
Proof. destruct p as [[px py] pz], q as [[qx qy] qz]. unfold dist2, sq. ring. Qed.

Lemma near_sym (radius : Q) (p q : point) : near radius p q = near radius q p.
Proof. unfold near. apply Qleb_comp; [apply dist2_sym | reflexivity]. Qed.

Lemma near_refl (radius : Q) (p : point) : near radius p p = true.
Proof.
  unfold near. apply Qle_bool_iff.
  assert (H0 : (dist2 p p == 0)%Q).
  { destruct p as [[px py] pz]. unfold dist2, sq. ring. }
  rewrite H0. unfold sq, Qle, Qmult. simpl. nia.
Qed.

Lemma search_elem (tree : list point) (center : point) (radius : Q) (j : nat) :
  j ∈ KDTree_search tree center radius
  ↔ ∃ p, tree !! j = Some p ∧ near radius p center = true.
Proof.
  unfold KDTree_search. rewrite nonzero_elem, lookup_map. unfold near.
  destruct (tree !! j) as [p|]; simpl.
  - split.
    + intros H. exists p. split; [done | congruence].
    + intros (p' & Hp & H). congruence.
  - split; [discriminate | intros (p' & Hp & _); discriminate].
Qed.

Lemma sparse_hits_spec (tree coords : list point) (radius : Q) (which : list nat) :
  ∀ torf : list bool,
    Forall (fun w => w < length coords)%nat which →
    (length tree ≤ length torf)%nat →
    sparse_hits tree coords radius which torf
    = Ok (imap (fun j x => x || existsb (hit radius tree coords j) which)%bool torf).
Proof.
  induction which as [|w which IH]; intros torf Hwhich Hlen.
  - cbn [sparse_hits]. f_equal. apply list_eq. intros j. rewrite list_lookup_imap.
    destruct (torf !! j); [| done]. cbn. by rewrite orb_false_r.
  - inversion Hwhich as [|? ? Hw Hrest]; subst. cbn [sparse_hits].
    destruct (lookup_lt_is_Some_2 coords w Hw) as [c Hc]. rewrite Hc.
    rewrite put_const_spec.
    2:{ apply Forall_forall. intros j Hj. apply search_elem in Hj as (p & Hp & _).
        apply lookup_lt_Some in Hp. lia. }
    cbn [res_bind]. rewrite IH; [| done | by rewrite length_imap].
    f_equal. apply list_eq. intros j. rewrite !list_lookup_imap.
    destruct (torf !! j) as [x|]; [| done]. cbn [fmap option_fmap option_map existsb].
    f_equal. unfold hit at 2. rewrite Hc.
    destruct (bool_decide_reflect (j ∈ KDTree_search tree c radius)) as [Hin | Hnin].
    + apply search_elem in Hin as (p & Hp & Hnear). rewrite Hp, Hnear.
      by rewrite !orb_true_r.
    + destruct (tree !! j) as [p|] eqn:Hp.
      * destruct (near radius p c) eqn:Hnear.
        -- exfalso. apply Hnin, search_elem. eauto.
        -- done.
      * done.
Qed.

Lemma take_Ok_inv {A} (a : list A) (idx : list nat) (r : list A) :
  Np.take a idx = Ok r →
  Forall (fun i => i < length a)%nat idx ∧ length r = length idx
  ∧ ∀ k i, idx !! k = Some i → r !! k = a !! i.
Proof.
  revert r. induction idx as [|i idx IH]; intros r H.
  - cbn in H. injection H as <-. repeat split; [constructor |].
    intros k i H. discriminate.
  - cbn [Np.take] in H. destruct (a !! i) as [x|] eqn:Hx; [| discriminate].
    destruct (Np.take a idx) as [r'|e]; [| discriminate].
    cbn in H. injection H as <-.
    destruct (IH r' eq_refl) as (Hall & Hlen & Hlook). repeat split.
    + constructor; [by apply lookup_lt_Some in Hx | done].
    + cbn. by rewrite Hlen.
    + intros [|k] j Hk; cbn in *.
      * injection Hk as <-. done.
      * by apply Hlook.
Qed.

Lemma take_elem {A} (a : list A) (idx : list nat) (r : list A) (x : A) :
  Np.take a idx = Ok r →
  x ∈ r ↔ ∃ i, i ∈ idx ∧ a !! i = Some x.
Proof.
  intros H. apply take_Ok_inv in H as (Hall & Hlen & Hlook). split.
  - intros Hx. apply list_elem_of_lookup in Hx as (k & Hk).
    assert (Hlt : (k < length idx)%nat) by (rewrite <- Hlen; by apply lookup_lt_Some in Hk).
    destruct (lookup_lt_is_Some_2 idx k Hlt) as [i Hi].
    exists i. split; [by apply list_elem_of_lookup_2 in Hi |].
    rewrite <- (Hlook k i Hi). done.
  - intros (i & Hi & Hx). apply list_elem_of_lookup in Hi as (k & Hk).
    apply (list_elem_of_lookup_2 r k). rewrite (Hlook k i Hk). done.
Qed.

Lemma existsb_hit (radius : Q) (tree coords : list point) (which : list nat)
    (j : nat) (c : point) :
  tree !! j = Some c →
  existsb (hit radius tree coords j) which = near_any radius coords which c.
Proof.
  intros Hj. unfold near_any. induction which as [|w which IH]; [done |].
  cbn [existsb]. rewrite IH. f_equal. unfold hit. rewrite Hj.
  destruct (coords !! w); [apply near_sym | done].
Qed.

Lemma near_any_true (radius : Q) (coords : list point) (which : list nat) (c : point) :
  near_any radius coords which c = true
  ↔ ∃ w cw, w ∈ which ∧ coords !! w = Some cw ∧ near radius cw c = true.
Proof.
  unfold near_any. rewrite existsb_exists. split.
  - intros (w & Hw & H). destruct (coords !! w) as [cw|] eqn:E; [| discriminate].
    exists w, cw. split; [by apply list_elem_of_In | done].
  - intros (w & cw & Hw & Hc & H). exists w. split; [by apply list_elem_of_In |].
    by rewrite Hc.
Qed.

Lemma near_any_self (radius : Q) (coords : list point) (which : list nat)
    (k : nat) (c : point) :
  k ∈ which → coords !! k = Some c → near_any radius coords which c = true.
Proof.
  intros Hk Hc. apply near_any_true. exists k, c. split; [done |]. split; [done |].
  apply near_refl.
Qed.

Lemma repeat_lookup {A} (x : A) (n k : nat) : (k < n)%nat → repeat x n !! k = Some x.
Proof.
  revert k. induction n as [|n IH]; intros k H; [lia |].
  destruct k as [|k]; cbn; [done |]. apply IH. lia.
Qed.

Lemma zeros_lookup (n k : nat) : (k < n)%nat → Np.zeros n !! k = Some false.
Proof. apply repeat_lookup. Qed.

Lemma ones_lookup (n k : nat) : (k < n)%nat → Np.ones n !! k = Some true.
Proof. apply repeat_lookup. Qed.

Lemma zeros_length (n : nat) : length (Np.zeros n) = n.
Proof. apply repeat_length. Qed.

Lemma ones_length (n : nat) : length (Np.ones n) = n.
Proof. apply repeat_length. Qed.

(** The mask both branches of [_within] compute. *)
Lemma within_mask_lookup (coords : list point) (which : list nat) (radius : Q)
    (exclude : bool) (k : nat) :
  within_mask coords which radius exclude !! k
  = (fun c => if bool_decide (k ∈ which) then negb exclude
              else near_any radius coords which c) <$> coords !! k.
Proof. unfold within_mask. apply list_lookup_imap. Qed.

Lemma within_sparse_spec (tree : list point) (indices : option (list nat))
    (coords : list point) (which : list nat) (radius : Q) (exclude : bool) :
  match indices with
  | None => coords = tree
  | Some idx => Np.take tree idx = Ok coords
  end →
  Forall (fun w => w < length coords)%nat which →
  within_sparse (length tree) tree indices coords which radius exclude
  = Ok (within_mask coords which radius exclude).
Proof.
  intros Hcoords Hwhich. unfold within_sparse.
  rewrite sparse_hits_spec; [| done | by rewrite zeros_length].
  cbn [res_bind].
  set (t := imap (fun j x => x || existsb (hit radius tree coords j) which)%bool
              (Np.zeros (length tree))).
  assert (Ht : ∀ j c, tree !! j = Some c → t !! j = Some (near_any radius coords which c)).
  { intros j c Hj. unfold t. rewrite list_lookup_imap, zeros_lookup
      by (by apply lookup_lt_Some in Hj).
    cbn. by rewrite (existsb_hit radius tree coords which j c Hj). }
  assert (Hlen_t : length t = length tree).
  { unfold t. by rewrite length_imap, zeros_length. }
  assert (∃ t1, match indices with
                | None => Ok t
                | Some idx => Np.take t idx
                end = Ok t1
                ∧ length t1 = length coords
                ∧ ∀ k c, coords !! k = Some c →
                         t1 !! k = Some (near_any radius coords which c))
    as (t1 & -> & Hlen1 & Ht1).
  { destruct indices as [idx|].
    - apply take_Ok_inv in Hcoords as (Hall & Hlen & Hlook).
      destruct (take_spec t idx) as (t1 & Hr & Hl & Hk); [by rewrite Hlen_t |].
      exists t1. split; [done |]. split; [congruence |].
      intros k c Hc.
      assert (Hlt : (k < length idx)%nat)
        by (rewrite <- Hlen; by apply lookup_lt_Some in Hc).
      destruct (lookup_lt_is_Some_2 idx k Hlt) as [i Hi].
      rewrite (Hk k i Hi). apply Ht. rewrite <- (Hlook k i Hi). done.
    - subst coords. exists t. split; [done |]. split; [done |]. done. }
  cbn [res_bind].
  assert (Hfinal : ∀ r : list bool,
             length r = length coords →
             (∀ k c, coords !! k = Some c →
                     r !! k = Some (if bool_decide (k ∈ which) then negb exclude
                                    else near_any radius coords which c)) →
             r = within_mask coords which radius exclude).
  { intros r Hlen Hr. apply list_eq. intros k. rewrite within_mask_lookup.
    destruct (coords !! k) as [c|] eqn:Hc.
    - by rewrite (Hr k c Hc).
    - cbn. apply lookup_ge_None. rewrite Hlen. by apply lookup_ge_None. }
  destruct exclude.
  - rewrite put_const_spec by (by rewrite Hlen1). f_equal. apply Hfinal.
    + by rewrite length_imap.
    + intros k c Hc. rewrite list_lookup_imap, (Ht1 k c Hc). cbn.
      by destruct (bool_decide (k ∈ which)).
  - f_equal. apply Hfinal; [done |].
    intros k c Hc. rewrite (Ht1 k c Hc). f_equal.
    destruct (bool_decide_reflect (k ∈ which)) as [Hin | Hnin]; [| done].
    cbn. by apply (near_any_self radius coords which k c).
Qed.

Lemma has_hit_near_any (radius : Q) (coords reference : list point) (which : list nat)
    (c : point) :
  Np.take coords which = Ok reference →
  has_hit reference radius c = near_any radius coords which c.
Proof.
  intros Href. apply eq_true_iff_eq. rewrite near_any_true.
  unfold has_hit. rewrite negb_true_iff, Nat.eqb_neq. split.
  - intros Hne. destruct (KDTree_search reference c radius) as [|j l] eqn:E; [done |].
    assert (Hj : j ∈ KDTree_search reference c radius) by (rewrite E; left).
    apply search_elem in Hj as (p & Hp & Hnear).
    apply list_elem_of_lookup_2 in Hp.
    apply (take_elem coords which reference p Href) in Hp as (w & Hw & Hcw).
    eauto.
  - intros (w & cw & Hw & Hcw & Hnear).
    assert (Hin : cw ∈ reference).
    { apply (take_elem coords which reference cw Href). eauto. }
    apply list_elem_of_lookup in Hin as (j & Hj).
    assert (Hs : j ∈ KDTree_search reference c radius) by (apply search_elem; eauto).
    destruct (KDTree_search reference c radius); [inversion Hs | cbn; lia].
Qed.

Lemma within_dense_spec (coords : list point) (which : list nat) (radius : Q)
    (exclude : bool) :
  Forall (fun w => w < length coords)%nat which →
  within_dense (length coords) coords which radius exclude
  = Ok (within_mask coords which radius exclude).
Proof.
  intros Hwhich. unfold within_dense.
  rewrite put_const_spec by (by rewrite ones_length). cbn [res_bind].
  set (t0 := imap (fun j x => if bool_decide (j ∈ which) then false else x)
               (Np.ones (length coords))).
  assert (Hcheck : ∀ k, k ∈ Np.nonzero t0 ↔ (k < length coords)%nat ∧ k ∉ which).
  { intros k. rewrite nonzero_elem. unfold t0. rewrite list_lookup_imap.
    destruct (decide (k < length coords)%nat) as [Hlt | Hge].
    - rewrite ones_lookup by done. cbn.
      destruct (bool_decide_reflect (k ∈ which)); split; try done; try tauto.
    - rewrite (proj2 (lookup_ge_None _ _)) by (rewrite ones_length; lia).
      cbn. split; [done | tauto]. }
  destruct (take_spec coords (Np.nonzero t0)) as (cxyz & -> & Hlen_c & Hcx).
  { apply Forall_forall. intros k Hk. by apply Hcheck in Hk as [Hk _]. }
  cbn [res_bind].
  destruct (take_spec coords which Hwhich) as (reference & Href & _ & _).
  rewrite Href. cbn [res_bind].
  set (select := Np.nonzero (List.map (has_hit reference radius) cxyz)).
  destruct (take_spec (Np.nonzero t0) select) as (hits & Hhits & _ & _).
  { apply Forall_forall. intros p Hp. apply nonzero_bound in Hp.
    rewrite length_map in Hp. lia. }
  rewrite Hhits. cbn [res_bind].
  assert (Hin_hits : ∀ k, k ∈ hits
                        ↔ ∃ c, coords !! k = Some c ∧ (k ∉ which)
                               ∧ near_any radius coords which c = true).
  { intros k. rewrite (take_elem _ _ _ k Hhits). split.
    - intros (p & Hp & Hk). unfold select in Hp. apply nonzero_elem in Hp.
      rewrite lookup_map in Hp. rewrite (Hcx p k Hk) in Hp.
      destruct (coords !! k) as [c|] eqn:Hc; [| discriminate]. cbn in Hp.
      injection Hp as Hp. rewrite (has_hit_near_any radius coords reference which c Href) in Hp.
      apply list_elem_of_lookup_2, Hcheck in Hk as [_ Hk]. eauto.
    - intros (c & Hc & Hnot & Hnear).
      assert (Hk : k ∈ Np.nonzero t0).
      { apply Hcheck. split; [by apply lookup_lt_Some in Hc | done]. }
      apply list_elem_of_lookup in Hk as (p & Hp). exists p. split; [| done].
      unfold select. apply nonzero_elem. rewrite lookup_map, (Hcx p k Hp), Hc. cbn.
      by rewrite (has_hit_near_any radius coords reference which c Href), Hnear. }
  rewrite put_const_spec.
  2:{ apply Forall_forall. intros k Hk. apply Hin_hits in Hk as (c & Hc & _).
      rewrite zeros_length. by apply lookup_lt_Some in Hc. }
  cbn [res_bind].
  set (t1 := imap (fun j x => if bool_decide (j ∈ hits) then true else x)
               (Np.zeros (length coords))).
  assert (Ht1 : ∀ k c, coords !! k = Some c →
                t1 !! k = Some (if bool_decide (k ∈ which) then false
                                else near_any radius coords which c)).
  { intros k c Hc. unfold t1.
    rewrite list_lookup_imap, zeros_lookup by (by apply lookup_lt_Some in Hc).
    cbn. f_equal.
    destruct (bool_decide_reflect (k ∈ hits)) as [Hin | Hnin].
    - apply Hin_hits in Hin as (c' & Hc' & Hnot & Hnear).
      rewrite bool_decide_eq_false_2 by done. congruence.
    - destruct (bool_decide_reflect (k ∈ which)) as [Hw | Hw]; [done |].
      destruct (near_any radius coords which c) eqn:Hnear; [| done].
      exfalso. apply Hnin, Hin_hits. eauto. }
  assert (Hlen1 : length t1 = length coords).
  { unfold t1. by rewrite length_imap, zeros_length. }
  assert (Hfinal : ∀ r : list bool,
             length r = length coords →
             (∀ k c, coords !! k = Some c →
                     r !! k = Some (if bool_decide (k ∈ which) then negb exclude
                                    else near_any radius coords which c)) →
             r = within_mask coords which radius exclude).
  { intros r Hlen Hr. apply list_eq. intros k. rewrite within_mask_lookup.
    destruct (coords !! k) as [c|] eqn:Hc.
    - by rewrite (Hr k c Hc).
    - cbn. apply lookup_ge_None. rewrite Hlen. by apply lookup_ge_None. }
  destruct exclude.
  - f_equal. apply Hfinal; [done |]. intros k c Hc. by rewrite (Ht1 k c Hc).
  - rewrite put_const_spec by (by rewrite Hlen1). f_equal. apply Hfinal.
    + by rewrite length_imap.
    + intros k c Hc. rewrite list_lookup_imap, (Ht1 k c Hc). cbn.
      by destruct (bool_decide (k ∈ which)).
Qed.

(** The coordinates [_getCoords] returns, the tree of the group and the
    positions of a mask of the collection fit together. *)
Lemma getCoords_inv (ag : AtomGroup) (atoms : option (list nat))
    (kwargs : gmap string (list point)) (tree coords : list point) (g : list bool) :
  _coords ag = Some tree →
  length tree = numAtoms ag →
  _getCoords (selector ag atoms kwargs) ag = (ag, Ok coords) →
  length g = atomCount ag atoms →
  match atoms with
  | None => coords = tree
  | Some idx => Np.take tree idx = Ok coords
  end
  ∧ length coords = length g
  ∧ _n_atoms (selector ag atoms kwargs) = length coords
  ∧ Forall (fun w => w < length coords)%nat (Np.nonzero g).
Proof.
  intros Htree Hlen Hget Hg. unfold _getCoords in Hget. rewrite Htree in Hget.
  cbn [selector _indices _n_atoms] in *. unfold atomCount in Hg.
  assert (Hwhich : ∀ n, length g = n → Forall (fun w => w < n)%nat (Np.nonzero g)).
  { intros n <-. apply Forall_forall. intros k Hk. by apply nonzero_bound. }
  destruct atoms as [idx|].
  - assert (Htake : Np.take tree idx = Ok coords) by congruence.
    destruct (take_Ok_inv _ _ _ Htake) as (_ & Hl & _).
    split; [done |]. split; [congruence |]. split; [congruence |].
    apply Hwhich. congruence.
  - assert (coords = tree) by congruence. subst coords.
    split; [done |]. split; [congruence |]. split; [congruence |].
    apply Hwhich. congruence.
Qed.

Lemma within_on_mask (cat : Catalog) (ag : AtomGroup) (atoms : option (list nat))
    (kwargs : gmap string (list point)) (tree coords : list point) (g : list bool)
    (op : string) (radius : Q) (exclude : bool) :
  _coords ag = Some tree →
  length tree = numAtoms ag →
  _getCoords (selector ag atoms kwargs) ag = (ag, Ok coords) →
  length g = atomCount ag atoms →
  within_radius op = Ok (Some radius) →
  _within cat (selector ag atoms kwargs) [IStr op; IVal (VArr (BoolArr g))] exclude ag
  = (ag, Ok (Some (VArr (BoolArr (within_mask coords (Np.nonzero g) radius exclude))))).
Proof.
  intros Htree Hlen Hget Hg Hop.
  destruct (getCoords_inv ag atoms kwargs tree coords g Htree Hlen Hget Hg)
    as (Hcoords & Hlg & Hn & Hwhich).
  unfold _within. rewrite Hop. unfold bind at 1. cbn [lift is_array].
  unfold bind at 1. cbn [ret]. unfold bind at 1. cbn [get_group].
  unfold bind at 1. rewrite Hget.
  destruct (Nat.ltb (length (Np.nonzero g)) 20).
  - rewrite Htree. unfold bind, lift. rewrite <- Hlen.
    cbn [selector _indices]. rewrite within_sparse_spec by done. reflexivity.
  - unfold bind, lift. rewrite Hn, within_dense_spec by done. reflexivity.
Qed.

(** C4.  For every radius, every boolean reference mask of the collection
    and either setting of [exclude], the sparse branch of [_within] (one
    search of the tree of the atoms around each reference atom) and the
    dense branch (one search of the tree of the reference atoms around
    each other atom) return the same mask, and both return one. *)
Theorem sparse_and_dense_branches_agree
    (ag : AtomGroup) (atoms : option (list nat)) (kwargs : gmap string (list point))
    (tree coords : list point) (g : list bool) (radius : Q) (exclude : bool) :
  _coords ag = Some tree →
  length tree = numAtoms ag →
  _getCoords (selector ag atoms kwargs) ag = (ag, Ok coords) →
  length g = atomCount ag atoms →
  within_sparse (numAtoms ag) tree atoms coords (Np.nonzero g) radius exclude
  = within_dense (_n_atoms (selector ag atoms kwargs)) coords (Np.nonzero g) radius exclude
  ∧ is_ok (within_dense (_n_atoms (selector ag atoms kwargs)) coords (Np.nonzero g)
             radius exclude) = true.
Proof.
  intros Htree Hlen Hget Hg.
  destruct (getCoords_inv ag atoms kwargs tree coords g Htree Hlen Hget Hg)
    as (Hcoords & Hlg & Hn & Hwhich).
  rewrite <- Hlen, Hn.
  rewrite within_sparse_spec, within_dense_spec by done. done.
Qed.

(** C3.  For every radius and every reference mask [g] of the collection,
    "within R of G" and "exwithin R of G" return masks of the length of
    [g]; the first holds [True] at every reference atom, the second holds
    [False] there and is the first without the atoms of [g]; an atom is
    within when it is a reference atom or its squared distance to a
    reference atom is at most the squared radius (the comparison is
    inclusive). *)
Theorem within_includes_and_exwithin_excludes
    (cat : Catalog) (ag : AtomGroup) (atoms : option (list nat))
    (kwargs : gmap string (list point)) (tree coords : list point) (g : list bool)
    (op_within op_exwithin : string) (radius : Q) :
  _coords ag = Some tree →
  length tree = numAtoms ag →
  _getCoords (selector ag atoms kwargs) ag = (ag, Ok coords) →
  length g = atomCount ag atoms →
  within_radius op_within = Ok (Some radius) →
  within_radius op_exwithin = Ok (Some radius) →
  ∃ w x : list bool,
    _within cat (selector ag atoms kwargs)
      [IStr op_within; IVal (VArr (BoolArr g))] false ag
      = (ag, Ok (Some (VArr (BoolArr w))))
    ∧ _within cat (selector ag atoms kwargs)
        [IStr op_exwithin; IVal (VArr (BoolArr g))] true ag
      = (ag, Ok (Some (VArr (BoolArr x))))
    ∧ length w = length g ∧ length x = length g
    ∧ (∀ i, g !! i = Some true → w !! i = Some true)
    ∧ (∀ i, g !! i = Some true → x !! i = Some false)
    ∧ x = zip_with (fun a b => a && negb b)%bool w g
    ∧ (∀ i, w !! i = Some true
            ↔ ∃ c, coords !! i = Some c
                   ∧ (g !! i = Some true
                      ∨ ∃ j cj, g !! j = Some true ∧ coords !! j = Some cj
                                ∧ (dist2 cj c <= sq radius)%Q)).
Proof.
  intros Htree Hlen Hget Hg Hin Hex.
  destruct (getCoords_inv ag atoms kwargs tree coords g Htree Hlen Hget Hg)
    as (Hcoords & Hlg & Hn & Hwhich).
  exists (within_mask coords (Np.nonzero g) radius false),
         (within_mask coords (Np.nonzero g) radius true).
  assert (Hlenm : ∀ e, length (within_mask coords (Np.nonzero g) radius e) = length g).
  { intros e. unfold within_mask. by rewrite length_imap. }
  assert (Href : ∀ i e, g !! i = Some true →
                 within_mask coords (Np.nonzero g) radius e !! i = Some (negb e)).
  { intros i e Hi. rewrite within_mask_lookup.
    assert (Hlt : (i < length coords)%nat) by (rewrite Hlg; by apply lookup_lt_Some in Hi).
    destruct (lookup_lt_is_Some_2 coords i Hlt) as [c ->]. cbn.
    rewrite bool_decide_eq_true_2; [done | by apply nonzero_elem]. }
  split_and!.
  - by apply (within_on_mask cat ag atoms kwargs tree).
  - by apply (within_on_mask cat ag atoms kwargs tree).
  - apply Hlenm.
  - apply Hlenm.
  - intros i Hi. by apply (Href i false).
  - intros i Hi. by apply (Href i true).
  - apply list_eq. intros i. rewrite lookup_zip_with, !within_mask_lookup.
    destruct (coords !! i) as [c|] eqn:Hc; [| done]. cbn.
    assert (Hlt : (i < length g)%nat) by (rewrite <- Hlg; by apply lookup_lt_Some in Hc).
    destruct (lookup_lt_is_Some_2 g i Hlt) as [b Hb]. rewrite Hb. cbn. f_equal.
    destruct (bool_decide_reflect (i ∈ Np.nonzero g)) as [Hi | Hi].
    + apply nonzero_elem in Hi. assert (b = true) by congruence. by subst.
    + assert (b = false).
      { destruct b; [| done]. exfalso. by apply Hi, nonzero_elem. }
      subst. by rewrite andb_true_r.
  - intros i. rewrite within_mask_lookup. split.
    + intros Hw. destruct (coords !! i) as [c|] eqn:Hc; [| discriminate].
      exists c. split; [done |]. cbn in Hw. injection Hw as Hw.
      destruct (bool_decide_reflect (i ∈ Np.nonzero g)) as [Hi | Hi].
      * left. by apply nonzero_elem.
      * right. apply near_any_true in Hw as (j & cj & Hj & Hcj & Hnear).
        exists j, cj. split; [by apply nonzero_elem |]. split; [done |].
        by apply Qle_bool_iff.
    + intros (c & Hc & H). rewrite Hc. cbn. f_equal.
      destruct (bool_decide_reflect (i ∈ Np.nonzero g)) as [Hi | Hi]; [done |].
      destruct H as [H | (j & cj & Hj & Hcj & Hnear)].
      * exfalso. by apply Hi, nonzero_elem.
      * apply near_any_true. exists j, cj. split; [by apply nonzero_elem |].
        split; [done |]. by apply Qle_bool_iff.
Qed.

Lemma sparse_and_dense_branches_agree_witness :
  within_sparse 3 [(0, 0, 0)%Q; (3, 0, 0)%Q; (10, 0, 0)%Q] None
    [(0, 0, 0)%Q; (3, 0, 0)%Q; (10, 0, 0)%Q] (Np.nonzero [true; false; false]) 5 false
  = within_dense 3 [(0, 0, 0)%Q; (3, 0, 0)%Q; (10, 0, 0)%Q]
      (Np.nonzero [true; false; false]) 5 false
  ∧ is_ok (within_dense 3 [(0, 0, 0)%Q; (3, 0, 0)%Q; (10, 0, 0)%Q]
             (Np.nonzero [true; false; false]) 5 false) = true.
Proof.
  apply (sparse_and_dense_branches_agree Examples.three_atoms None ∅
           [(0, 0, 0)%Q; (3, 0, 0)%Q; (10, 0, 0)%Q]
           [(0, 0, 0)%Q; (3, 0, 0)%Q; (10, 0, 0)%Q] [true; false; false] 5 false);
    vm_compute; reflexivity.
Defined.

Lemma within_includes_and_exwithin_excludes_witness :
  ∃ w x : list bool,
    _within initial_catalog Examples.whole_group
      [IStr "within 5 of"; IVal (VArr (BoolArr [true; false; false]))] false
      Examples.three_atoms
      = (Examples.three_atoms, Ok (Some (VArr (BoolArr w))))
    ∧ _within initial_catalog Examples.whole_group
        [IStr "exwithin 5 of"; IVal (VArr (BoolArr [true; false; false]))] true
        Examples.three_atoms
      = (Examples.three_atoms, Ok (Some (VArr (BoolArr x))))
    ∧ length w = length [true; false; false]
    ∧ length x = length [true; false; false]
    ∧ (∀ i, [true; false; false] !! i = Some true → w !! i = Some true)
    ∧ (∀ i, [true; false; false] !! i = Some true → x !! i = Some false)
    ∧ x = zip_with (fun a b => a && negb b)%bool w [true; false; false]
    ∧ (∀ i, w !! i = Some true
            ↔ ∃ c, [(0, 0, 0)%Q; (3, 0, 0)%Q; (10, 0, 0)%Q] !! i = Some c
                   ∧ ([true; false; false] !! i = Some true
                      ∨ ∃ j cj, [true; false; false] !! j = Some true
                                ∧ [(0, 0, 0)%Q; (3, 0, 0)%Q; (10, 0, 0)%Q] !! j = Some cj
                                ∧ (dist2 cj c <= sq 5)%Q)).
Proof.
  apply (within_includes_and_exwithin_excludes initial_catalog Examples.three_atoms
           None ∅ [(0, 0, 0)%Q; (3, 0, 0)%Q; (10, 0, 0)%Q]
           [(0, 0, 0)%Q; (3, 0, 0)%Q; (10, 0, 0)%Q] [true; false; false]
           "within 5 of" "exwithin 5 of" 5);
    vm_compute; reflexivity.
Defined.

(** The two operators on the three atoms at x = 0, 3 and 10, through the
    parse actions: the atom at 3 is within 5 of atom A, the atom at 10 is
    not. *)
Lemma within_and_exwithin_of_atom_A :
  snd (getBoolArray initial_catalog None ∅ Examples.within_5_of_A Examples.three_atoms)
    = Ok [true; true; false]
  ∧ snd (getBoolArray initial_catalog None ∅ Examples.exwithin_5_of_A Examples.three_atoms)
    = Ok [false; true; false].
Proof. split; vm_compute; reflexivity. Qed.

(* ------------------------------------------------------------------------- *)
(** * Further properties *)

(** ** Further properties of the boolean combinators *)

Lemma and_of_masks_witness :
  _and initial_catalog Examples.whole_group
    (chain AND [true; true; false] [[true; false; true]; [true; true; true]])
    Examples.three_atoms
  = (Examples.three_atoms, Ok (VArr (BoolArr [true; false; false]))).
Proof.
  apply (and_of_masks initial_catalog Examples.whole_group [true; true; false]
           [[true; false; true]; [true; true; true]] Examples.three_atoms).
  repeat constructor.
Defined.

Lemma zip_with_orb_comm (a b : list bool) : zip_with orb a b = zip_with orb b a.
Proof.
  revert b. induction a as [|x a IH]; intros [|y b]; simpl; try done.
  by rewrite IH, orb_comm.
Qed.

(** X2.  [_or] on two masks of one length returns their element-wise
    disjunction and leaves the group as it is; the two operands can be
    exchanged. *)
Theorem or_of_two_masks (cat : Catalog) (self : Select) (a b : list bool)
    (ag : AtomGroup) :
  length b = length a →
  _or cat self (chain OR a [b]) ag = (ag, Ok (VArr (BoolArr (zip_with orb a b))))
  ∧ _or cat self (chain OR b [a]) ag = _or cat self (chain OR a [b]) ag.
Proof.
  intros Hlen.
  rewrite (or_of_masks cat self a b [] ag) by (done || constructor).
  rewrite (or_of_masks cat self b a [] ag) by (done || constructor).
  by rewrite zip_with_orb_comm.
Qed.

Lemma or_of_two_masks_witness :
  _or initial_catalog Examples.whole_group (chain OR [true; false; false] [[false; false; true]])
    Examples.three_atoms
  = (Examples.three_atoms, Ok (VArr (BoolArr [true; false; true])))
  ∧ _or initial_catalog Examples.whole_group
      (chain OR [false; false; true] [[true; false; false]]) Examples.three_atoms
    = _or initial_catalog Examples.whole_group
        (chain OR [true; false; false] [[false; false; true]]) Examples.three_atoms.
Proof.
  apply (or_of_two_masks initial_catalog Examples.whole_group [true; false; false]
           [false; false; true] Examples.three_atoms).
  reflexivity.
Defined.

Lemma invert_invert (m : list bool) : Np.invert (Np.invert m) = m.
Proof.
  unfold Np.invert. rewrite map_map. rewrite <- (map_id m) at 2.
  apply map_ext. intros b. apply negb_involutive.
Qed.

(** X3.  The operator "not" through [_unary]: for an operand that is a
    mask already, and for an operand of words that [_evaluate] turns into
    a new boolean array, the result is the element-wise negation of that
    mask, and the group is left as the evaluation of the operand left it;
    negating twice gives the mask back. *)
Theorem not_negates_the_mask_of_its_operand (cat : Catalog) (self : Select)
    (word : string) (rest : list item) (g m : list bool) (ag ag' : AtomGroup) :
  evaluate cat self (PList (IStr word :: rest)) None ag
    = (ag', Ok (Some (VArr (BoolArr m)))) →
  _unary cat self [IStr NOT; mask_item g] ag = (ag, Ok (VArr (BoolArr (Np.invert g))))
  ∧ _unary cat self (IStr NOT :: IStr word :: rest) ag
    = (ag', Ok (VArr (BoolArr (Np.invert m))))
  ∧ _unary cat self [IStr NOT; mask_item (Np.invert g)] ag = (ag, Ok (VArr (BoolArr g))).
Proof.
  intros Hev. split_and!.
  - reflexivity.
  - unfold _unary. replace (String.eqb NOT NOT) with true by reflexivity.
    unfold _not, not_with. fold (evaluate cat self).
    unfold bind. rewrite Hev. reflexivity.
  - unfold _unary. replace (String.eqb NOT NOT) with true by reflexivity.
    unfold _not, not_with, mask_item. cbn [is_array invert_in_place invert_array].
    unfold bind, lift, ret. by rewrite invert_invert.
Qed.

Lemma not_negates_the_mask_of_its_operand_witness :
  _unary initial_catalog Examples.whole_group [IStr NOT; mask_item [true; false; false]]
    Examples.three_atoms
  = (Examples.three_atoms, Ok (VArr (BoolArr (Np.invert [true; false; false]))))
  ∧ _unary initial_catalog Examples.whole_group
      (IStr NOT :: IStr "name" :: [IStr "A"]) Examples.three_atoms
    = (Examples.three_atoms, Ok (VArr (BoolArr (Np.invert [true; false; false]))))
  ∧ _unary initial_catalog Examples.whole_group
      [IStr NOT; mask_item (Np.invert [true; false; false])] Examples.three_atoms
    = (Examples.three_atoms, Ok (VArr (BoolArr [true; false; false]))).
Proof.
  apply (not_negates_the_mask_of_its_operand initial_catalog Examples.whole_group
           "name" [IStr "A"] [true; false; false] [true; false; false]
           Examples.three_atoms Examples.three_atoms).
  vm_compute. reflexivity.
Defined.



(** ** Single words *)

Lemma nonzero_from_ones (n k : nat) : Np.nonzero_from k (Np.ones n) = seq k n.
Proof.
  unfold Np.ones. revert k. induction n as [|n IH]; intros k; simpl; [done |].
  by rewrite IH.
Qed.

Lemma nonzero_from_zeros (n k : nat) : Np.nonzero_from k (Np.zeros n) = [].
Proof.
  unfold Np.zeros. revert k. induction n as [|n IH]; intros k; simpl; [done |].
  by rewrite IH.
Qed.

Lemma n_atoms_selector (ag : AtomGroup) (atoms : option (list nat))
    (kwargs : gmap string (list point)) :
  _n_atoms (selector ag atoms kwargs) = atomCount ag atoms.
Proof. by destruct atoms. Qed.

(** X5.  On every collection of atoms, "all" selects every atom and "none"
    selects no atom: the masks are all [True] and all [False] of the length
    of the collection, the indices are 0, 1, ... and the empty array, and
    the group is left as it is.  (The words are not macros: a keyword
    cannot be defined as one.) *)
Theorem all_and_none (cat : Catalog) (ag : AtomGroup) (atoms : option (list nat))
    (kwargs : gmap string (list point)) (p p' : option expr) :
  isMacro cat "all" = false →
  isMacro cat "none" = false →
  let all := {| selstr := "all"; parsed := p |} in
  let none := {| selstr := "none"; parsed := p' |} in
  getBoolArray cat atoms kwargs all ag = (ag, Ok (Np.ones (atomCount ag atoms)))
  ∧ getBoolArray cat atoms kwargs none ag = (ag, Ok (Np.zeros (atomCount ag atoms)))
  ∧ getIndices cat atoms kwargs all ag = (ag, Ok (Np.arange (atomCount ag atoms)))
  ∧ getIndices cat atoms kwargs none ag = (ag, Ok []).
Proof.
  intros Hall Hnone all none.
  assert (Ha : getBoolArray cat atoms kwargs all ag
               = (ag, Ok (Np.ones (atomCount ag atoms)))).
  { unfold getBoolArray, bind, get_group, _evalSelstr, all. cbn [selstr].
    replace (Py.strip "all") with "all" by (vm_compute; reflexivity).
    rewrite Hall.
    replace (Nat.eqb (length (Py.split "all")) 1 && negb (Py.contains "(" "all")
             && negb (Py.contains ")" "all") && negb false)%bool
      with true by (vm_compute; reflexivity).
    replace (isBooleanKeyword "all") with true by (vm_compute; reflexivity).
    unfold _evalBoolean, evalBoolean_with.
    replace (String.eqb "all" "all") with true by reflexivity.
    unfold ret, n_selected. by rewrite n_atoms_selector. }
  assert (Hn : getBoolArray cat atoms kwargs none ag
               = (ag, Ok (Np.zeros (atomCount ag atoms)))).
  { unfold getBoolArray, bind, get_group, _evalSelstr, none. cbn [selstr].
    replace (Py.strip "none") with "none" by (vm_compute; reflexivity).
    rewrite Hnone.
    replace (Nat.eqb (length (Py.split "none")) 1 && negb (Py.contains "(" "none")
             && negb (Py.contains ")" "none") && negb false)%bool
      with true by (vm_compute; reflexivity).
    replace (isBooleanKeyword "none") with true by (vm_compute; reflexivity).
    unfold _evalBoolean, evalBoolean_with.
    replace (String.eqb "none" "all") with false by reflexivity.
    replace (String.eqb "none" "none") with true by reflexivity.
    unfold ret, n_selected. by rewrite n_atoms_selector. }
  split_and!; [done | done | |].
  - unfold getIndices, bind. rewrite Ha. unfold ret, Np.nonzero, Np.arange.
    by rewrite nonzero_from_ones.
  - unfold getIndices, bind. rewrite Hn. unfold ret, Np.nonzero.
    by rewrite nonzero_from_zeros.
Qed.

Lemma all_and_none_witness :
  getBoolArray initial_catalog (Some [2; 0]) ∅ {| selstr := "all"; parsed := None |}
    Examples.three_atoms
  = (Examples.three_atoms, Ok (Np.ones (atomCount Examples.three_atoms (Some [2; 0]))))
  ∧ getBoolArray initial_catalog (Some [2; 0]) ∅ {| selstr := "none"; parsed := None |}
      Examples.three_atoms
    = (Examples.three_atoms, Ok (Np.zeros (atomCount Examples.three_atoms (Some [2; 0]))))
  ∧ getIndices initial_catalog (Some [2; 0]) ∅ {| selstr := "all"; parsed := None |}
      Examples.three_atoms
    = (Examples.three_atoms, Ok (Np.arange (atomCount Examples.three_atoms (Some [2; 0]))))
  ∧ getIndices initial_catalog (Some [2; 0]) ∅ {| selstr := "none"; parsed := None |}
      Examples.three_atoms
    = (Examples.three_atoms, Ok []).
Proof.
  apply (all_and_none initial_catalog Examples.three_atoms (Some [2; 0]) ∅ None None);
    vm_compute; reflexivity.
Defined.

(** X6.  A selection string of one word, without parentheses, that is
    neither a macro, nor a boolean keyword, nor the label of user data of
    the group, is a [SelectionError] ("resnum" alone, for one), and the
    group is left as it is. *)
Theorem single_word_that_selects_nothing_is_an_error (cat : Catalog) (ag : AtomGroup)
    (atoms : option (list nat)) (kwargs : gmap string (list point)) (q : query) :
  let word := Py.strip (selstr q) in
  length (Py.split word) = 1%nat →
  Py.contains "(" word = false →
  Py.contains ")" word = false →
  isMacro cat word = false →
  isBooleanKeyword word = false →
  _data ag !! word = None →
  getBoolArray cat atoms kwargs q ag = (ag, Raise SelectionError).
Proof.
  intros word Hsplit Hopen Hclose Hmacro Hkw Hdata.
  unfold getBoolArray, get_group, _evalSelstr. fold word.
  rewrite Hsplit, Hopen, Hclose, Hmacro, Hkw. cbn [Nat.eqb negb andb].
  unfold bind, isData. rewrite Hdata.
  rewrite bool_decide_eq_false_2 by (intros [x Hx]; discriminate).
  reflexivity.
Qed.

Lemma single_word_that_selects_nothing_is_an_error_witness :
  getBoolArray initial_catalog None ∅ {| selstr := " resnum "; parsed := None |}
    Examples.three_atoms
  = (Examples.three_atoms, Raise SelectionError).
Proof.
  apply (single_word_that_selects_nothing_is_an_error initial_catalog
           Examples.three_atoms None ∅ {| selstr := " resnum "; parsed := None |});
    vm_compute; reflexivity.
Defined.

(** ** Keywords with alphanumeric values *)

(** The three ways [_evalAlnum] has of comparing with the strings (one
    string, up to four, more than four) give the same mask. *)
Lemma match_strings_membership (data strs : list string) :
  match_strings data strs = List.map (fun d => bool_decide (d ∈ strs)) data.
Proof.
  assert (Hex : ∀ l d, existsb (String.eqb d) l = bool_decide (d ∈ l)).
  { intros l d. apply bool_is_decide. rewrite existsb_exists. split.
    - intros (x & Hx & Heq). apply String.eqb_eq in Heq as ->. by apply list_elem_of_In.
    - intros Hd. exists d. split; [by apply list_elem_of_In | apply String.eqb_refl]. }
  unfold match_strings. destruct strs as [|s [|s' strs]].
  - rewrite zeros_map. apply map_ext. intros d. symmetry.
    apply bool_decide_eq_false. apply not_elem_of_nil.
  - apply map_ext. intros d. rewrite <- Hex. simpl. by rewrite orb_false_r.
  - destruct (Nat.ltb 4 (length (s :: s' :: strs))); [done |].
    apply map_ext. intros d. apply Hex.
Qed.

Lemma the_strings_words (strs : list string) : the_strings (List.map IStr strs) = strs.
Proof. induction strs as [|s strs IH]; simpl; [done | by rewrite IH]. Qed.

Lemma the_others_words (strs : list string) : the_others (List.map IStr strs) = [].
Proof. induction strs as [|s strs IH]; simpl; done. Qed.

Lemma the_others_app (l l' : list item) : the_others (l ++ l') = the_others l ++ the_others l'.
Proof.
  induction l as [|[s|r|v] l IH]; simpl; [done | done | by rewrite IH | by rewrite IH].
Qed.

Lemma blank_underscore_none (strs : list string) :
  "_" ∉ strs → blank_underscore (List.map IStr strs) = None.
Proof.
  induction strs as [|s strs IH]; intros Hnot; simpl; [done |].
  apply not_elem_of_cons in Hnot as [Hs Hrest].
  destruct (String.eqb s "_") eqn:E.
  - apply String.eqb_eq in E. congruence.
  - by rewrite IH.
Qed.

Lemma blank_underscore_first (before after : list string) :
  "_" ∉ before →
  blank_underscore (List.map IStr (before ++ "_" :: after))
  = Some (List.map IStr (before ++ " " :: after)).
Proof.
  induction before as [|s before IH]; intros Hnot; simpl; [done |].
  apply not_elem_of_cons in Hnot as [Hs Hrest].
  destruct (String.eqb s "_") eqn:E.
  - apply String.eqb_eq in E. congruence.
  - by rewrite IH.
Qed.

Lemma the_others_blank (vals l : list item) :
  blank_underscore vals = Some l → the_others l = the_others vals.
Proof.
  revert l. induction vals as [|v vals IH]; intros l H; simpl in H; [discriminate |].
  destruct (is_word "_" v) eqn:E.
  - injection H as <-. destruct v as [s|r|x]; try discriminate. done.
  - destruct (blank_underscore vals) as [l'|]; [| discriminate].
    injection H as <-. destruct v as [s|r|x]; simpl; by rewrite (IH l' eq_refl).
Qed.

Lemma the_others_special (vals : list item) :
  the_others (special_values vals) = the_others vals.
Proof.
  unfold special_values. destruct (blank_underscore vals) as [l|] eqn:E; [| done].
  rewrite the_others_app. simpl. rewrite app_nil_r. by apply the_others_blank.
Qed.

(** Each regular expression writes the whole mask: after the last one the
    mask is that of the last one. *)
Lemma match_regexps_last (data : list string) (r : regex) :
  ∀ (regexps : list item) (torf : list bool),
    Forall (fun i => match i with IRegex _ => True | _ => False end) regexps →
    length torf = length data →
    match_regexps data (regexps ++ [IRegex r]) torf = Ok (List.map (re_match r) data).
Proof.
  induction regexps as [|i regexps IH]; intros torf Hall Hlen.
  - simpl. destruct data; [| done]. by destruct torf.
  - inversion Hall as [|? ? Hi Hrest]; subst. destruct i as [s|r'|v]; try done.
    cbn [app match_regexps]. apply IH; [done |].
    destruct data; [done | by rewrite length_map].
Qed.

Lemma length_match_strings (data strs : list string) :
  length (match_strings data strs) = length data.
Proof. rewrite match_strings_membership. apply length_map. Qed.

Lemma getData_field (ag : AtomGroup) (kw : gmap string (list point)) (k : string)
    (a : ndarray) :
  bool_decide (k ∈ ATOMIC_DATA_FIELDS) = true →
  _fields ag !! k = Some a →
  _getData (selector ag None kw) k ag = (ag, Ok (VRef (LField k))).
Proof.
  intros Hk Ha. unfold _getData. rewrite Hk. cbv beta iota zeta. rewrite Ha. reflexivity.
Qed.

(** [_evalAlnum] on an atom group, for a keyword whose column is stored. *)
Lemma evalAlnum_on_group (ag : AtomGroup) (kw : gmap string (list point))
    (keyword : string) (data : list string) (vals : list item) :
  bool_decide (synonym keyword ∈ ATOMIC_DATA_FIELDS) = true →
  _fields ag !! synonym keyword = Some (StrArr data) →
  _evalAlnum (selector ag None kw) keyword vals None ag
  = (ag, torf <~ match_regexps data
                   (the_others (if special_keyword (synonym keyword)
                                then special_values vals else vals))
                   (match_strings data
                      (the_strings (if special_keyword (synonym keyword)
                                    then special_values vals else vals))) ;;
         Ok (Some (VArr (BoolArr torf)))).
Proof.
  intros Hk Hdata. unfold _evalAlnum.
  unfold bind at 1. rewrite (getData_field ag kw _ _ Hk Hdata).
  unfold bind at 1. cbn [deref read]. rewrite Hdata.
  unfold bind at 1. cbn [lift strings_of].
  unfold bind at 1. cbn [lift restrict].
  unfold bind, lift, ret.
  destruct (match_regexps data _ _); reflexivity.
Qed.

Lemma evaluate_alnum_fuel (cat : Catalog) (self : Select) (fuel : nat)
    (keyword : string) (v : item) (vals : list item) :
  isAlnumKeyword keyword = true →
  _evaluate cat self (S fuel) (PList (IStr keyword :: v :: vals)) None
  = _evalAlnum self keyword (v :: vals) None.
Proof. intros Hk. cbn [_evaluate]. by rewrite Hk. Qed.

Lemma evaluate_alnum (cat : Catalog) (self : Select) (keyword : string)
    (vals : list item) :
  isAlnumKeyword keyword = true →
  vals ≠ [] →
  evaluate cat self (PList (IStr keyword :: vals)) None
  = _evalAlnum self keyword vals None.
Proof.
  intros Hk Hvals. destruct vals as [|v vals]; [done |].
  unfold evaluate. change recursion_limit with (S 999).
  by apply evaluate_alnum_fuel.
Qed.

(** A selection string of several words that [pyparsing] leaves as one
    run of words goes to [_defaultAction] unchanged. *)
Lemma getBoolArray_words (cat : Catalog) (ag : AtomGroup) (atoms : option (list nat))
    (kwargs : gmap string (list point)) (q : query) (first : string) (vals : list item) :
  Nat.eqb (length (Py.split (Py.strip (selstr q)))) 1 = false →
  parsed q = Some (Words (IStr first :: vals)) →
  getBoolArray cat atoms kwargs q ag
  = (torf <- evaluate cat (selector ag atoms kwargs) (PList (IStr first :: vals)) None ;;
     match torf with
     | Some (VArr (BoolArr m)) => ret m
     | _ => raise SelectionError
     end) ag.
Proof.
  intros Hsplit Hparsed. unfold getBoolArray. unfold bind at 1. unfold get_group.
  rewrite (evalSelstr_parsed _ _ _ _ Hsplit Hparsed).
  cbn [parse_actions]. unfold bind at 2. unfold ret at 1.
  cbn [_defaultAction]. unfold bind, ret, raise.
  destruct (evaluate cat (selector ag atoms kwargs) (PList (IStr first :: vals)) None ag)
    as [ag' [[v|]|e]]; reflexivity.
Qed.

(** X7.  A keyword with alphanumeric values followed by words, on an atom
    group that stores the column of the keyword: an atom is selected when
    its entry is one of the words, whatever their number (one, up to four
    or more are compared in three different ways); the group is left as it
    is.  For the keywords that read "_" as a blank, the words hold no
    "_". *)
Theorem words_after_a_keyword_select_by_membership (cat : Catalog) (ag : AtomGroup)
    (kwargs : gmap string (list point)) (q : query) (keyword : string)
    (data : list string) (word : string) (words : list string) :
  isAlnumKeyword keyword = true →
  synonym keyword ∈ ATOMIC_DATA_FIELDS →
  _fields ag !! synonym keyword = Some (StrArr data) →
  special_keyword (synonym keyword) = false ∨ "_" ∉ word :: words →
  Nat.eqb (length (Py.split (Py.strip (selstr q)))) 1 = false →
  parsed q = Some (Words (IStr keyword :: List.map IStr (word :: words))) →
  getBoolArray cat None kwargs q ag
  = (ag, Ok (List.map (fun d => bool_decide (d ∈ word :: words)) data)).
Proof.
  intros Hkw Hfield Hdata Hspecial Hsplit Hparsed.
  rewrite (getBoolArray_words cat ag None kwargs q keyword _ Hsplit Hparsed).
  rewrite evaluate_alnum by done.
  unfold bind. rewrite (evalAlnum_on_group ag kwargs keyword data)
    by (done || by apply bool_decide_eq_true).
  assert (Hvals : (if special_keyword (synonym keyword)
                   then special_values (List.map IStr (word :: words))
                   else List.map IStr (word :: words))
                  = List.map IStr (word :: words)).
  { destruct Hspecial as [-> | Hnot]; [done |].
    destruct (special_keyword (synonym keyword)); [| done].
    unfold special_values. by rewrite blank_underscore_none. }
  rewrite Hvals, the_others_words, the_strings_words. cbn [match_regexps res_bind].
  by rewrite match_strings_membership.
Qed.

Lemma words_after_a_keyword_select_by_membership_witness :
  getBoolArray initial_catalog None ∅
    {| selstr := "name A C D E F";
       parsed := Some (Words (IStr "name" :: List.map IStr ("A" :: ["C"; "D"; "E"; "F"]))) |}
    Examples.three_atoms
  = (Examples.three_atoms,
     Ok (List.map (fun d => bool_decide (d ∈ "A" :: ["C"; "D"; "E"; "F"])) ["A"; "B"; "C"])).
Proof.
  apply (words_after_a_keyword_select_by_membership initial_catalog Examples.three_atoms
           ∅ _ "name" ["A"; "B"; "C"] "A" ["C"; "D"; "E"; "F"]).
  - vm_compute. reflexivity.
  - apply (bool_decide_unpack _). vm_compute. exact I.
  - vm_compute. reflexivity.
  - left. vm_compute. reflexivity.
  - vm_compute. reflexivity.
  - reflexivity.
Defined.

(** X8.  For "secondary", "chain", "altloc", "segment" and "icode" (and
    their synonyms) the first value "_" stands for a blank: it is compared
    as one space, and the empty string is added to the values. *)
Theorem underscore_stands_for_a_blank (cat : Catalog) (ag : AtomGroup)
    (kwargs : gmap string (list point)) (q : query) (keyword : string)
    (data : list string) (before after : list string) :
  isAlnumKeyword keyword = true →
  synonym keyword ∈ ATOMIC_DATA_FIELDS →
  special_keyword (synonym keyword) = true →
  _fields ag !! synonym keyword = Some (StrArr data) →
  "_" ∉ before →
  Nat.eqb (length (Py.split (Py.strip (selstr q)))) 1 = false →
  parsed q = Some (Words (IStr keyword :: List.map IStr (before ++ "_" :: after))) →
  getBoolArray cat None kwargs q ag
  = (ag, Ok (List.map (fun d => bool_decide (d ∈ before ++ " " :: after ++ [""])) data)).
Proof.
  intros Hkw Hfield Hspecial Hdata Hnot Hsplit Hparsed.
  rewrite (getBoolArray_words cat ag None kwargs q keyword _ Hsplit Hparsed).
  rewrite evaluate_alnum by (done || by destruct before).
  unfold bind. rewrite (evalAlnum_on_group ag kwargs keyword data)
    by (done || by apply bool_decide_eq_true).
  rewrite Hspecial. unfold special_values. rewrite blank_underscore_first by done.
  replace (List.map IStr (before ++ " " :: after) ++ [IStr ""])
    with (List.map IStr (before ++ " " :: after ++ [""])).
  2:{ rewrite !map_app. cbn [List.map]. rewrite map_app. cbn [List.map].
      by rewrite <- app_assoc. }
  rewrite the_others_words, the_strings_words. cbn [match_regexps res_bind].
  by rewrite match_strings_membership.
Qed.

Lemma underscore_stands_for_a_blank_witness :
  getBoolArray initial_catalog None ∅
    {| selstr := "chain A _";
       parsed := Some (Words (IStr "chain" :: List.map IStr (["A"] ++ "_" :: []))) |}
    {| numAtoms := 3;
       _fields := {["chain" := StrArr ["A"; " "; "B"]]};
       _data := ∅;
       _coords := None |}
  = ({| numAtoms := 3;
        _fields := {["chain" := StrArr ["A"; " "; "B"]]};
        _data := ∅;
        _coords := None |},
     Ok (List.map (fun d => bool_decide (d ∈ ["A"] ++ " " :: [] ++ [""])) ["A"; " "; "B"])).
Proof.
  apply (underscore_stands_for_a_blank initial_catalog _ ∅ _ "chain"
           ["A"; " "; "B"] ["A"] []).
  - vm_compute. reflexivity.
  - apply (bool_decide_unpack _). vm_compute. exact I.
  - vm_compute. reflexivity.
  - vm_compute. reflexivity.
  - apply (bool_decide_unpack _). vm_compute. exact I.
  - vm_compute. reflexivity.
  - reflexivity.
Defined.

(** X9.  When the values of such a keyword hold regular expressions, the
    loop over them writes every entry of the mask for each one: the mask
    is that of the last regular expression alone, and neither the words
    nor the regular expressions before it count. *)
Theorem last_regular_expression_decides (cat : Catalog) (ag : AtomGroup)
    (kwargs : gmap string (list point)) (q : query) (keyword : string)
    (data : list string) (before : list item) (r : regex) (after : list string) :
  isAlnumKeyword keyword = true →
  synonym keyword ∈ ATOMIC_DATA_FIELDS →
  _fields ag !! synonym keyword = Some (StrArr data) →
  Forall (fun i => match i with IVal _ => False | _ => True end) before →
  Nat.eqb (length (Py.split (Py.strip (selstr q)))) 1 = false →
  parsed q = Some (Words (IStr keyword :: before ++ IRegex r :: List.map IStr after)) →
  getBoolArray cat None kwargs q ag = (ag, Ok (List.map (re_match r) data)).
Proof.
  intros Hkw Hfield Hdata Hbefore Hsplit Hparsed.
  rewrite (getBoolArray_words cat ag None kwargs q keyword _ Hsplit Hparsed).
  rewrite evaluate_alnum by (done || by destruct before).
  unfold bind. rewrite (evalAlnum_on_group ag kwargs keyword data)
    by (done || by apply bool_decide_eq_true).
  assert (Hothers : ∀ vals, the_others (if special_keyword (synonym keyword)
                                        then special_values vals else vals)
                            = the_others vals).
  { intros vals. destruct (special_keyword (synonym keyword)); [| done].
    apply the_others_special. }
  rewrite Hothers, the_others_app. cbn [the_others]. rewrite the_others_words.
  rewrite match_regexps_last.
  - reflexivity.
  - clear -Hbefore. induction Hbefore as [|i l Hi Hl IH]; [constructor |].
    destruct i as [s|r'|v]; simpl; [done | by constructor | done].
  - apply length_match_strings.
Qed.

Lemma last_regular_expression_decides_witness :
  getBoolArray initial_catalog None ∅
    {| selstr := "name A _";
       parsed := Some (Words (IStr "name" :: [IStr "A"] ++ IRegex (starts_with_letter "B")
                                :: List.map IStr [])) |}
    Examples.three_atoms
  = (Examples.three_atoms,
     Ok (List.map (re_match (starts_with_letter "B")) ["A"; "B"; "C"])).
Proof.
  apply (last_regular_expression_decides initial_catalog Examples.three_atoms ∅ _ "name"
           ["A"; "B"; "C"] [IStr "A"] (starts_with_letter "B") []).
  - vm_compute. reflexivity.
  - apply (bool_decide_unpack _). vm_compute. exact I.
  - vm_compute. reflexivity.
  - repeat constructor.
  - vm_compute. reflexivity.
  - reflexivity.
Defined.

(** ** Reading and changing the tables *)

(** X10.  A macro that [defSelectionMacro] accepts is in the table
    afterwards: [isMacro] holds, [getSelectionMacro] returns its definition
    and logs nothing, the other macros and the tables of keywords are as
    before; an earlier definition of the name is overwritten.
    [delSelectionMacro] then removes it: [getSelectionMacro] answers [None]
    for the name, and when the name was not defined before, the tables are
    those from before the definition. *)
Theorem defined_macro_is_found_until_deleted
    (ATOMGROUP_select : string → res unit) (c : Catalog) (name body : string) :
  isKeyword name = false →
  Py.isalpha_and_islower name = true →
  ATOMGROUP_select body = Ok tt →
  let defined := defSelectionMacro ATOMGROUP_select c name body in
  let deleted := delSelectionMacro (tables defined) name in
  result defined = Ok tt
  ∧ isMacro (tables defined) name = true
  ∧ getSelectionMacro (tables defined) (Some name) = ([], TheMacro body)
  ∧ (∀ other, other ≠ name → MACROS (tables defined) !! other = MACROS c !! other)
  ∧ tables defined = with_macros c (MACROS (tables defined))
  ∧ result deleted = Ok tt
  ∧ isMacro (tables deleted) name = false
  ∧ snd (getSelectionMacro (tables deleted) (Some name)) = NoAnswer
  ∧ (MACROS c !! name = None → tables deleted = c).
Proof.
  intros Hkw Hname Hsel defined deleted.
  assert (Hdef : defined
                 = {| tables := with_macros c (<[name := body]> (MACROS c));
                      logged := [(INFO, "Testing validity of selection string:");
                                 (INFO, "Macro " +:+ quoted name +:+ " is defined as "
                                        +:+ quoted body +:+ ".")];
                      result := Ok tt |}).
  { unfold defined, defSelectionMacro. rewrite Hkw, Hname, Hsel. reflexivity. }
  assert (Hdel : deleted
                 = {| tables := with_macros (tables defined)
                                  (delete name (MACROS (tables defined)));
                      logged := [(INFO, "Macro " +:+ quoted name +:+ " is deleted.")];
                      result := Ok tt |}).
  { unfold deleted, delSelectionMacro. rewrite Hdef. cbn [tables with_macros MACROS].
    by rewrite lookup_insert_eq. }
  rewrite Hdel. rewrite Hdef. cbn [tables result with_macros MACROS].
  split_and!.
  - done.
  - unfold isMacro. cbn [MACROS with_macros]. apply bool_decide_eq_true. by rewrite lookup_insert_eq.
  - unfold getSelectionMacro. cbn [MACROS with_macros]. by rewrite lookup_insert_eq.
  - intros other Hne. by rewrite lookup_insert_ne.
  - done.
  - done.
  - unfold isMacro. cbn [MACROS with_macros]. apply bool_decide_eq_false.
    rewrite lookup_delete_eq. by intros [x Hx].
  - unfold getSelectionMacro. cbn [MACROS with_macros]. by rewrite lookup_delete_eq.
  - intros Hnone. rewrite delete_insert_id by done. by destruct c.
Qed.

Lemma defined_macro_is_found_until_deleted_witness :
  let defined := defSelectionMacro Examples.reference_select initial_catalog
                   "cbeta" "name CB and protein" in
  let deleted := delSelectionMacro (tables defined) "cbeta" in
  result defined = Ok tt
  ∧ isMacro (tables defined) "cbeta" = true
  ∧ getSelectionMacro (tables defined) (Some "cbeta") = ([], TheMacro "name CB and protein")
  ∧ (∀ other, other ≠ "cbeta"
              → MACROS (tables defined) !! other = MACROS initial_catalog !! other)
  ∧ tables defined = with_macros initial_catalog (MACROS (tables defined))
  ∧ result deleted = Ok tt
  ∧ isMacro (tables deleted) "cbeta" = false
  ∧ snd (getSelectionMacro (tables deleted) (Some "cbeta")) = NoAnswer
  ∧ (MACROS initial_catalog !! "cbeta" = None → tables deleted = initial_catalog).
Proof.
  apply (defined_macro_is_found_until_deleted Examples.reference_select initial_catalog
           "cbeta" "name CB and protein"); vm_compute; reflexivity.
Defined.

(** *** Sorted lists of names *)

Lemma sort_insert_perm (s : string) (l : list string) : Py.sort_insert s l ≡ₚ s :: l.
Proof.
  induction l as [|x l IH]; simpl; [done |].
  destruct (String.leb s x); [done |].
  rewrite IH. apply perm_swap.
Qed.

Lemma sorted_perm (l : list string) : Py.sorted l ≡ₚ l.
Proof.
  induction l as [|x l IH]; simpl; [done |].
  rewrite sort_insert_perm. by rewrite IH.
Qed.

Lemma sort_insert_HdRel (x s : string) (l : list string) :
  Py.in_order x s → HdRel Py.in_order x l → HdRel Py.in_order x (Py.sort_insert s l).
Proof.
  intros Hxs Hl. destruct l as [|y l]; simpl; [by constructor |].
  destruct (String.leb s y); constructor; [done |]. by inversion Hl.
Qed.

Lemma sort_insert_sorted (s : string) (l : list string) :
  Sorted Py.in_order l → Sorted Py.in_order (Py.sort_insert s l).
Proof.
  induction 1 as [|x l Hl IH Hx]; simpl.
  - by repeat constructor.
  - destruct (String.leb s x) eqn:E.
    + constructor; [by constructor | by constructor].
    + constructor; [done |]. apply sort_insert_HdRel; [| done].
      destruct (String.leb_total s x) as [H | H]; [congruence | done].
Qed.

Lemma sorted_sorted (l : list string) : Sorted Py.in_order (Py.sorted l).
Proof.
  induction l as [|x l IH]; simpl; [constructor |]. by apply sort_insert_sorted.
Qed.

Lemma elem_of_sorted (l : list string) (x : string) : x ∈ Py.sorted l ↔ x ∈ l.
Proof. by rewrite sorted_perm. Qed.

(** X11.  [getBackboneAtomNames] after [setBackboneAtomNames]: the names
    returned are those given, each once, in increasing order; the names of
    the other of the two sets (backbone, full backbone) are as before. *)
Theorem backbone_names_are_returned_sorted (c : Catalog) (names : list string)
    (full : bool) :
  let after := tables (setBackboneAtomNames c names full) in
  result (setBackboneAtomNames c names full) = Ok tt
  ∧ (∀ x, x ∈ getBackboneAtomNames after full ↔ x ∈ names)
  ∧ NoDup (getBackboneAtomNames after full)
  ∧ Sorted Py.in_order (getBackboneAtomNames after full)
  ∧ getBackboneAtomNames after (negb full) = getBackboneAtomNames c (negb full).
Proof.
  cbv zeta. unfold setBackboneAtomNames, getBackboneAtomNames.
  cbn [tables result _buildKeywordMap with_keyword_map with_backbone
       BACKBONE_ATOM_NAMES BACKBONE_FULL_ATOM_NAMES].
  assert (Hcase : (if full
                   then if full then list_of_set names else BACKBONE_FULL_ATOM_NAMES c
                   else if full then BACKBONE_ATOM_NAMES c else list_of_set names)
                  = list_of_set names) by (by destruct full).
  rewrite Hcase. split_and!.
  - done.
  - intros x. rewrite elem_of_sorted. apply elem_of_list_of_set.
  - rewrite sorted_perm. apply NoDup_remove_dups.
  - apply sorted_sorted.
  - by destruct full.
Qed.

(** The entries [_buildKeywordMap()] writes from a table. *)
Lemma lookup_map_fold_insert {A B} (g : A → B) (init : gmap string B)
    (source : gmap string A) (k : string) :
  map_fold (fun key x m => <[key := g x]> m) init source !! k
  = match source !! k with
    | Some x => Some (g x)
    | None => init !! k
    end.
Proof.
  revert k.
  apply (map_fold_weak_ind
           (fun (r : gmap string B) (m : gmap string A) =>
              ∀ k, r !! k = match m !! k with
                            | Some x => Some (g x)
                            | None => init !! k
                            end)).
  - intros k. by rewrite lookup_empty.
  - intros i x m r Hi IH k. destruct (decide (k = i)) as [-> | Hne].
    + by rewrite !lookup_insert_eq.
    + rewrite !lookup_insert_ne by done. apply IH.
Qed.

(** X12.  [setBackboneAtomNames] builds the table of keywords anew, so
    the keywords follow at once: "backbone" and "bb" expand to the given
    names (and the residue names of "protein"), "backbonefull" and "bbfull"
    to the given full names, "sidechain" and "sc" to their negation.  (None
    of the six words names a regular expression of elements.) *)
Theorem backbone_keywords_follow_the_names (c : Catalog) (names : list string) :
  (∀ k, k ∈ ["backbone"; "bb"; "backbonefull"; "bbfull"; "sidechain"; "sc"]
        → KEYWORD_NAME_REGEX c !! k = None) →
  let protein := List.map IStr (resnames_of (KEYWORD_RESNAMES c) "protein") in
  let given := List.map IStr (list_of_set names) in
  let short := tables (setBackboneAtomNames c names false) in
  let long := tables (setBackboneAtomNames c names true) in
  expandBoolean short "backbone"
    = Some (IStr "name" :: given ++ IStr AND :: IStr "resname" :: protein)
  ∧ expandBoolean short "bb"
    = Some (IStr "name" :: given ++ IStr AND :: IStr "resname" :: protein)
  ∧ expandBoolean long "backbonefull"
    = Some (IStr "name" :: given ++ IStr AND :: IStr "resname" :: protein)
  ∧ expandBoolean long "bbfull"
    = Some (IStr "name" :: given ++ IStr AND :: IStr "resname" :: protein)
  ∧ expandBoolean long "sidechain"
    = Some (IStr NOT :: IStr "name" :: given ++ IStr AND :: IStr "resname" :: protein)
  ∧ expandBoolean long "sc"
    = Some (IStr NOT :: IStr "name" :: given ++ IStr AND :: IStr "resname" :: protein).
Proof.
  intros Hregex. cbv zeta.
  assert (Hk : ∀ k, k ∈ ["backbone"; "bb"; "backbonefull"; "bbfull"; "sidechain"; "sc"]
                → ∀ full, KEYWORD_NAME_REGEX (with_backbone c full (list_of_set names)) !! k
                          = None).
  { intros k Hin full. by apply Hregex. }
  unfold setBackboneAtomNames. cbn [tables].
  unfold expandBoolean, _buildKeywordMap. cbv zeta. cbn [KEYWORD_MAP with_keyword_map].
  split_and!;
    (rewrite !lookup_insert_ne by discriminate;
     rewrite lookup_map_fold_insert, Hk
       by (apply (bool_decide_unpack _); vm_compute; exact I);
     lookup_inserted;
     cbn [atom_names an_invert residue_names rn_invert protein_atoms
          BACKBONE_ATOM_NAMES BACKBONE_FULL_ATOM_NAMES KEYWORD_RESNAMES with_backbone];
     cbn [app]; rewrite <- ?app_assoc; reflexivity).
Qed.

Lemma backbone_keywords_follow_the_names_witness :
  let protein := List.map IStr (resnames_of (KEYWORD_RESNAMES initial_catalog) "protein") in
  let given := List.map IStr (list_of_set ["CA"; "N"]) in
  let short := tables (setBackboneAtomNames initial_catalog ["CA"; "N"] false) in
  let long := tables (setBackboneAtomNames initial_catalog ["CA"; "N"] true) in
  expandBoolean short "backbone"
    = Some (IStr "name" :: given ++ IStr AND :: IStr "resname" :: protein)
  ∧ expandBoolean short "bb"
    = Some (IStr "name" :: given ++ IStr AND :: IStr "resname" :: protein)
  ∧ expandBoolean long "backbonefull"
    = Some (IStr "name" :: given ++ IStr AND :: IStr "resname" :: protein)
  ∧ expandBoolean long "bbfull"
    = Some (IStr "name" :: given ++ IStr AND :: IStr "resname" :: protein)
  ∧ expandBoolean long "sidechain"
    = Some (IStr NOT :: IStr "name" :: given ++ IStr AND :: IStr "resname" :: protein)
  ∧ expandBoolean long "sc"
    = Some (IStr NOT :: IStr "name" :: given ++ IStr AND :: IStr "resname" :: protein).
Proof.
  apply (backbone_keywords_follow_the_names initial_catalog ["CA"; "N"]).
  intros k Hk. repeat (apply elem_of_cons in Hk as [-> | Hk]; [vm_compute; reflexivity |]).
  by apply elem_of_nil in Hk.
Defined.

(** X13.  [setAtomNameRegex] raises [ValueError] and changes no table for
    a name that is not an element keyword or an expression that does not
    compile.  Otherwise [getAtomNameRegex] returns the pattern of the new
    expression, the expressions of the other names and the table
    [KEYWORD_MAP] are as before ([_buildKeywordMap()] is not called), and
    once [_buildKeywordMap()] runs the keyword expands to the new
    expression ("carbon" apart, which excludes the ions). *)
Theorem setAtomNameRegex_contract (RE_compile : string → option regex)
    (c : Catalog) (name regex : string) :
  let after := setAtomNameRegex RE_compile c name regex in
  (KEYWORD_NAME_REGEX c !! name = None ∨ RE_compile regex = None →
     result after = Raise ValueError ∧ tables after = c)
  ∧ (∀ r, is_Some (KEYWORD_NAME_REGEX c !! name) → RE_compile regex = Some r →
       result after = Ok tt
       ∧ getAtomNameRegex (tables after) name = ([], Some (pattern r))
       ∧ (∀ other, other ≠ name →
            getAtomNameRegex (tables after) other = getAtomNameRegex c other)
       ∧ KEYWORD_MAP (tables after) = KEYWORD_MAP c
       ∧ (name ≠ "carbon" → name ≠ "noh" →
            expandBoolean (_buildKeywordMap (tables after)) name
            = Some [IStr "name"; IRegex r])).
Proof.
  cbv zeta. unfold setAtomNameRegex. split.
  - intros [Hnone | Hcomp].
    + rewrite Hnone. rewrite bool_decide_eq_false_2 by (by intros [x Hx]). done.
    + rewrite Hcomp. by destruct (bool_decide _).
  - intros r Hsome Hcomp. rewrite (bool_decide_eq_true_2 _ Hsome), Hcomp.
    cbn [tables result]. split_and!.
    + done.
    + unfold getAtomNameRegex. cbn [KEYWORD_NAME_REGEX with_name_regex].
      by rewrite lookup_insert_eq.
    + intros other Hne. unfold getAtomNameRegex. cbn [KEYWORD_NAME_REGEX with_name_regex].
      by rewrite lookup_insert_ne.
    + done.
    + intros Hcarbon Hnoh.
      unfold expandBoolean, _buildKeywordMap. cbv zeta.
      cbn [KEYWORD_MAP with_keyword_map].
      rewrite !lookup_insert_ne by done.
      rewrite lookup_map_fold_insert. cbn [KEYWORD_NAME_REGEX with_name_regex].
      rewrite lookup_insert_eq. reflexivity.
Qed.

Lemma setAtomNameRegex_contract_witness :
  let compile := fun s => if String.eqb s "(" then None else Some (starts_with_letter s) in
  (result (setAtomNameRegex compile initial_catalog "nitrogen" "(") = Raise ValueError
   ∧ tables (setAtomNameRegex compile initial_catalog "nitrogen" "(") = initial_catalog)
  ∧ (result (setAtomNameRegex compile initial_catalog "nitrogen" "NZ") = Ok tt
     ∧ getAtomNameRegex (tables (setAtomNameRegex compile initial_catalog "nitrogen" "NZ"))
         "nitrogen"
       = ([], Some (pattern (starts_with_letter "NZ")))).
Proof.
  intros compile. split.
  - apply (setAtomNameRegex_contract compile initial_catalog "nitrogen" "(").
    right. reflexivity.
  - destruct (setAtomNameRegex_contract compile initial_catalog "nitrogen" "NZ")
      as [_ H].
    destruct (H (starts_with_letter "NZ")) as (H1 & H2 & _).
    + vm_compute. eexists. reflexivity.
    + reflexivity.
    + split; [exact H1 | exact H2].
Defined.

(** X14.  [getReservedWords()] lists exactly the words [isReserved]
    accepts, each once and in increasing order. *)
Theorem reserved_words_are_those_listed :
  (∀ word, word ∈ getReservedWords ↔ isReserved word = true)
  ∧ NoDup getReservedWords
  ∧ Sorted Py.in_order getReservedWords.
Proof.
  unfold getReservedWords. split_and!.
  - intros word. rewrite elem_of_sorted, elem_of_list_of_set, !elem_of_app.
    unfold isReserved, isKeyword, isBooleanKeyword, isValuePairedKeyword.
    rewrite !orb_true_iff, !bool_decide_eq_true. tauto.
  - rewrite sorted_perm. apply NoDup_remove_dups.
  - apply sorted_sorted.
Qed.

(** ** Comparisons and arithmetic *)

Lemma comparison_is_in_BINOP_MAP (op : string) (cmp : Q → Q → bool) :
  lookup_op COMPARISONS op = Some cmp → in_BINOP_MAP op = true.
Proof.
  unfold lookup_op, COMPARISONS. cbn [List.find fst].
  repeat (destruct (String.eqb _ op) eqn:E;
          [apply String.eqb_eq in E as <-; intros _; vm_compute; reflexivity | clear E]).
  discriminate.
Qed.

Lemma broadcast_left {A B C} (f : A → B → C) (x : A) (l : list B) :
  Np.broadcast f [x] l = Ok (List.map (f x) l).
Proof. reflexivity. Qed.

Lemma broadcast_right {A B C} (f : A → B → C) (l : list A) (y : B) :
  Np.broadcast f l [y] = Ok (List.map (fun x => f x y) l).
Proof. destruct l as [|x [|x' l]]; reflexivity. Qed.

Lemma zip_same_map {A} (f g : A → bool) (l : list A) :
  Np.zip_same andb (List.map f l) (List.map g l)
  = Ok (List.map (fun x => f x && g x)%bool l).
Proof. induction l as [|x l IH]; simpl; [done |]. by rewrite IH. Qed.

Lemma times_maps {A} (f g : A → bool) (l : list A) :
  times (VArr (BoolArr (List.map f l))) (VArr (BoolArr (List.map g l)))
  = Ok (VArr (BoolArr (List.map (fun x => f x && g x)%bool l))).
Proof.
  destruct l as [|x [|x' l]]; [reflexivity | reflexivity |].
  unfold times. change (List.map g (x :: x' :: l)) with (g x :: g x' :: List.map g l).
  cbv iota. change (g x :: g x' :: List.map g l) with (List.map g (x :: x' :: l)).
  by rewrite zip_same_map.
Qed.

Lemma numeric_resnum (ag : AtomGroup) (kw : gmap string (list point)) (rs : list Z) :
  _fields ag !! "resnum" = Some (IntArr rs) →
  numeric (selector ag None kw) (IStr "resnum") ag = (ag, Ok (VRef (LField "resnum"))).
Proof.
  intros Hrs. unfold numeric, _evalNumeric.
  replace (isFloatKeyword "resnum") with false by (vm_compute; reflexivity).
  replace (bool_decide ("resnum" ∈ ["resnum"; "resid"])) with true
    by (vm_compute; reflexivity).
  unfold _resnum, bind. rewrite (getData_resnum ag kw rs Hrs). reflexivity.
Qed.

Lemma bind_Ok {A B} (m : M A) (k : A → M B) (ag ag' : AtomGroup) (a : A) :
  m ag = (ag', Ok a) → bind m k ag = k a ag'.
Proof. intros H. unfold bind. by rewrite H. Qed.

Lemma bind_Raise {A B} (m : M A) (k : A → M B) (ag ag' : AtomGroup) (e : exn) :
  m ag = (ag', Raise e) → bind m k ag = (ag', Raise e).
Proof. intros H. unfold bind. by rewrite H. Qed.

Lemma compare_scalar_with_resnum (ag : AtomGroup) (self : Select) (rs : list Z)
    (op : string) (cmp : Q → Q → bool) (q : Q) :
  _fields ag !! "resnum" = Some (IntArr rs) →
  lookup_op COMPARISONS op = Some cmp →
  apply_BINOP self (IStr op) (VFloat q) (VRef (LField "resnum")) ag
  = (ag, Ok (VArr (BoolArr (List.map (fun r => cmp q (inject_Z r)) rs)))).
Proof.
  intros Hrs Hop. unfold apply_BINOP. rewrite (comparison_is_in_BINOP_MAP _ _ Hop).
  rewrite (bind_Ok _ _ ag ag (OScalar q)) by reflexivity.
  rewrite (bind_Ok _ _ ag ag (OInts rs)).
  2:{ unfold operand_of. rewrite (bind_Ok _ _ ag ag (IntArr rs)); [done |].
      cbn [deref read]. by rewrite Hrs. }
  unfold lift, BINOP. rewrite Hop. cbn [floats_of]. rewrite broadcast_left.
  cbn [res_bind]. by rewrite map_map.
Qed.

Lemma compare_resnum_with_scalar (ag : AtomGroup) (self : Select) (rs : list Z)
    (op : string) (cmp : Q → Q → bool) (q : Q) :
  _fields ag !! "resnum" = Some (IntArr rs) →
  lookup_op COMPARISONS op = Some cmp →
  apply_BINOP self (IStr op) (VRef (LField "resnum")) (VFloat q) ag
  = (ag, Ok (VArr (BoolArr (List.map (fun r => cmp (inject_Z r) q) rs)))).
Proof.
  intros Hrs Hop. unfold apply_BINOP. rewrite (comparison_is_in_BINOP_MAP _ _ Hop).
  rewrite (bind_Ok _ _ ag ag (OInts rs)).
  2:{ unfold operand_of. rewrite (bind_Ok _ _ ag ag (IntArr rs)); [done |].
      cbn [deref read]. by rewrite Hrs. }
  rewrite (bind_Ok _ _ ag ag (OScalar q)) by reflexivity.
  unfold lift, BINOP. rewrite Hop. cbn [floats_of]. rewrite broadcast_right.
  cbn [res_bind]. by rewrite map_map.
Qed.

(** X15.  A chain of two comparisons around the residue numbers,
    [lo op1 resnum op2 hi], selects the atoms for which both comparisons
    hold, for every pair of comparison operators; the stored column is not
    changed.  A group of four tokens or more with an even number of tokens
    is a [SelectionError]. *)
Theorem chained_comparison_is_a_conjunction (ag : AtomGroup)
    (kw : gmap string (list point)) (rs : list Z) (op1 op2 : string)
    (cmp1 cmp2 : Q → Q → bool) (lo hi : Q) (tokens : list item) :
  _fields ag !! "resnum" = Some (IntArr rs) →
  lookup_op COMPARISONS op1 = Some cmp1 →
  lookup_op COMPARISONS op2 = Some cmp2 →
  _comp (selector ag None kw)
    [IVal (VFloat lo); IStr op1; IStr "resnum"; IStr op2; IVal (VFloat hi)] ag
  = (ag, Ok (Some (VArr (BoolArr
       (List.map (fun r => cmp1 lo (inject_Z r) && cmp2 (inject_Z r) hi)%bool rs)))))
  ∧ ((3 ≤ length tokens)%nat → Nat.Even (length tokens) →
     _comp (selector ag None kw) tokens ag = (ag, Raise SelectionError)).
Proof.
  intros Hrs Hop1 Hop2. split.
  - unfold _comp.
    replace (Nat.leb 3 (length [IVal (VFloat lo); IStr op1; IStr "resnum"; IStr op2;
                                IVal (VFloat hi)])
             && negb (Nat.eqb (length [IVal (VFloat lo); IStr op1; IStr "resnum";
                                       IStr op2; IVal (VFloat hi)] mod 2) 1))%bool
      with false by reflexivity.
    rewrite (bind_Ok _ _ ag ag (VFloat lo)) by reflexivity.
    cbn [comp_loop].
    rewrite (bind_Ok _ _ ag ag (VRef (LField "resnum")))
      by (by apply (numeric_resnum ag kw rs)).
    rewrite (bind_Ok _ _ ag ag _ (compare_scalar_with_resnum ag _ rs op1 cmp1 lo Hrs Hop1)).
    rewrite (bind_Ok _ _ ag ag _ eq_refl).
    rewrite (bind_Ok _ _ ag ag (VFloat hi)) by reflexivity.
    rewrite (bind_Ok _ _ ag ag _ (compare_resnum_with_scalar ag _ rs op2 cmp2 hi Hrs Hop2)).
    unfold lift. rewrite (bind_Ok _ _ ag ag _
                            (f_equal (pair ag)
                               (times_maps (fun r => cmp1 lo (inject_Z r))
                                  (fun r => cmp2 (inject_Z r) hi) rs))).
    reflexivity.
  - intros Hlen Heven. unfold _comp.
    replace (Nat.leb 3 (length tokens)) with true by (symmetry; by apply Nat.leb_le).
    assert (Hmod : length tokens mod 2 = 0%nat).
    { destruct Heven as [k ->]. rewrite Nat.mul_comm. apply Nat.Div0.mod_mul. }
    rewrite Hmod. reflexivity.
Qed.

Lemma chained_comparison_is_a_conjunction_witness :
  _comp Examples.whole_group
    [IVal (VFloat 4); IStr "<"; IStr "resnum"; IStr "<="; IVal (VFloat 12)]
    Examples.three_atoms
  = (Examples.three_atoms,
     Ok (Some (VArr (BoolArr
       (List.map (fun r => Qlt_bool 4 (inject_Z r) && Qle_bool (inject_Z r) 12)%bool
          [5; 12; 15]%Z)))))
  ∧ ((3 ≤ length [IStr "x"; IStr "<"; IStr "y"; IStr "<"])%nat →
     Nat.Even (length [IStr "x"; IStr "<"; IStr "y"; IStr "<"]) →
     _comp Examples.whole_group [IStr "x"; IStr "<"; IStr "y"; IStr "<"]
       Examples.three_atoms
     = (Examples.three_atoms, Raise SelectionError)).
Proof.
  apply (chained_comparison_is_a_conjunction Examples.three_atoms ∅ [5; 12; 15]%Z
           "<" "<=" Qlt_bool Qle_bool 4 12 [IStr "x"; IStr "<"; IStr "y"; IStr "<"]);
    vm_compute; reflexivity.
Defined.

(** X16.  The remainder by a scalar that is zero: only "/" is guarded in
    [_mul], so for two scalars Python's own [ZeroDivisionError] comes out
    of "%", whatever follows in the group, where a division raises
    [SelectionError]. *)
Theorem remainder_by_scalar_zero_raises_ZeroDivisionError (self : Select)
    (a zero : Q) (rest : list item) (ag : AtomGroup) :
  Qeq_bool zero 0 = true →
  _mul self (IVal (VFloat a) :: IStr "%" :: IVal (VFloat zero) :: rest) ag
    = (ag, Raise ZeroDivisionError)
  ∧ _mul self (IVal (VFloat a) :: IStr "/" :: IVal (VFloat zero) :: rest) ag
    = (ag, Raise SelectionError).
Proof.
  intros Hzero. split.
  - unfold _mul. unfold bind at 1.
    change (numeric self (IVal (VFloat a)) ag) with (ag, @Ok value (VFloat a)).
    cbv iota beta. cbn [mul_loop]. unfold bind at 1.
    change (numeric self (IVal (VFloat zero)) ag) with (ag, @Ok value (VFloat zero)).
    cbv iota beta. cbn [is_word]. replace (String.eqb "%" "/") with false by reflexivity.
    unfold bind at 1. cbn [ret]. unfold bind at 1.
    unfold apply_BINOP. replace (in_BINOP_MAP "%") with true by (vm_compute; reflexivity).
    unfold bind, operand_of, ret, lift. unfold BINOP.
    replace (lookup_op COMPARISONS "%") with (@None (Q → Q → bool))
      by (vm_compute; reflexivity).
    unfold arith_Q. cbn [String.eqb Ascii.eqb Bool.eqb]. rewrite Hzero. reflexivity.
  - unfold _mul. unfold bind at 1.
    change (numeric self (IVal (VFloat a)) ag) with (ag, @Ok value (VFloat a)).
    cbv iota beta. cbn [mul_loop]. unfold bind at 1.
    change (numeric self (IVal (VFloat zero)) ag) with (ag, @Ok value (VFloat zero)).
    cbv iota beta. cbn [is_word]. replace (String.eqb "/" "/") with true by reflexivity.
    unfold bind at 1. cbn [equals_zero ret]. rewrite Hzero. reflexivity.
Qed.

Lemma remainder_by_scalar_zero_raises_ZeroDivisionError_witness :
  _mul Examples.whole_group
    (IVal (VFloat 5) :: IStr "%" :: IVal (VFloat 0) :: [IStr "*"; IStr "resnum"])
    Examples.three_atoms
  = (Examples.three_atoms, Raise ZeroDivisionError)
  ∧ _mul Examples.whole_group
      (IVal (VFloat 5) :: IStr "/" :: IVal (VFloat 0) :: [IStr "*"; IStr "resnum"])
      Examples.three_atoms
    = (Examples.three_atoms, Raise SelectionError).
Proof.
  apply (remainder_by_scalar_zero_raises_ZeroDivisionError Examples.whole_group 5 0
           [IStr "*"; IStr "resnum"] Examples.three_atoms).
  reflexivity.
Defined.




(** ** Expanding a selection *)

Lemma elem_of_insert_sorted (x z : Z) (l : list Z) :
  x ∈ Np.insert_sorted z l ↔ x = z ∨ x ∈ l.
Proof.
  induction l as [|y l IH]; simpl.
  - rewrite elem_of_cons, elem_of_nil. tauto.
  - destruct (z <? y)%Z; [by rewrite elem_of_cons |].
    destruct (z =? y)%Z eqn:E.
    + apply Z.eqb_eq in E as ->. rewrite elem_of_cons. tauto.
    + rewrite !elem_of_cons, IH. tauto.
Qed.

Lemma elem_of_unique (x : Z) (l : list Z) : x ∈ Np.unique l ↔ x ∈ l.
Proof.
  unfold Np.unique. induction l as [|y l IH]; simpl; [done |].
  rewrite elem_of_insert_sorted, elem_of_cons, IH. done.
Qed.

Lemma compress_elem {A} (a : list A) :
  ∀ (mask : list bool), length a = length mask →
    ∃ r, Np.compress a mask = Ok r
         ∧ ∀ x, x ∈ r ↔ ∃ j, a !! j = Some x ∧ mask !! j = Some true.
Proof.
  induction a as [|y a IH]; intros [|b mask] Hlen; try discriminate.
  - exists []. split; [done |]. intros x. split.
    + intros H. by apply elem_of_nil in H.
    + intros (j & H & _). discriminate.
  - injection Hlen as Hlen. destruct (IH mask Hlen) as (r & Hr & Hin).
    cbn [Np.compress]. rewrite Hr. cbn [res_bind]. eexists. split; [done |].
    intros x. split.
    + intros Hx. destruct b.
      * apply elem_of_cons in Hx as [-> | Hx]; [by exists 0%nat |].
        apply Hin in Hx as (j & Hj1 & Hj2). by exists (S j).
      * apply Hin in Hx as (j & Hj1 & Hj2). by exists (S j).
    + intros ([|j] & Hj1 & Hj2); cbn in Hj1, Hj2.
      * injection Hj1 as ->. injection Hj2 as ->. left.
      * assert (x ∈ r) by (apply Hin; eauto). destruct b; [by right | done].
Qed.

Lemma float_items_ints (d : list Q) (zs : list Z) :
  ∀ h : Q → bool,
    float_items d (List.map NInt zs) (List.map h d)
    = Ok (Some (List.map
                  (fun r => h r || existsb (fun z => Qeq_bool (inject_Z z) r) zs)%bool d)).
Proof.
  induction zs as [|z zs IH]; intros h; simpl.
  - do 2 f_equal. apply map_ext. intros r. by rewrite orb_false_r.
  - rewrite (set_where_map d h). cbn [res_bind]. rewrite IH. do 2 f_equal.
    apply map_ext. intros r. by rewrite orb_assoc.
Qed.

(** X18.  "same residue as G", "same chain as G" and "same segment as G"
    for a mask [G] of an atom group: an atom is selected exactly when an
    atom of [G] has the same residue (chain, segment) index, so every atom
    of [G] is selected and a residue is selected as a whole; the mask has
    the length of the group, and the group is left as it is. *)
Theorem same_as_selects_whole_units (cat : Catalog) (ag : AtomGroup)
    (kw : gmap string (list point)) (what key : string) (units : list Z)
    (g : list bool) :
  (what, key) ∈ [("residue", "resindex"); ("chain", "chindex"); ("segment", "segindex")] →
  _fields ag !! key = Some (IntArr units) →
  length g = length units →
  ∃ m : list bool,
    _unary cat (selector ag None kw) [IStr ("same " +:+ what +:+ " as"); mask_item g] ag
      = (ag, Ok (VArr (BoolArr m)))
    ∧ length m = length units
    ∧ (∀ i, m !! i = Some true
            ↔ ∃ j u, g !! j = Some true ∧ units !! j = Some u ∧ units !! i = Some u)
    ∧ (∀ i, g !! i = Some true → m !! i = Some true).
Proof.
  intros Hwhat Hunits Hlen.
  destruct (compress_elem units g (eq_sym Hlen)) as (picked & Hpicked & Hin).
  set (m := List.map (fun u => existsb (fun z => Qeq_bool (inject_Z z) (inject_Z u))
                                (Np.unique picked)) units).
  assert (Hm : ∀ i, m !! i = Some true
                    ↔ ∃ j u, g !! j = Some true ∧ units !! j = Some u ∧ units !! i = Some u).
  { intros i. unfold m. rewrite lookup_map. split.
    - destruct (units !! i) as [u|] eqn:Hu; [| discriminate]. cbn. intros [= H].
      apply existsb_exists in H as (z & Hz & Heq).
      apply Qeq_bool_inject in Heq as ->.
      apply list_elem_of_In, elem_of_unique, Hin in Hz as (j & Hj1 & Hj2).
      by exists j, u.
    - intros (j & u & Hj & Hu & Hi). rewrite Hi. cbn. f_equal.
      apply existsb_exists. exists u. split; [| by apply Qeq_bool_inject].
      apply list_elem_of_In, elem_of_unique, Hin. by exists j. }
  exists m. split_and!.
  - assert (Hkey : bool_decide (key ∈ ATOMIC_DATA_FIELDS) = true
                   ∧ bool_decide (key ∈ ["x"; "y"; "z"]) = false
                   ∧ Py.startswith "same" ("same " +:+ what +:+ " as") = true
                   ∧ String.eqb ("same " +:+ what +:+ " as") NOT = false
                   ∧ Py.split ("same " +:+ what +:+ " as") = ["same"; what; "as"]
                   ∧ (if String.eqb what "residue" then Some "resindex"
                      else if String.eqb what "chain" then Some "chindex"
                      else if String.eqb what "segment" then Some "segindex"
                      else None) = Some key).
    { repeat (apply elem_of_cons in Hwhat as [[= -> ->] | Hwhat];
              [vm_compute; repeat split; reflexivity |]).
      by apply elem_of_nil in Hwhat. }
    destruct Hkey as (Hfield & Hxyz & Hsame & Hnot & Hsplit & Hmap).
    unfold _unary. rewrite Hnot, Hsame.
    assert (Hsameas : _sameas cat (selector ag None kw)
                        [IStr ("same " +:+ what +:+ " as"); mask_item g] ag
                      = (ag, Ok (Some (VArr (BoolArr m))))).
    { unfold _sameas, mask_item. rewrite Hsplit. cbn [is_array].
      rewrite (bind_Ok _ _ ag ag (Some (VArr (BoolArr g)))) by reflexivity.
      cbn [is_array]. rewrite Hmap.
      rewrite (bind_Ok _ _ ag ag _ (getData_field ag kw key _ Hfield Hunits)).
      rewrite (bind_Ok _ _ ag ag (IntArr units))
        by (cbn [deref read]; by rewrite Hunits).
      unfold lift at 1. rewrite (bind_Ok _ _ ag ag picked)
        by (by rewrite Hpicked).
      unfold _evalFloat. rewrite Hxyz.
      rewrite (bind_Ok _ _ ag ag _ (getData_field ag kw key _ Hfield Hunits)).
      rewrite (bind_Ok _ _ ag ag (IntArr units))
        by (cbn [deref read]; by rewrite Hunits).
      rewrite (bind_Ok _ _ ag ag (List.map inject_Z units)) by reflexivity.
      rewrite (bind_Ok _ _ ag ag (List.map inject_Z units)) by reflexivity.
      rewrite (bind_Ok _ _ ag ag (Some (List.map NInt (Np.unique picked))))
        by reflexivity.
      rewrite zeros_map.
      rewrite (bind_Ok _ _ ag ag _
                 (f_equal (pair ag) (float_items_ints _ _ (fun _ => false)))).
      unfold ret. cbn [option_map]. rewrite map_map. reflexivity. }
    by rewrite (bind_Ok _ _ ag ag _ Hsameas).
  - unfold m. apply length_map.
  - exact Hm.
  - intros i Hi. apply Hm.
    assert (Hlt : (i < length units)%nat)
      by (rewrite <- Hlen; by apply lookup_lt_Some in Hi).
    destruct (lookup_lt_is_Some_2 units i Hlt) as [u Hu]. by exists i, u.
Qed.

Lemma same_as_selects_whole_units_witness :
  ∃ m : list bool,
    _unary initial_catalog
      (selector {| numAtoms := 3;
                   _fields := {["resindex" := IntArr [0; 0; 1]%Z]};
                   _data := ∅; _coords := None |} None ∅)
      [IStr ("same " +:+ "residue" +:+ " as"); mask_item [true; false; false]]
      {| numAtoms := 3;
         _fields := {["resindex" := IntArr [0; 0; 1]%Z]};
         _data := ∅; _coords := None |}
      = ({| numAtoms := 3;
            _fields := {["resindex" := IntArr [0; 0; 1]%Z]};
            _data := ∅; _coords := None |}, Ok (VArr (BoolArr m)))
    ∧ length m = length [0; 0; 1]%Z
    ∧ (∀ i, m !! i = Some true
            ↔ ∃ j u, [true; false; false] !! j = Some true
                     ∧ [0; 0; 1]%Z !! j = Some u ∧ [0; 0; 1]%Z !! i = Some u)
    ∧ (∀ i, [true; false; false] !! i = Some true → m !! i = Some true).
Proof.
  apply (same_as_selects_whole_units initial_catalog _ ∅ "residue" "resindex"
           [0; 0; 1]%Z [true; false; false]).
  - left.
  - vm_compute. reflexivity.
  - reflexivity.
Defined.

(** ** Distances to given points, and growing the radius *)

Lemma evaluate_unknown_word_fuel (cat : Catalog) (self : Select) (fuel : nat)
    (name : string) (ag : AtomGroup) :
  isBooleanKeyword name = false →
  isNumericKeyword name = false →
  _data ag !! name = None →
  Py.float name = Py.FloatValueError →
  _evaluate cat self (S fuel) (PList [IStr name]) None ag = (ag, Ok None).
Proof.
  intros Hbool Hnum Hdata Hfloat. cbn [_evaluate]. rewrite Hbool, Hnum.
  unfold bind, isData. rewrite Hdata.
  rewrite bool_decide_eq_false_2 by (by intros [x Hx]).
  unfold float_token. by rewrite Hfloat.
Qed.

Lemma existsb_pointwise {A} (f g : A → bool) (l : list A) :
  (∀ x, f x = g x) → existsb f l = existsb g l.
Proof. intros H. induction l as [|x l IH]; simpl; [done |]. by rewrite H, IH. Qed.

Lemma existsb_positions {A} (f : A → bool) (l : list A) :
  existsb (fun w => match l !! w with Some c => f c | None => false end)
    (Np.arange (length l))
  = existsb f l.
Proof.
  apply eq_true_iff_eq. rewrite !existsb_exists. unfold Np.arange. split.
  - intros (w & _ & Hw). destruct (l !! w) as [c|] eqn:E; [| discriminate].
    exists c. split; [| done]. apply list_elem_of_In. by eapply list_elem_of_lookup_2.
  - intros (c & Hc & Hf). apply list_elem_of_In, list_elem_of_lookup in Hc as (w & Hw).
    exists w. split.
    + apply in_seq. apply lookup_lt_Some in Hw. lia.
    + by rewrite Hw.
Qed.

(** X19.  "within R of name" where [name] is bound, in the keyword
    arguments of the call, to the coordinates of some points: an atom of
    the collection is selected exactly when one of the points is at a
    distance of at most [R] from it (the comparison is inclusive), and
    "exwithin" selects the same atoms, as the points are no atoms of the
    collection.  The word is neither a keyword, nor a label of user data,
    nor a number. *)
Theorem within_of_given_points (cat : Catalog) (ag : AtomGroup)
    (atoms : option (list nat)) (kwargs : gmap string (list point))
    (tree coords points : list point) (op name : string) (radius : Q)
    (exclude : bool) :
  _coords ag = Some tree →
  length tree = numAtoms ag →
  _getCoords (selector ag atoms kwargs) ag = (ag, Ok coords) →
  within_radius op = Ok (Some radius) →
  kwargs !! name = Some points →
  isBooleanKeyword name = false →
  isNumericKeyword name = false →
  _data ag !! name = None →
  Py.float name = Py.FloatValueError →
  _within cat (selector ag atoms kwargs) [IStr op; IStr name] exclude ag
  = (ag, Ok (Some (VArr (BoolArr
       (List.map (fun c => existsb (fun p => near radius c p) points) coords))))).
Proof.
  intros Htree Hlen Hget Hop Hpoints Hbool Hnum Hdata Hfloat.
  unfold _within. rewrite Hop.
  rewrite (bind_Ok _ _ ag ag (Some radius)) by reflexivity.
  rewrite (bind_Ok _ _ ag ag None).
  2:{ unfold evaluate. change recursion_limit with (S 999).
      by apply evaluate_unknown_word_fuel. }
  rewrite (bind_Ok _ _ ag ag ag) by reflexivity.
  cbn [_kwargs selector]. rewrite Hpoints, Htree.
  assert (Hsparse : within_sparse (numAtoms ag) tree atoms points
                      (Np.arange (length points)) radius false
                    = Ok (List.map (fun c => existsb (fun p => near radius c p) points)
                            coords)).
  { unfold within_sparse. rewrite sparse_hits_spec.
    2:{ apply Forall_forall. intros w Hw. unfold Np.arange in Hw.
        apply list_elem_of_In, in_seq in Hw. lia. }
    2:{ rewrite zeros_length. lia. }
    cbn [res_bind].
    set (t := imap (fun j x => x || existsb (hit radius tree points j)
                                      (Np.arange (length points)))%bool
                (Np.zeros (numAtoms ag))).
    assert (Ht : t = List.map (fun c => existsb (fun p => near radius c p) points) tree).
    { apply list_eq. intros j. unfold t. rewrite list_lookup_imap, lookup_map.
      destruct (tree !! j) as [c|] eqn:Hc.
      - rewrite zeros_lookup by (rewrite <- Hlen; by apply lookup_lt_Some in Hc).
        cbn. f_equal. rewrite <- (existsb_positions (fun p => near radius c p) points).
        apply existsb_pointwise. intros w. unfold hit. rewrite Hc.
        by destruct (points !! w).
      - cbn. apply lookup_ge_None in Hc.
        rewrite (proj2 (lookup_ge_None (Np.zeros (numAtoms ag)) j)); [done |].
        rewrite zeros_length. lia. }
    unfold _getCoords in Hget. rewrite Htree in Hget. cbn [selector _indices] in Hget.
    destruct atoms as [idx|].
    - injection Hget as Hget. apply take_Ok_inv in Hget as (Hall & Hl & Hlook).
      destruct (take_spec t idx) as (t1 & Ht1 & Hl1 & Hlook1).
      { rewrite Ht, length_map. done. }
      rewrite Ht1. cbn [res_bind]. f_equal. apply list_eq. intros k.
      rewrite lookup_map.
      destruct (idx !! k) as [i|] eqn:Hi.
      + rewrite (Hlook1 k i Hi), (Hlook k i Hi), Ht, lookup_map. done.
      + apply lookup_ge_None in Hi.
        rewrite (proj2 (lookup_ge_None t1 k)) by lia.
        rewrite (proj2 (lookup_ge_None coords k)) by lia. done.
    - injection Hget as <-. cbn [res_bind]. by rewrite Ht. }
  cbn [selector _indices].
  unfold lift. rewrite (bind_Ok _ _ ag ag _ (f_equal (pair ag) Hsparse)).
  reflexivity.
Qed.

Lemma within_of_given_points_witness :
  _within initial_catalog
    (selector Examples.three_atoms (Some [2; 1]) {["target" := [(11, 0, 0)%Q]]})
    [IStr "exwithin 5 of"; IStr "target"] true Examples.three_atoms
  = (Examples.three_atoms,
     Ok (Some (VArr (BoolArr
       (List.map (fun c => existsb (fun p => near 5 c p) [(11, 0, 0)%Q])
          [(10, 0, 0)%Q; (3, 0, 0)%Q]))))).
Proof.
  apply (within_of_given_points initial_catalog Examples.three_atoms (Some [2; 1])
           {["target" := [(11, 0, 0)%Q]]}
           [(0, 0, 0)%Q; (3, 0, 0)%Q; (10, 0, 0)%Q] [(10, 0, 0)%Q; (3, 0, 0)%Q]
           [(11, 0, 0)%Q] "exwithin 5 of" "target" 5 true);
    vm_compute; reflexivity.
Defined.

Lemma near_grows (r1 r2 : Q) (p q : point) :
  (0 <= r1)%Q → (r1 <= r2)%Q → near r1 p q = true → near r2 p q = true.
Proof.
  unfold near. rewrite !Qle_bool_iff. intros H0 H12 H.
  eapply Qle_trans; [exact H |]. unfold sq.
  apply Qmult_le_compat_nonneg; split; done.
Qed.

(** X20.  Growing the radius, or the reference atoms, of "within" only
    adds atoms: for radii [0 <= r1 <= r2] and reference masks [g1] within
    [g2], every atom of "within r1 of g1" is an atom of "within r2 of g2";
    and with no reference atom no atom is selected. *)
Theorem within_grows_with_radius_and_reference (cat : Catalog) (ag : AtomGroup)
    (atoms : option (list nat)) (kwargs : gmap string (list point))
    (tree coords : list point) (g1 g2 : list bool) (op1 op2 : string) (r1 r2 : Q) :
  _coords ag = Some tree →
  length tree = numAtoms ag →
  _getCoords (selector ag atoms kwargs) ag = (ag, Ok coords) →
  length g1 = atomCount ag atoms →
  length g2 = atomCount ag atoms →
  within_radius op1 = Ok (Some r1) →
  within_radius op2 = Ok (Some r2) →
  (0 <= r1)%Q → (r1 <= r2)%Q →
  (∀ i, g1 !! i = Some true → g2 !! i = Some true) →
  ∃ w1 w2 : list bool,
    _within cat (selector ag atoms kwargs) [IStr op1; mask_item g1] false ag
      = (ag, Ok (Some (VArr (BoolArr w1))))
    ∧ _within cat (selector ag atoms kwargs) [IStr op2; mask_item g2] false ag
      = (ag, Ok (Some (VArr (BoolArr w2))))
    ∧ (∀ i, w1 !! i = Some true → w2 !! i = Some true)
    ∧ ((∀ i, g1 !! i ≠ Some true) → ∀ i, w1 !! i ≠ Some true).
Proof.
  intros Htree Hlen Hget Hg1 Hg2 Hop1 Hop2 H0 H12 Hsub.
  exists (within_mask coords (Np.nonzero g1) r1 false),
         (within_mask coords (Np.nonzero g2) r2 false).
  split_and!.
  - by apply (within_on_mask cat ag atoms kwargs tree).
  - by apply (within_on_mask cat ag atoms kwargs tree).
  - intros i. rewrite !within_mask_lookup.
    destruct (coords !! i) as [c|]; [| done]. cbn. intros [= H]. f_equal.
    destruct (bool_decide_reflect (i ∈ Np.nonzero g2)) as [Hi2 | Hi2]; [done |].
    destruct (bool_decide_reflect (i ∈ Np.nonzero g1)) as [Hi1 | Hi1].
    + exfalso. apply Hi2, nonzero_elem, Hsub. by apply nonzero_elem.
    + apply near_any_true in H as (w & cw & Hw & Hcw & Hnear).
      apply near_any_true. exists w, cw. split_and!.
      * apply nonzero_elem, Hsub. by apply nonzero_elem.
      * done.
      * by apply (near_grows r1 r2).
  - intros Hnone i. rewrite within_mask_lookup.
    destruct (coords !! i) as [c|]; [| done]. cbn. intros [= H].
    destruct (bool_decide_reflect (i ∈ Np.nonzero g1)) as [Hi1 | Hi1].
    + apply nonzero_elem in Hi1. by apply (Hnone i).
    + apply near_any_true in H as (w & cw & Hw & _). apply nonzero_elem in Hw.
      by apply (Hnone w).
Qed.

Lemma within_grows_with_radius_and_reference_witness :
  ∃ w1 w2 : list bool,
    _within initial_catalog Examples.whole_group
      [IStr "within 2 of"; mask_item [true; false; false]] false Examples.three_atoms
      = (Examples.three_atoms, Ok (Some (VArr (BoolArr w1))))
    ∧ _within initial_catalog Examples.whole_group
        [IStr "within 5 of"; mask_item [true; true; false]] false Examples.three_atoms
      = (Examples.three_atoms, Ok (Some (VArr (BoolArr w2))))
    ∧ (∀ i, w1 !! i = Some true → w2 !! i = Some true)
    ∧ ((∀ i, [true; false; false] !! i ≠ Some true) → ∀ i, w1 !! i ≠ Some true).
Proof.
  apply (within_grows_with_radius_and_reference initial_catalog Examples.three_atoms
           None ∅ [(0, 0, 0)%Q; (3, 0, 0)%Q; (10, 0, 0)%Q]
           [(0, 0, 0)%Q; (3, 0, 0)%Q; (10, 0, 0)%Q]
           [true; false; false] [true; true; false] "within 2 of" "within 5 of" 2 5);
    try (vm_compute; reflexivity).
  - vm_compute. discriminate.
  - vm_compute. discriminate.
  - intros [|[|[|i]]]; cbn; congruence.
Defined.

(** ** The selection that [select] returns *)

Lemma pick_arange (m : list bool) (k : nat) :
  pick m (seq k (length m)) = Np.nonzero_from k m.
Proof.
  revert k. induction m as [|b m IH]; intros k; simpl; [done |].
  rewrite IH. by destruct b.
Qed.

Lemma pick_sublist {A} (sel : list bool) (l : list A) : sublist (pick sel l) l.
Proof.
  revert l. induction sel as [|b sel IH]; intros [|x l]; simpl;
    try apply sublist_nil_l.
  destruct b; [by apply sublist_skip | by apply sublist_cons].
Qed.

(** X21.  When [getBoolArray] returns a mask of the length of the
    collection, [select] returns [None] if the mask selects no atom, and
    otherwise the indices, in the atom group, of the atoms of the
    collection at which the mask holds, in the order of the collection:
    selecting from a selection stays within it. *)
Theorem select_returns_the_atoms_of_the_mask (cat : Catalog) (ag ag' : AtomGroup)
    (atoms : option (list nat)) (kwargs : gmap string (list point)) (q : query)
    (m : list bool) :
  getBoolArray cat atoms kwargs q ag = (ag', Ok m) →
  length m = atomCount ag atoms →
  let collection := match atoms with
                    | None => Np.arange (numAtoms ag)
                    | Some idx => idx
                    end in
  select cat atoms kwargs q ag
  = (ag', Ok (match pick m collection with [] => None | l => Some l end))
  ∧ sublist (pick m collection) collection
  ∧ (pick m collection = [] ↔ ∀ i, m !! i ≠ Some true).
Proof.
  intros Hmask Hlen collection.
  assert (Hfound : match atoms with
                   | None => Ok (Np.nonzero m)
                   | Some idx => Np.take idx (Np.nonzero m)
                   end = Ok (pick m collection)).
  { unfold collection. destruct atoms as [idx|]; cbn [atomCount] in Hlen.
    - by apply take_nonzero.
    - f_equal. unfold Np.arange. rewrite <- Hlen. symmetry. apply pick_arange. }
  assert (Hlength : length (pick m collection) = length (Np.nonzero m)).
  { apply length_pick. unfold collection. destruct atoms; cbn [atomCount] in Hlen;
      [done |]. unfold Np.arange. by rewrite length_seq. }
  split_and!.
  - unfold select, getIndices.
    rewrite (bind_Ok _ _ ag ag' (Np.nonzero m))
      by (by rewrite (bind_Ok _ _ ag ag' m Hmask)).
    unfold lift. rewrite (bind_Ok _ _ ag' ag' _ (f_equal (pair ag') Hfound)).
    unfold ret. by destruct (pick m collection).
  - apply pick_sublist.
  - split.
    + intros Hnil i Hi. apply nonzero_elem in Hi.
      rewrite Hnil in Hlength. destruct (Np.nonzero m); [| discriminate].
      by apply elem_of_nil in Hi.
    + intros Hnone. destruct (Np.nonzero m) as [|i l] eqn:E.
      * by destruct (pick m collection).
      * exfalso. apply (Hnone i), nonzero_elem. rewrite E. left.
Qed.

Lemma select_returns_the_atoms_of_the_mask_witness :
  select initial_catalog (Some [2; 0]) ∅ (Examples.name_is "A") Examples.three_atoms
  = (Examples.three_atoms,
     Ok (match pick [false; true] [2; 0]%nat with [] => None | l => Some l end))
  ∧ sublist (pick [false; true] [2; 0]%nat) [2; 0]%nat
  ∧ (pick [false; true] [2; 0]%nat = [] ↔ ∀ i, [false; true] !! i ≠ Some true).
Proof.
  apply (select_returns_the_atoms_of_the_mask initial_catalog Examples.three_atoms
           Examples.three_atoms (Some [2; 0]) ∅ (Examples.name_is "A") [false; true]);
    vm_compute; reflexivity.
Defined.

(** ** The chain of "or" in the earlier module *)

Lemma compress_is_pick {A} (a : list A) :
  ∀ mask, length a = length mask → Np.compress a mask = Ok (pick mask a).
Proof.
  induction a as [|x a IH]; intros [|b mask] Hlen; try discriminate; [done |].
  injection Hlen as Hlen. cbn [Np.compress pick]. rewrite IH by done. by destruct b.
Qed.

Lemma pick_map {A B} (f : A → B) (sel : list bool) (l : list A) :
  pick sel (List.map f l) = List.map f (pick sel l).
Proof.
  revert l. induction sel as [|b sel IH]; intros [|x l]; simpl; try done.
  destruct b; simpl; by rewrite IH.
Qed.

Lemma invert_zip_orb (a b : list bool) :
  zip_with andb (Np.invert a) (Np.invert b) = Np.invert (zip_with orb a b).
Proof.
  revert b. induction a as [|x a IH]; intros [|y b]; simpl; try done.
  f_equal; [by destruct x, y | apply IH].
Qed.

Lemma put_const_clears (acc : list bool) :
  Np.put_const (Np.ones (length acc)) (Np.nonzero (Np.invert acc)) false = Ok acc.
Proof.
  rewrite put_const_spec.
  2:{ apply Forall_forall. intros j Hj. apply nonzero_bound in Hj.
      by rewrite length_invert in Hj; rewrite ones_length. }
  f_equal. apply list_eq. intros j. rewrite list_lookup_imap.
  destruct (acc !! j) as [b|] eqn:Hb.
  - rewrite ones_lookup by (by apply lookup_lt_Some in Hb). cbn. f_equal.
    destruct (bool_decide_reflect (j ∈ Np.nonzero (Np.invert acc))) as [Hj | Hj];
      rewrite nonzero_elem in Hj; unfold Np.invert in Hj; rewrite lookup_map, Hb in Hj;
      cbn in Hj.
    + destruct b; [discriminate | done].
    + destruct b; [done | by destruct Hj].
  - apply lookup_ge_None in Hb.
    rewrite (proj2 (lookup_ge_None (Np.ones (length acc)) j)); [done |].
    by rewrite ones_length.
Qed.

Lemma legacy_tokenlist_of_chain (m : list bool) (ms : list (list bool)) :
  Legacy.tokenlist_of OR (chain OR m ms) []
  = List.map (fun m' => [mask_item m']) (m :: ms).
Proof.
  revert m. induction ms as [|m' ms IH]; intros m; [reflexivity |].
  cbn [chain Legacy.tokenlist_of is_word mask_item app List.map].
  replace (String.eqb OR OR) with true by reflexivity.
  f_equal. apply IH.
Qed.

Lemma legacy_or_rounds_masks
    (_evaluate : list item → option (list nat) → res (list bool * option (list nat)))
    (ms : list (list bool)) :
  ∀ acc : list bool,
    Forall (fun m => length m = length acc) ms →
    Legacy.or_rounds _evaluate (List.map (fun m => [mask_item m]) ms)
      (Some (Np.nonzero (Np.invert acc)))
    = Ok (Some (Np.nonzero (Np.invert (fold_left (zip_with orb) ms acc)))).
Proof.
  induction ms as [|m ms IH]; intros acc Hms; [reflexivity |].
  inversion Hms as [|? ? Hm Hrest]; subst.
  cbn [List.map Legacy.or_rounds Legacy.or_step mask_item fold_left].
  assert (Hinv : length (Np.invert acc) = length m) by (by rewrite length_invert).
  rewrite (take_nonzero (Np.invert acc) m Hinv). cbn [res_bind].
  rewrite take_nonzero.
  2:{ rewrite length_invert. by apply length_pick. }
  rewrite <- compress_is_pick.
  2:{ rewrite length_invert. symmetry. by apply length_pick. }
  unfold Np.invert at 2. rewrite <- pick_map. fold (Np.invert m).
  rewrite compress_nonzero by (by rewrite !length_invert).
  cbn [res_bind]. rewrite invert_zip_orb. apply IH.
  rewrite length_zip_with, Hm, Nat.min_id.
  eapply Forall_impl; [exact Hrest |]. intros m' Hm'. cbn in Hm'. congruence.
Qed.

(** X22.  In the earlier module [_or] narrows the atoms still to be
    decided with [np.invert]: on a chain of masks of the length of the
    collection, of any number of operands, it returns the element-wise
    disjunction of all of them. *)
Theorem legacy_or_of_masks
    (_evaluate : list item → option (list nat) → res (list bool * option (list nat)))
    (m : list bool) (ms : list (list bool)) :
  Forall (fun m' => length m' = length m) ms →
  Legacy._or _evaluate (length m) (chain OR m ms) = Ok (fold_left (zip_with orb) ms m).
Proof.
  intros Hms. unfold Legacy._or. rewrite legacy_tokenlist_of_chain.
  cbn [List.map Legacy.or_rounds Legacy.or_step mask_item res_bind].
  fold (mask_item). rewrite (legacy_or_rounds_masks _evaluate ms m Hms).
  cbn [res_bind].
  assert (Hlen : length (fold_left (zip_with orb) ms m) = length m).
  { clear -Hms. revert m Hms. induction ms as [|m' ms IH]; intros m Hms; [done |].
    inversion Hms as [|? ? Hm Hrest]; subst. cbn [fold_left].
    assert (Hz : length (zip_with orb m m') = length m)
      by (rewrite length_zip_with, Hm; apply Nat.min_id).
    rewrite IH; [done |]. rewrite Hz. done. }
  rewrite <- Hlen. apply put_const_clears.
Qed.

Lemma legacy_or_of_masks_witness :
  Legacy._or (fun _ _ => Raise OutsideModel) (length [true; false; false])
    (chain OR [true; false; false] [[false; true; false]; [false; false; true]])
  = Ok (fold_left (zip_with orb) [[false; true; false]; [false; false; true]]
          [true; false; false]).
Proof.
  apply (legacy_or_of_masks (fun _ _ => Raise OutsideModel) [true; false; false]
           [[false; true; false]; [false; false; true]]).
  repeat constructor.
Defined.

(** ** Ranges of numbers for the other numeric keywords *)






(** ** Indices *)

Lemma index_items_ints (zs : list Z) :
  ∀ torf : list bool,
    Forall (fun z => 0 ≤ z)%Z zs →
    index_items (List.map NInt zs) torf
    = Ok (imap (fun j x => x || bool_decide (Z.of_nat j ∈ zs))%bool torf).
Proof.
  induction zs as [|z zs IH]; intros torf Hzs.
  - cbn. f_equal. apply list_eq. intros j. rewrite list_lookup_imap.
    destruct (torf !! j); [| done]. cbn.
    rewrite bool_decide_eq_false_2 by apply not_elem_of_nil. by rewrite orb_false_r.
  - inversion Hzs as [|? ? Hz Hrest]; subst. cbn [List.map index_items].
    rewrite IH by done. f_equal. apply list_eq. intros j.
    rewrite !list_lookup_imap. unfold set_index.
    assert (Hneg : ((- Z.of_nat (length torf) <=? z)%Z && (z <? 0)%Z)%bool = false).
    { apply andb_false_iff. right. apply Z.ltb_ge. done. }
    destruct ((0 <=? z)%Z && (z <? Z.of_nat (length torf))%Z)%bool eqn:Hin.
    + apply andb_true_iff in Hin as [_ Hlt]. apply Z.ltb_lt in Hlt.
      destruct (decide (j = Z.to_nat z)) as [-> | Hne].
      * rewrite list_lookup_insert_eq by lia. cbn.
        destruct (lookup_lt_is_Some_2 torf (Z.to_nat z)) as [x Hx]; [lia |].
        rewrite Hx. cbn. f_equal.
        rewrite bool_decide_eq_true_2; [by rewrite orb_true_r |].
        rewrite Z2Nat.id by done. left.
      * rewrite list_lookup_insert_ne by done.
        destruct (torf !! j) as [x|]; [| done]. cbn. f_equal. f_equal.
        apply bool_decide_ext. rewrite elem_of_cons. split; [tauto |].
        intros [H | H]; [lia | done].
    + rewrite Hneg. destruct (torf !! j) as [x|] eqn:E; [| done]. cbn. f_equal. f_equal.
      apply bool_decide_ext. rewrite elem_of_cons. split; [tauto |].
      intros [H | H]; [| done]. exfalso.
      apply lookup_lt_Some in E. apply andb_false_iff in Hin as [Hin | Hin].
      * apply Z.leb_gt in Hin. lia.
      * apply Z.ltb_ge in Hin. lia.
Qed.

Lemma evaluate_index_fuel (cat : Catalog) (self : Select) (fuel : nat)
    (v : item) (vals : list item) :
  _evaluate cat self (S fuel) (PList (IStr "index" :: v :: vals)) None
  = _index self (Some (v :: vals)) None.
Proof. reflexivity. Qed.

(** X24.  "index" followed by numbers that are not negative: the atom of
    the collection is selected when its index in the atom group is one of
    the numbers, also when the collection is a subset of the group; a
    number beyond the last atom of the group selects nothing and raises
    nothing. *)
Theorem index_counts_the_atoms_of_the_group (cat : Catalog) (ag : AtomGroup)
    (atoms : option (list nat)) (kwargs : gmap string (list point)) (q : query)
    (tok : item) (toks : list item) (zs : list Z) :
  Nat.eqb (length (Py.split (Py.strip (selstr q)))) 1 = false →
  parsed q = Some (Words (IStr "index" :: tok :: toks)) →
  _getNumRange (tok :: toks) true = Ok (Some (List.map NInt zs)) →
  Forall (fun z => 0 ≤ z)%Z zs →
  let collection := match atoms with
                    | None => Np.arange (numAtoms ag)
                    | Some idx => idx
                    end in
  Forall (fun i => i < numAtoms ag)%nat collection →
  getBoolArray cat atoms kwargs q ag
  = (ag, Ok (List.map (fun i => bool_decide (Z.of_nat i ∈ zs)) collection)).
Proof.
  intros Hsplit Hparsed Hns Hzs collection Hcoll.
  rewrite (getBoolArray_words cat ag atoms kwargs q "index" _ Hsplit Hparsed).
  unfold evaluate. change recursion_limit with (S 999).
  rewrite evaluate_index_fuel.
  set (t := imap (fun j x => x || bool_decide (Z.of_nat j ∈ zs))%bool
              (Np.zeros (numAtoms ag))).
  assert (Ht : ∀ j, (j < numAtoms ag)%nat
                    → t !! j = Some (bool_decide (Z.of_nat j ∈ zs))).
  { intros j Hj. unfold t. rewrite list_lookup_imap, zeros_lookup by done. done. }
  assert (Htake : match atoms with
                  | None => Ok t
                  | Some idx => Np.take t idx
                  end = Ok (List.map (fun i => bool_decide (Z.of_nat i ∈ zs)) collection)).
  { unfold collection in *. destruct atoms as [idx|].
    - destruct (take_spec t idx) as (t1 & Ht1 & Hl1 & Hlook1).
      { unfold t. by rewrite length_imap, zeros_length. }
      rewrite Ht1. f_equal. apply list_eq. intros k. rewrite lookup_map.
      destruct (idx !! k) as [i|] eqn:Hi.
      + rewrite (Hlook1 k i Hi). cbn. apply Ht.
        rewrite Forall_forall in Hcoll. apply Hcoll. by eapply list_elem_of_lookup_2.
      + cbn. apply lookup_ge_None. apply lookup_ge_None in Hi. lia.
    - f_equal. apply list_eq. intros j. rewrite lookup_map. unfold Np.arange.
      destruct (decide (j < numAtoms ag)%nat) as [Hj | Hj].
      + rewrite lookup_seq_lt by done. cbn. by apply Ht.
      + rewrite lookup_seq_ge by lia. cbn. apply lookup_ge_None.
        unfold t. rewrite length_imap, zeros_length. lia. }
  unfold _index.
  erewrite bind_Ok.
  2:{ erewrite bind_Ok; [| reflexivity].
      erewrite bind_Ok; [| unfold lift; by rewrite Hns].
      cbv iota.
      erewrite bind_Ok; [| unfold lift; by rewrite index_items_ints].
      cbn [selector _indices]. fold t.
      erewrite bind_Ok; [| unfold lift; by rewrite Htake].
      erewrite bind_Ok; [| reflexivity].
      reflexivity. }
  reflexivity.
Qed.

Lemma index_counts_the_atoms_of_the_group_witness :
  getBoolArray initial_catalog (Some [2; 0]) ∅
    {| selstr := "index 2 7";
       parsed := Some (Words (IStr "index" :: IStr "2" :: [IStr "7"])) |}
    Examples.three_atoms
  = (Examples.three_atoms,
     Ok (List.map (fun i => bool_decide (Z.of_nat i ∈ [2; 7]%Z)) [2; 0]%nat)).
Proof.
  apply (index_counts_the_atoms_of_the_group initial_catalog Examples.three_atoms
           (Some [2; 0]) ∅ _ (IStr "2") [IStr "7"] [2; 7]%Z).
  - vm_compute. reflexivity.
  - reflexivity.
  - vm_compute. reflexivity.
  - repeat constructor; lia.
  - repeat constructor; simpl; lia.
Defined.

(** ** Flags set by the user *)




(** ** Residue numbers with an insertion code *)

Lemma broadcast_same_length {A B C} (f : A → B → C) (a : list A) (b : list B) :
  length a = length b → Np.broadcast f a b = Ok (zip_with f a b).
Proof.
  intros Hlen. destruct a as [|x [|x' a]], b as [|y [|y' b]]; try discriminate;
    try reflexivity.
  unfold Np.broadcast.
  assert (Hzip : ∀ (l : list A) (l' : list B),
             length l = length l' → Np.zip_same f l l' = Ok (zip_with f l l')).
  { induction l as [|u l IH]; intros [|v l'] H; try discriminate; [done |].
    injection H as H. cbn. by rewrite IH. }
  by apply Hzip.
Qed.

Lemma set_where_zeros (cond : list bool) :
  Np.set_where (Np.zeros (length cond)) cond = Ok cond.
Proof.
  unfold Np.zeros. induction cond as [|c cond IH]; cbn; [done |]. by rewrite IH.
Qed.

Lemma evaluate_resnum_fuel (cat : Catalog) (self : Select) (fuel : nat)
    (v : item) (vals : list item) :
  _evaluate cat self (S fuel) (PList (IStr "resnum" :: v :: vals)) None
  = _resnum self (Some (v :: vals)) None.
Proof. reflexivity. Qed.

(** X26.  "resnum" followed by a number with an insertion code, as in
    "resnum 5A": the atoms selected are those whose residue number is the
    number and whose insertion code is the letter; the code "_" stands
    for the empty insertion code. *)
Theorem resnum_with_insertion_code (cat : Catalog) (ag : AtomGroup)
    (kwargs : gmap string (list point)) (q : query) (word : string)
    (code : ascii) (number : Z) (rs : list Z) (icodes : list string) :
  _fields ag !! "resnum" = Some (IntArr rs) →
  _fields ag !! "icode" = Some (StrArr icodes) →
  length rs = numAtoms ag →
  length icodes = numAtoms ag →
  Nat.eqb (length (Py.split (Py.strip (selstr q)))) 1 = false →
  parsed q = Some (Words [IStr "resnum"; IStr word]) →
  _getNumRange [IStr word] false = Ok (Some [NStr word]) →
  Py.last_char word = Some code →
  Py.int (Py.but_last word) = Some number →
  getBoolArray cat None kwargs q ag
  = (ag, Ok (zip_with
               (fun r i => Z.eqb r number
                           && String.eqb i (if Ascii.eqb code "_" then EmptyString
                                            else String code EmptyString))%bool
               rs icodes)).
Proof.
  intros Hrs Hic Hlr Hli Hsplit Hparsed Hns Hlast Hint.
  rewrite (getBoolArray_words cat ag None kwargs q "resnum" _ Hsplit Hparsed).
  unfold evaluate. change recursion_limit with (S 999). rewrite evaluate_resnum_fuel.
  set (icode := if Ascii.eqb code "_" then EmptyString else String code EmptyString).
  set (both := zip_with andb (List.map (Qeq_bool (inject_Z number)) (List.map inject_Z rs))
                 (List.map (fun i => String.eqb i icode) icodes)).
  assert (Hboth : both = zip_with (fun r i => Z.eqb r number && String.eqb i icode)%bool
                           rs icodes).
  { unfold both. clear. revert icodes. induction rs as [|r rs IH]; intros [|i ics];
      cbn; try done.
    f_equal; [| apply IH]. f_equal. apply eq_true_iff_eq.
    rewrite Qeq_bool_inject, Z.eqb_eq. split; congruence. }
  assert (Hlen : length both = numAtoms ag).
  { rewrite Hboth, length_zip_with. lia. }
  erewrite bind_Ok.
  2:{ unfold _resnum.
      erewrite bind_Ok; [| by apply (getData_resnum ag kwargs rs)].
      erewrite bind_Ok; [| cbn [deref read]; by rewrite Hrs].
      erewrite bind_Ok; [| reflexivity].
      erewrite bind_Ok; [| reflexivity].
      erewrite bind_Ok; [| unfold lift; by rewrite Hns].
      cbv iota.
      erewrite bind_Ok.
      2:{ cbn [resnum_items].
          erewrite bind_Ok.
          2:{ erewrite bind_Ok;
                [| apply (getData_field ag kwargs "icode" (StrArr icodes));
                   [vm_compute; reflexivity | done]].
              erewrite bind_Ok; [| cbn [deref read]; by rewrite Hic].
              erewrite bind_Ok; [| reflexivity].
              reflexivity. }
          rewrite Hlast, Hint. fold icode.
          erewrite bind_Ok.
          2:{ unfold lift. rewrite broadcast_same_length; [reflexivity |].
              rewrite !length_map. lia. }
          fold both.
          erewrite bind_Ok.
          2:{ unfold lift, n_selected. cbn [selector _n_atoms].
              rewrite <- Hlen, set_where_zeros. reflexivity. }
          reflexivity. }
      reflexivity. }
  cbn [option_map]. by rewrite Hboth.
Qed.

Lemma resnum_with_insertion_code_witness :
  let ag := {| numAtoms := 3;
               _fields := {["resnum" := IntArr [5; 5; 6]%Z;
                            "icode" := StrArr [""; "A"; "A"]]};
               _data := ∅; _coords := None |} in
  getBoolArray initial_catalog None ∅
    {| selstr := "resnum 5A"; parsed := Some (Words [IStr "resnum"; IStr "5A"]) |} ag
  = (ag, Ok (zip_with
               (fun r i => Z.eqb r 5
                           && String.eqb i (if Ascii.eqb "A" "_" then EmptyString
                                            else String "A" EmptyString))%bool
               [5; 5; 6]%Z [""; "A"; "A"])).
Proof.
  intros ag.
  apply (resnum_with_insertion_code initial_catalog ag ∅ _ "5A" "A"%char 5
           [5; 5; 6]%Z [""; "A"; "A"]); vm_compute; reflexivity.
Defined.

(** ** "same ... as" with another word *)

(** X27.  The operator "same ... as" is parsed with any word in the
    middle; with a word other than "residue", "chain" and "segment" it is
    a [SelectionError]. *)
Theorem same_as_of_another_unit_is_an_error (cat : Catalog) (self : Select)
    (op first what last : string) (g : list bool) (ag : AtomGroup) :
  Py.startswith "same" op = true →
  Py.split op = [first; what; last] →
  what ∉ ["residue"; "chain"; "segment"] →
  _unary cat self [IStr op; mask_item g] ag = (ag, Raise SelectionError).
Proof.
  intros Hsame Hsplit Hwhat.
  assert (Hnot : String.eqb op NOT = false).
  { apply String.eqb_neq. intros ->. vm_compute in Hsame. discriminate. }
  assert (Hne : String.eqb what "residue" = false ∧ String.eqb what "chain" = false
                ∧ String.eqb what "segment" = false).
  { split_and!; apply String.eqb_neq; intros ->; apply Hwhat; set_solver. }
  destruct Hne as (H1 & H2 & H3).
  unfold _unary. rewrite Hnot, Hsame.
  rewrite (bind_Raise _ _ ag ag SelectionError); [done |].
  unfold _sameas, mask_item. rewrite Hsplit. cbn [is_array].
  rewrite (bind_Ok _ _ ag ag (Some (VArr (BoolArr g)))) by reflexivity.
  cbn [is_array]. rewrite H1, H2, H3. reflexivity.
Qed.

Lemma same_as_of_another_unit_is_an_error_witness :
  _unary initial_catalog Examples.whole_group
    [IStr "same atom as"; mask_item [true; false; false]] Examples.three_atoms
  = (Examples.three_atoms, Raise SelectionError).
Proof.
  apply (same_as_of_another_unit_is_an_error initial_catalog Examples.whole_group
           "same atom as" "same" "atom" "as" [true; false; false] Examples.three_atoms).
  - vm_compute. reflexivity.
  - vm_compute. reflexivity.
  - apply (bool_decide_unpack _). vm_compute. exact I.
Defined.
